(** * Simon game firmware (SimonGame_V1_4.ino): a shallow embedding

    The sketch is a five-state polling loop over global variables, a
    millisecond clock and a handful of pins.  The embedding keeps the
    globals in a record, threads it through a small state monad, and takes
    everything the sketch reads from outside (pin levels over time, the
    pseudo-random generator) from an environment.

    Conventions.
    - [clock] is the elapsed time in milliseconds as an unbounded integer;
      [millis] reads it modulo 2^32 (an [unsigned long] on the AVR target),
      and subtraction of two timestamps wraps the same way.
    - Only [delay] and the gap between two iterations of [loop] let time
      pass; the statements of one iteration are otherwise instantaneous.
    - A busy-wait loop is explored for [patience] rounds; a loop that is
      still spinning then yields [Hang].  An array access outside its
      bounds yields [Fault].
    - [int] is 16 bits wide on the target.  Every [int] of the sketch stays
      within [0, 100] on reachable states (see [wf]), so its arithmetic is
      written without wrap-around.
    - [setup] only configures the pin modes; it touches none of the globals
      and is left out. *)

From Stdlib Require Import ZArith List Lia Bool.
From stdpp Require Import base list.
Import ListNotations.
Open Scope Z_scope.

(** ** Pins, constants and globals *)

Inductive level := LOW | HIGH.

Inductive GameState :=
  | WELCOME
  | WAIT_FOR_START
  | PLAY_SEQUENCE
  | USER_INPUT
  | GAME_OVER.

Definition BUTTON_PINS : list Z := [10; 9; 8; 7].
Definition LED_PINS : list Z := [3; 4; 5; 6].
Definition BUZZER_PIN : Z := 11.
Definition TONES : list Z := [310; 209; 415; 252].
Definition MAX_SEQUENCE : Z := 100.
Definition debounceDelay : Z := 200.

(** What the sketch writes to the outside world, stamped with [clock]. *)
Inductive Event :=
  | DigitalWrite (pin : Z) (v : level)
  | Tone (pin freq duration : Z)
  | NoTone (pin : Z).

Record State := mkState {
  gameState : GameState;
  sequence : list Z;            (* int sequence[MAX_SEQUENCE] *)
  sequenceLength : Z;
  userInputIndex : Z;
  lastButtonPress : Z;          (* unsigned long *)
  previousMillis : Z;           (* static in waitForStartButton *)
  ledState : bool;              (* static in waitForStartButton *)
  clock : Z;                    (* elapsed milliseconds, not wrapped *)
  draws : nat;                  (* calls made to random() so far *)
  outputs : list (Z * Event)    (* newest first *)
}.

Record Env := mkEnv {
  pin_level : Z -> Z -> level;  (* time -> pin -> level read *)
  prng : nat -> Z;              (* k-th value of the generator *)
  patience : nat                (* busy-wait rounds explored *)
}.

Definition init : State :=
  mkState WELCOME (replicate 100 0) 0 0 0 0 false 0 0 [].

(** Field updates. *)
Definition set_gameState (v : GameState) (s : State) : State :=
  mkState v (sequence s) (sequenceLength s) (userInputIndex s)
    (lastButtonPress s) (previousMillis s) (ledState s) (clock s) (draws s)
    (outputs s).
Definition set_sequence (v : list Z) (s : State) : State :=
  mkState (gameState s) v (sequenceLength s) (userInputIndex s)
    (lastButtonPress s) (previousMillis s) (ledState s) (clock s) (draws s)
    (outputs s).
Definition set_sequenceLength (v : Z) (s : State) : State :=
  mkState (gameState s) (sequence s) v (userInputIndex s)
    (lastButtonPress s) (previousMillis s) (ledState s) (clock s) (draws s)
    (outputs s).
Definition set_userInputIndex (v : Z) (s : State) : State :=
  mkState (gameState s) (sequence s) (sequenceLength s) v
    (lastButtonPress s) (previousMillis s) (ledState s) (clock s) (draws s)
    (outputs s).
Definition set_lastButtonPress (v : Z) (s : State) : State :=
  mkState (gameState s) (sequence s) (sequenceLength s) (userInputIndex s)
    v (previousMillis s) (ledState s) (clock s) (draws s) (outputs s).
Definition set_previousMillis (v : Z) (s : State) : State :=
  mkState (gameState s) (sequence s) (sequenceLength s) (userInputIndex s)
    (lastButtonPress s) v (ledState s) (clock s) (draws s) (outputs s).
Definition set_ledState (v : bool) (s : State) : State :=
  mkState (gameState s) (sequence s) (sequenceLength s) (userInputIndex s)
    (lastButtonPress s) (previousMillis s) v (clock s) (draws s) (outputs s).
Definition set_clock (v : Z) (s : State) : State :=
  mkState (gameState s) (sequence s) (sequenceLength s) (userInputIndex s)
    (lastButtonPress s) (previousMillis s) (ledState s) v (draws s)
    (outputs s).
Definition set_draws (v : nat) (s : State) : State :=
  mkState (gameState s) (sequence s) (sequenceLength s) (userInputIndex s)
    (lastButtonPress s) (previousMillis s) (ledState s) (clock s) v
    (outputs s).
Definition set_outputs (v : list (Z * Event)) (s : State) : State :=
  mkState (gameState s) (sequence s) (sequenceLength s) (userInputIndex s)
    (lastButtonPress s) (previousMillis s) (ledState s) (clock s) (draws s)
    v.

(** ** The monad: state, divergence and faults *)

Inductive outcome (A : Type) :=
  | Done (a : A)
  | Hang
  | Fault.
Arguments Done {A} a.
Arguments Hang {A}.
Arguments Fault {A}.

Definition M (A : Type) : Type := State -> outcome (A * State).

Definition ret {A} (a : A) : M A := fun s => Done (a, s).
Definition bind {A B} (m : M A) (k : A -> M B) : M B :=
  fun s =>
    match m s with
    | Done (a, s') => k a s'
    | Hang => Hang
    | Fault => Fault
    end.
Definition hang {A} : M A := fun _ => Hang.
Definition fault {A} : M A := fun _ => Fault.
Definition get {A} (f : State -> A) : M A := fun s => Done (f s, s).
Definition put (f : State -> State) : M unit := fun s => Done (tt, f s).

Declare Scope sketch_scope.
Delimit Scope sketch_scope with sketch.
Notation "'let*' x ':=' c1 'in' c2" := (bind c1 (fun x => c2))
  (at level 10, x name, c1 at level 100, c2 at level 200) : sketch_scope.
Notation "c1 '>>' c2" := (bind c1 (fun _ => c2))
  (at level 100, right associativity) : sketch_scope.
Open Scope sketch_scope.

(** ** Arduino core operations *)

Definition WORD : Z := 2 ^ 32.

(** Subtraction of two [unsigned long] values. *)
Definition wsub (a b : Z) : Z := (a - b) mod WORD.

Definition millis : M Z := get (fun s => clock s mod WORD).
Definition delay (ms : Z) : M unit := put (fun s => set_clock (clock s + ms) s).
Definition emit (ev : Event) : M unit :=
  put (fun s => set_outputs ((clock s, ev) :: outputs s) s).
Definition digitalWrite (pin : Z) (v : level) : M unit :=
  emit (DigitalWrite pin v).
Definition tone (pin freq duration : Z) : M unit :=
  emit (Tone pin freq duration).
Definition noTone (pin : Z) : M unit := emit (NoTone pin).

(** [a[i]] for a constant table or the sequence buffer. *)
Definition aref (a : list Z) (i : Z) : M Z :=
  if 0 <=? i then
    match a !! Z.to_nat i with
    | Some v => ret v
    | None => fault
    end
  else fault.

(** [for (int i = 0; i < n; i++) body], for a body that leaves [n] alone. *)
Fixpoint for_each (l : list Z) (body : Z -> M unit) : M unit :=
  match l with
  | [] => ret tt
  | i :: l' => body i >> for_each l' body
  end.

Section Sketch.
Variable e : Env.

Definition digitalRead (pin : Z) : M level :=
  get (fun s => pin_level e (clock s) pin).

(** [random(lo, hi)] of the Arduino core: [lo] when the range is empty,
    else the generator's next value reduced into [lo, hi).  The values of
    the generator come from the environment. *)
Definition random (lo hi : Z) : M Z :=
  if hi <=? lo then ret lo
  else fun s =>
    Done (lo + prng e (draws s) mod (hi - lo), set_draws (S (draws s)) s).

(** [while (digitalRead(pin) == LOW) delay(10);] *)
Fixpoint wait_release (pin : Z) (n : nat) : M unit :=
  match n with
  | O => hang
  | S n' =>
      let* v := digitalRead pin in
      match v with
      | LOW => delay 10 >> wait_release pin n'
      | HIGH => ret tt
      end
  end.

(** The [do ... while (sequenceLength == 0 && newColor == 2)] of
    [addToSequence]. *)
Fixpoint draw_color (n : nat) : M Z :=
  match n with
  | O => hang
  | S n' =>
      let* newColor := random 0 4 in
      let* len := get sequenceLength in
      if (len =? 0) && (newColor =? 2) then draw_color n'
      else ret newColor
  end.

Definition store_sequence (i v : Z) : M unit :=
  fun s =>
    if (0 <=? i) && (i <? Z.of_nat (length (sequence s))) then
      Done (tt, set_sequence (<[Z.to_nat i := v]> (sequence s)) s)
    else Fault.

Definition addToSequence : M unit :=
  let* len := get sequenceLength in
  if len <? MAX_SEQUENCE then
    let* newColor := draw_color (patience e) in
    store_sequence len newColor >>
    put (set_sequenceLength (len + 1))
  else ret tt.

Definition playColor (index : Z) : M unit :=
  let duration := 500 in
  let* led := aref LED_PINS index in
  digitalWrite led HIGH >>
  let* freq := aref TONES index in
  tone BUZZER_PIN freq duration >>
  delay duration >>
  digitalWrite led LOW.

Definition playSequence : M unit :=
  let* len := get sequenceLength in
  for_each (seqZ 0 len)
    (fun i =>
       let* seq := get sequence in
       let* c := aref seq i in
       playColor c >> delay 300).

(** The button scan of [readButton]; the list holds the indices still to
    be examined. *)
Fixpoint scan_buttons (todo : list Z) : M Z :=
  match todo with
  | [] => ret (-1)
  | i :: rest =>
      let* pin := aref BUTTON_PINS i in
      let* v := digitalRead pin in
      match v with
      | LOW =>
          let* t := millis in
          put (set_lastButtonPress t) >>
          wait_release pin (patience e) >>
          ret i
      | HIGH => scan_buttons rest
      end
  end.

Definition readButton : M Z :=
  let* t := millis in
  let* last := get lastButtonPress in
  if wsub t last <? debounceDelay then ret (-1)
  else scan_buttons [0; 1; 2; 3].

Definition all_leds (v : level) : M unit :=
  for_each [0; 1; 2; 3]
    (fun j => let* led := aref LED_PINS j in digitalWrite led v).

Definition gameOver : M unit :=
  delay 300 >>
  for_each [0; 1; 2]
    (fun _ =>
       tone BUZZER_PIN 100 200 >>
       all_leds HIGH >>
       delay 200 >>
       noTone BUZZER_PIN >>
       all_leds LOW >>
       delay 200) >>
  delay 1000.

Definition welcomeSequence : M unit :=
  let duration := 150 in
  for_each [0; 1]
    (fun _ =>
       for_each [0; 1; 2; 3]
         (fun i =>
            let* led := aref LED_PINS i in
            digitalWrite led HIGH >>
            let* freq := aref TONES i in
            tone BUZZER_PIN freq duration >>
            delay duration >>
            digitalWrite led LOW >>
            noTone BUZZER_PIN >>
            delay 100)) >>
  for_each [0; 1; 2; 3]
    (fun _ =>
       all_leds HIGH >>
       tone BUZZER_PIN 400 duration >>
       delay duration >>
       noTone BUZZER_PIN >>
       all_leds LOW >>
       delay 150).

Definition interval : Z := 300.

Definition waitForStartButton : M bool :=
  let* currentMillis := millis in
  let* previous := get previousMillis in
  (if interval <=? wsub currentMillis previous then
     put (set_previousMillis currentMillis) >>
     let* st := get ledState in
     put (set_ledState (negb st)) >>
     let* led := aref LED_PINS 2 in
     digitalWrite led (if negb st then HIGH else LOW)
   else ret tt) >>
  let* pin := aref BUTTON_PINS 2 in
  let* v := digitalRead pin in
  match v with
  | LOW => wait_release pin (patience e) >> ret true
  | HIGH => ret false
  end.

Definition loop : M unit :=
  let* st := get gameState in
  match st with
  | WELCOME =>
      welcomeSequence >>
      put (set_gameState WAIT_FOR_START)
  | WAIT_FOR_START =>
      let* started := waitForStartButton in
      if started then
        put (set_sequenceLength 0) >>
        let* led := aref LED_PINS 2 in
        digitalWrite led LOW >>
        delay 500 >>
        put (set_gameState PLAY_SEQUENCE)
      else ret tt
  | PLAY_SEQUENCE =>
      addToSequence >>
      playSequence >>
      put (set_userInputIndex 0) >>
      let* t := millis in
      put (set_lastButtonPress t) >>
      put (set_gameState USER_INPUT)
  | USER_INPUT =>
      let* input := readButton in
      if negb (input =? -1) then
        playColor input >>
        let* seq := get sequence in
        let* idx := get userInputIndex in
        let* expected := aref seq idx in
        if negb (input =? expected) then
          put (set_gameState GAME_OVER)
        else
          put (set_userInputIndex (idx + 1)) >>
          let* idx' := get userInputIndex in
          let* len := get sequenceLength in
          if len <=? idx' then
            delay 1000 >>
            put (set_gameState PLAY_SEQUENCE)
          else ret tt
      else ret tt
  | GAME_OVER =>
      gameOver >>
      put (set_gameState WAIT_FOR_START)
  end.

(** ** Executions: iterations of [loop] separated by gaps *)

Definition advance (g : Z) (s : State) : State := set_clock (clock s + g) s.

(** The input a [USER_INPUT] iteration started in [s] accepts, if any. *)
Definition accepted (s : State) : option Z :=
  match gameState s with
  | USER_INPUT =>
      match readButton s with
      | Done (i, _) => if i =? -1 then None else Some i
      | _ => None
      end
  | _ => None
  end.

Record Tick := mkTick {
  t_pre : State;          (* state in which the iteration starts *)
  t_in : option Z;        (* input accepted by the iteration *)
  t_post : State          (* state the iteration leaves *)
}.

(** One iteration of [loop] per gap, each after its gap has passed. *)
Fixpoint run (gaps : list Z) (s : State) : outcome (list Tick) :=
  match gaps with
  | [] => Done []
  | g :: gaps' =>
      let s0 := advance g s in
      match loop s0 with
      | Done (_, s1) =>
          match run gaps' s1 with
          | Done ts => Done (mkTick s0 (accepted s0) s1 :: ts)
          | Hang => Hang
          | Fault => Fault
          end
      | Hang => Hang
      | Fault => Fault
      end
  end.

(** The state an execution ends in. *)
Definition final (s : State) (ts : list Tick) : State :=
  List.last (map t_post ts) s.

(** The stream of inputs an execution accepted, in order. *)
Definition inputs (ts : list Tick) : list Z := omap t_in ts.

(** The states the sketch can be in after power-on. *)
Definition reachable (s : State) : Prop :=
  exists gaps ts,
    Forall (fun g => 0 <= g) gaps /\ run gaps init = Done ts /\ final init ts = s.

End Sketch.

(** ** Result states, invariants and measures *)

(** [world c o s]: the globals of [s] with the clock at [c] and the output
    log [o]; the shape of every state left by code that only waits and
    writes to pins. *)
Definition world (c : Z) (o : list (Z * Event)) (s : State) : State :=
  set_outputs o (set_clock c s).

(** Partial correctness without faults: a result satisfies [Q], a hanging
    computation is accepted, a fault is not. *)
Definition safe {A} (r : outcome (A * State)) (Q : A -> State -> Prop) : Prop :=
  match r with
  | Done (a, s') => Q a s'
  | Hang => True
  | Fault => False
  end.

Definition color_events (t index : Z) : list (Z * Event) :=
  let led := nth (Z.to_nat index) LED_PINS 0 in
  let freq := nth (Z.to_nat index) TONES 0 in
  [(t + 500, DigitalWrite led LOW);
   (t, Tone BUZZER_PIN freq 500);
   (t, DigitalWrite led HIGH)].

(** The log of a playback started at [t], newest entry first: each colour
    is shown for 500 ms and followed by a gap of 300 ms. *)
Fixpoint playback_events (t : Z) (cs : list Z) : list (Z * Event) :=
  match cs with
  | [] => []
  | c :: cs' => playback_events (t + 500 + 300) cs' ++ color_events t c
  end.

(** The state [addToSequence] leaves after drawing [c] as its [k]-th value. *)
Definition appended (c : Z) (k : nat) (s : State) : State :=
  set_sequenceLength (sequenceLength s + 1)
    (set_sequence (<[Z.to_nat (sequenceLength s) := c]> (sequence s))
       (set_draws (draws s + S k) s)).

Definition channelb (v : Z) : bool := (0 <=? v) && (v <? 4).

Definition wfb (s : State) : bool :=
  (length (sequence s) =? 100)%nat &&
  (0 <=? sequenceLength s) && (sequenceLength s <=? MAX_SEQUENCE) &&
  forallb channelb (take (Z.to_nat (sequenceLength s)) (sequence s)) &&
  (0 <=? userInputIndex s) && (userInputIndex s <=? MAX_SEQUENCE) &&
  match gameState s with
  | USER_INPUT => userInputIndex s <? sequenceLength s
  | _ => true
  end &&
  (0 <=? clock s) &&
  ((sequenceLength s <=? 0) || negb (bool_decide (sequence s !! 0%nat = Some 2))).

Definition wf (s : State) : Prop := wfb s = true.

Definition button (e : Env) (t i : Z) : level :=
  pin_level e t (nth (Z.to_nat i) BUTTON_PINS 0).

(** The state [readButton] leaves when it accepts a press that is released
    at the [k]-th sample. *)
Definition pressed (k : nat) (s : State) : State :=
  set_clock (clock s + 10 * Z.of_nat k)
    (set_lastButtonPress (clock s mod WORD) s).

Definition held (e : Env) (i : Z) (k : nat) (s : State) : Prop :=
  button e (clock s) i = LOW /\
  (k < patience e)%nat /\
  button e (clock s + 10 * Z.of_nat k) i = HIGH /\
  forall j : nat, (j < k)%nat -> button e (clock s + 10 * Z.of_nat j) i = LOW.

(** Does an iteration of [waitForStartButton] started in [s] toggle the LED? *)
Definition toggles (s : State) : bool :=
  interval <=? wsub (clock s mod WORD) (previousMillis s).

(** The state after the blink step of [waitForStartButton]. *)
Definition blink (s : State) : State :=
  if toggles s then
    set_outputs
      ((clock s, DigitalWrite 5 (if negb (ledState s) then HIGH else LOW))
         :: outputs s)
      (set_ledState (negb (ledState s))
         (set_previousMillis (clock s mod WORD) s))
  else s.

(** The state left when the start button is accepted and released at the
    [k]-th sample. *)
Definition started (k : nat) (s : State) : State :=
  let t := clock s + 10 * Z.of_nat k in
  set_gameState PLAY_SEQUENCE
    (world (t + 500) ((t, DigitalWrite 5 LOW) :: outputs (blink s))
       (set_sequenceLength 0 (blink s))).

(** The state left by a [PLAY_SEQUENCE] iteration whose [addToSequence]
    produced [sa]. *)
Definition played (sa : State) : State :=
  let t := clock sa + 800 * sequenceLength sa in
  set_gameState USER_INPUT
    (set_lastButtonPress (t mod WORD)
       (set_userInputIndex 0
          (world t
             (playback_events (clock sa)
                (take (Z.to_nat (sequenceLength sa)) (sequence sa))
              ++ outputs sa) sa))).

(** The state after the feedback [playColor i] given in [sr]. *)
Definition echoed (i : Z) (sr : State) : State :=
  world (clock sr + 500) (color_events (clock sr) i ++ outputs sr) sr.

(** The three ways a [USER_INPUT] iteration ends once input [i] was accepted
    in [s] and released at the [k]-th sample. *)
Definition mismatch (i : Z) (k : nat) (s : State) : State :=
  set_gameState GAME_OVER (echoed i (pressed k s)).
Definition advanced (i : Z) (k : nat) (s : State) : State :=
  set_userInputIndex (userInputIndex s + 1) (echoed i (pressed k s)).
Definition completed (i : Z) (k : nat) (s : State) : State :=
  set_gameState PLAY_SEQUENCE
    (set_clock (clock s + 10 * Z.of_nat k + 500 + 1000) (advanced i k s)).

Definition nonneg (gaps : list Z) : Prop := Forall (fun g => 0 <= g) gaps.

(** Does the execution end with an iteration that accepted an input? *)
Fixpoint ends_with_input (ts : list Tick) : bool :=
  match ts with
  | [] => false
  | [t] => match t_in t with Some _ => true | None => false end
  | _ :: ts' => ends_with_input ts'
  end.

(** What is left to enter, from the cursor on. *)
Definition remaining (s : State) : list Z :=
  drop (Z.to_nat (userInputIndex s))
    (take (Z.to_nat (sequenceLength s)) (sequence s)).

(** [lastButtonPress] holds, modulo the word size, a time stamp taken at or
    after [T]. *)
Definition stamped (T : Z) (s : State) : Prop :=
  exists L, T <= L <= clock s /\ lastButtonPress s = L mod WORD.

(** Time since the stored toggle stamp, as the sketch computes it. *)
Definition since (s : State) : Z := wsub (clock s mod WORD) (previousMillis s).

Fixpoint toggle_count (ts : list Tick) : Z :=
  match ts with
  | [] => 0
  | t :: ts' => (if toggles (t_pre t) then 1 else 0) + toggle_count ts'
  end.

Definition total (gaps : list Z) : Z := fold_right Z.add 0 gaps.

Definition waiting (ts : list Tick) : Prop :=
  Forall (fun t => gameState (t_post t) = WAIT_FOR_START) ts.

Definition idle (s : State) : Prop :=
  gameState s = GAME_OVER \/ gameState s = WAIT_FOR_START.

(** Button [i] is the first one the scan of [readButton] finds down. *)
Definition first_low (e : Env) (t i : Z) : Prop :=
  button e t i = LOW /\ forall j, 0 <= j < i -> button e t j = HIGH.

(** Applying [f] to the state a computation returns. *)
Definition then_state {A} (f : State -> State) (r : outcome (A * State)) :
  outcome (A * State) :=
  match r with
  | Done (a, s') => Done (a, f s')
  | Hang => Hang
  | Fault => Fault
  end.

(** Every button is found released within [patience] samples, whenever the
    sampling starts. *)
Definition releases (e : Env) : Prop :=
  forall t pin, exists k : nat,
    (k < patience e)%nat /\ pin_level e (t + 10 * Z.of_nat k) pin = HIGH.

(** From every position on, the generator yields a value other than 2
    within [patience] draws. *)
Definition fair (e : Env) : Prop :=
  forall n : nat, exists k : nat,
    (k < patience e)%nat /\ prng e (n + k) mod 4 <> 2.

(** ** Checking executions by evaluation *)

Definition is_done {A} (r : outcome A) : bool :=
  match r with Done _ => true | _ => false end.

Definition run_final (e : Env) (gaps : list Z) (s : State) : State :=
  match run e gaps s with
  | Done ts => final s ts
  | _ => s
  end.

Definition run_ticks (e : Env) (gaps : list Z) (s : State) : list Tick :=
  match run e gaps s with
  | Done ts => ts
  | _ => []
  end.

Definition gameState_eqb (a b : GameState) : bool :=
  match a, b with
  | WELCOME, WELCOME | WAIT_FOR_START, WAIT_FOR_START
  | PLAY_SEQUENCE, PLAY_SEQUENCE | USER_INPUT, USER_INPUT
  | GAME_OVER, GAME_OVER => true
  | _, _ => false
  end.

Definition list_eqb (l1 l2 : list Z) : bool := bool_decide (l1 = l2).

(** A run over [gaps0] from power-on that ends in [PLAY_SEQUENCE] with [n]
    colours, followed by one more cycle over [gaps1] that is entered
    exactly, returns to [PLAY_SEQUENCE] and still has [n] colours: all of
    it checked in one evaluation. *)
Definition cycle_check (e : Env) (gaps0 gaps1 : list Z) (n : Z) : bool :=
  let r := run e gaps0 init in
  let s := match r with Done ts => final init ts | _ => init end in
  let r0 := run e [0] s in
  let s1 := match r0 with Done ts => final s ts | _ => s end in
  let r1 := run e gaps1 s1 in
  let ts := match r1 with Done ts => ts | _ => [] end in
  forallb (fun g => 0 <=? g) gaps0 && is_done r &&
  gameState_eqb (gameState s) PLAY_SEQUENCE &&
  (sequenceLength s =? n) &&
  is_done r0 &&
  (sequenceLength s1 =? n) &&
  is_done r1 &&
  list_eqb (inputs ts) (take (Z.to_nat (sequenceLength s1)) (sequence s1)) &&
  ends_with_input ts &&
  gameState_eqb (gameState (final s1 ts)) PLAY_SEQUENCE &&
  (sequenceLength (final s1 ts) =? n).

Definition waitingb (ts : list Tick) : bool :=
  forallb (fun t => gameState_eqb (gameState (t_post t)) WAIT_FOR_START) ts.

(** ** Scenarios *)

(** A player who never errs, against a generator that always yields 1: the
    start button (pin 8) is down at 3200 ms, when the welcome animation has
    ended, and button 1 (pin 9) is down at every multiple of 20 ms. *)
Definition perfect_env : Env :=
  mkEnv (fun t pin =>
           if ((pin =? 8) && (t =? 3200)) || ((pin =? 9) && (t mod 20 =? 0))
           then LOW else HIGH)
        (fun _ => 1) 8.

(** The schedule of round [m]: the playback, the first poll after the
    debounce window, then one poll per remaining colour. *)
Definition round_gaps (m : nat) : list Z := 0 :: 210 :: repeat 10 (m - 1).

(** Welcome, start press, then [n] rounds. *)
Definition rounds_gaps (n : nat) : list Z :=
  [0; 0] ++ concat (map round_gaps (seq 1 n)).

(** [PLAY_SEQUENCE] with an empty sequence, just after the start press. *)
Definition fresh_state : State := run_final perfect_env (rounds_gaps 0) init.

(** [PLAY_SEQUENCE] after 100 rounds won. *)
Definition cap_state : State := run_final perfect_env (rounds_gaps 100) init.

(** The first round of the perfect player: one colour is appended and
    entered. *)
Definition round1_state : State := run_final perfect_env [0] fresh_state.
Definition round1_ticks : list Tick := run_ticks perfect_env [210] round1_state.

(** A player who errs on the second colour of the second round: from
    8500 ms on, button 0 (pin 10) is pressed instead of button 1. *)
Definition slip_env : Env :=
  mkEnv (fun t pin =>
           if ((pin =? 8) && (t =? 3200)) ||
              ((pin =? 9) && (t mod 20 =? 0) && (t <? 8500)) ||
              ((pin =? 10) && (t mod 20 =? 0) && (8500 <=? t))
           then LOW else HIGH)
        (fun _ => 1) 8.

(** [USER_INPUT] at the start of the second round. *)
Definition slip_state : State := run_final slip_env [0; 0; 0; 210; 0] init.
Definition slip_ticks : list Tick := run_ticks slip_env [210; 10] slip_state.

(** Ten milliseconds into the first input phase of the perfect player,
    with button 1 down. *)
Definition early_state : State :=
  advance 10 (run_final perfect_env [0; 0; 0] init).

(** The first two rounds of the perfect player. *)
Definition two_rounds : list Tick := run_ticks perfect_env (rounds_gaps 2) init.
Definition no_tick : Tick := mkTick init None init.

(** Nobody touches a button. *)
Definition quiet_env : Env := mkEnv (fun _ _ => HIGH) (fun _ => 1) 8.

(** [WAIT_FOR_START], right after the welcome animation. *)
Definition wait_state : State := run_final quiet_env [0] init.

Definition prompt_ticks : list Tick := run_ticks quiet_env (repeat 10 100) wait_state.

(** Button 1 is held from 5000 ms for 35 ms, the start button from 100 ms
    for 25 ms. *)
Definition hold_env : Env :=
  mkEnv (fun t pin =>
           if ((pin =? 9) && (5000 <=? t) && (t <? 5035)) ||
              ((pin =? 8) && (100 <=? t) && (t <? 125))
           then LOW else HIGH)
        (fun _ => 1) 8.

(** [USER_INPUT] at 5000 ms, debounce clock at 0. *)
Definition polling_state : State :=
  mkState USER_INPUT (replicate 100 1) 1 0 0 0 false 5000 1 [].

(** [WAIT_FOR_START] at 100 ms, 50 ms after the time in the debounce clock. *)
Definition restart_state : State :=
  mkState WAIT_FOR_START (replicate 100 1) 1 0 50 0 false 100 1 [].

(** The slip of [slip_env] has just ended the game. *)
Definition lost_state : State :=
  run_final slip_env [0; 0; 0; 210; 0; 210; 10] init.
Definition lost_ticks : list Tick := run_ticks slip_env [0; 50; 50] lost_state.

(** ** The transition relation, the pins observed, and [setup] *)

(** What a computation writes when run at time [t]. *)
Definition log_of (m : M unit) (t : Z) : list (Z * Event) :=
  match m (mkState WELCOME [] 0 0 0 0 false t 0 []) with
  | Done (_, s') => outputs s'
  | _ => []
  end.

Definition welcome_log : Z -> list (Z * Event) := log_of welcomeSequence.
Definition gameOver_log : Z -> list (Z * Event) := log_of gameOver.

(** The states left by the [WELCOME] and the [GAME_OVER] iteration. *)
Definition welcomed (s : State) : State :=
  set_gameState WAIT_FOR_START
    (world (clock s + 3200) (welcome_log (clock s) ++ outputs s) s).
Definition lost (s : State) : State :=
  set_gameState WAIT_FOR_START
    (world (clock s + 2500) (gameOver_log (clock s) ++ outputs s) s).

(** One iteration of [loop], case by case. *)
Inductive step (e : Env) (s : State) : State -> Prop :=
  | step_welcome :
      gameState s = WELCOME -> step e s (welcomed s)
  | step_wait :
      gameState s = WAIT_FOR_START -> button e (clock s) 2 = HIGH ->
      step e s (blink s)
  | step_start k :
      gameState s = WAIT_FOR_START -> held e 2 k s ->
      step e s (started k s)
  | step_play_full :
      gameState s = PLAY_SEQUENCE -> MAX_SEQUENCE <= sequenceLength s ->
      step e s (played s)
  | step_play c (k : nat) :
      gameState s = PLAY_SEQUENCE -> sequenceLength s < MAX_SEQUENCE ->
      (k < patience e)%nat ->
      c = prng e (draws s + k) mod 4 ->
      (sequenceLength s = 0 ->
         c <> 2 /\
         forall j : nat, (j < k)%nat -> prng e (draws s + j) mod 4 = 2) ->
      (sequenceLength s <> 0 -> k = 0%nat) ->
      step e s (played (appended c k s))
  | step_poll :
      gameState s = USER_INPUT -> accepted e s = None -> step e s s
  | step_input i k expected :
      gameState s = USER_INPUT -> accepted e s = Some i ->
      0 <= i < 4 ->
      debounceDelay <= wsub (clock s mod WORD) (lastButtonPress s) ->
      held e i k s ->
      sequence s !! Z.to_nat (userInputIndex s) = Some expected ->
      step e s
        (if negb (i =? expected) then mismatch i k s
         else if sequenceLength s <=? userInputIndex s + 1 then completed i k s
         else advanced i k s)
  | step_over :
      gameState s = GAME_OVER -> step e s (lost s).

(** May an iteration started in state [a] end in state [b]? *)
Definition allowed (a b : GameState) : bool :=
  match a, b with
  | WELCOME, WAIT_FOR_START
  | WAIT_FOR_START, WAIT_FOR_START | WAIT_FOR_START, PLAY_SEQUENCE
  | PLAY_SEQUENCE, USER_INPUT
  | USER_INPUT, USER_INPUT | USER_INPUT, PLAY_SEQUENCE | USER_INPUT, GAME_OVER
  | GAME_OVER, WAIT_FOR_START => true
  | _, _ => false
  end.


(** Is the LED on [pin] lit according to the log (newest entry first)?  All
    pins are low at power-on. *)
Fixpoint lit (pin : Z) (log : list (Z * Event)) : bool :=
  match log with
  | [] => false
  | (_, DigitalWrite p v) :: log' =>
      if p =? pin then match v with HIGH => true | LOW => false end
      else lit pin log'
  | _ :: log' => lit pin log'
  end.

(** Is the buzzer sounding at time [now]?  A tone started at [t] with
    duration [d] ends by itself at [t + d]. *)
Fixpoint sounding (now : Z) (log : list (Z * Event)) : bool :=
  match log with
  | [] => false
  | (t, Tone p _ d) :: log' =>
      if p =? BUZZER_PIN then now <? t + d else sounding now log'
  | (_, NoTone p) :: log' =>
      if p =? BUZZER_PIN then false else sounding now log'
  | _ :: log' => sounding now log'
  end.

(** Between iterations: the LEDs of channels 0, 1 and 3 are dark, the start
    LED is lit only while waiting with [ledState] set, the buzzer is
    silent. *)
Definition quiet (s : State) : Prop :=
  lit 3 (outputs s) = false /\
  lit 4 (outputs s) = false /\
  lit 6 (outputs s) = false /\
  (lit 5 (outputs s) = true ->
   gameState s = WAIT_FOR_START /\ ledState s = true) /\
  sounding (clock s) (outputs s) = false.

Inductive PinMode := INPUT_PULLUP | OUTPUT.

(** The pin configuration: the mode each pin was last given, if any. *)
Definition pinMode (pin : Z) (mode : PinMode) (cfg : Z -> option PinMode) :
  Z -> option PinMode :=
  fun p => if p =? pin then Some mode else cfg p.

Definition setup (cfg : Z -> option PinMode) : Z -> option PinMode :=
  let cfg :=
    fold_left
      (fun cfg (i : nat) =>
         pinMode (nth i LED_PINS 0) OUTPUT
           (pinMode (nth i BUTTON_PINS 0) INPUT_PULLUP cfg))
      (seq 0 4) cfg in
  pinMode BUZZER_PIN OUTPUT cfg.

Definition event_pin (ev : Event) : Z :=
  match ev with
  | DigitalWrite pin _ => pin
  | Tone pin _ _ => pin
  | NoTone pin => pin
  end.

(** Is [pin] one of the pins the sketch drives? *)
Definition driven (pin : Z) : bool :=
  existsb (Z.eqb pin) (LED_PINS ++ [BUZZER_PIN]).

(** Every entry of the log is on a pin the sketch drives. *)
Definition writes_driven (log : list (Z * Event)) : Prop :=
  Forall (fun te => driven (event_pin (snd te)) = true) log.

(** Buttons 1 and 3 are both held from 5000 ms for 35 ms. *)
Definition chord_env : Env :=
  mkEnv (fun t pin =>
           if ((pin =? 9) || (pin =? 7)) && (5000 <=? t) && (t <? 5035)
           then LOW else HIGH)
        (fun _ => 1) 8.

(** The number of iterations of an execution that start in
    [PLAY_SEQUENCE]. *)
Fixpoint plays (ts : list Tick) : Z :=
  match ts with
  | [] => 0
  | t :: ts' =>
      (if gameState_eqb (gameState (t_pre t)) PLAY_SEQUENCE then 1 else 0)
      + plays ts'
  end.

(** Did the iteration accept the start button? *)
Definition restarts (t : Tick) : bool :=
  gameState_eqb (gameState (t_pre t)) WAIT_FOR_START &&
  gameState_eqb (gameState (t_post t)) PLAY_SEQUENCE.

(** The sequence in use holds the last [sequenceLength] values drawn from
    the generator, reduced modulo 4, in the order drawn. *)
Definition from_generator (e : Env) (s : State) : Prop :=
  (Z.to_nat (sequenceLength s) <= draws s)%nat /\
  forall i : nat,
    (i < Z.to_nat (sequenceLength s))%nat ->
    sequence s !! i =
      Some (prng e (draws s - Z.to_nat (sequenceLength s) + i) mod 4).

(** The second and third rounds of the perfect player, from the input
    phase of the first. *)
Definition later_rounds : list Tick :=
  run_ticks perfect_env [210; 0; 210; 10; 0] round1_state.

(** Like the perfect player's first round, but the first input is the
    start button (pin 8), pressed at 4720 ms. *)
Definition green_env : Env :=
  mkEnv (fun t pin =>
           if (pin =? 8) && ((t =? 3200) || (t =? 4720)) then LOW else HIGH)
        (fun _ => 1) 8.

(** [USER_INPUT] at the start of the first round. *)
Definition green_state : State := run_final green_env [0; 0; 0] init.

(** [WAIT_FOR_START] 50 ms after the 32-bit clock has wrapped, with the
    last toggle 350 ms and the last accepted press 150 ms in the past. *)
Definition wrap_state : State :=
  mkState WAIT_FOR_START (replicate 100 0) 0 0
    (2 ^ 32 - 100) (2 ^ 32 - 300) false (2 ^ 32 + 50) 0 [].

(** A player who wins the first round and, in the second, presses button 1
    (pin 9) twice: from 8035 ms to 8050 ms, and again from 8190 ms to
    8600 ms.  The start button (pin 8) is down at 3200 ms. *)
Definition double_env : Env :=
  mkEnv (fun t pin =>
           if ((pin =? 8) && (t =? 3200)) ||
              ((pin =? 9) &&
               (((4715 <=? t) && (t <? 4730)) ||
                ((8035 <=? t) && (t <? 8050)) ||
                ((8190 <=? t) && (t <? 8600))))
           then LOW else HIGH)
        (fun _ => 1) 8.

(** Welcome, start press, the first round, and the two polls of the second
    round that see the two presses. *)
Definition double_gaps : list Z := [0; 0; 0; 210; 0; 210; 0].
Definition double_ticks : list Tick := run_ticks double_env double_gaps init.

(** The state the blink step of [waitForStartButton] leaves when it
    toggles. *)
Definition toggled (s : State) : State :=
  set_outputs
    ((clock s, DigitalWrite 5 (if negb (ledState s) then HIGH else LOW))
       :: outputs s)
    (set_ledState (negb (ledState s))
       (set_previousMillis (clock s mod WORD) s)).

(** * Properties of the sketch *)

(** ** Reasoning about monadic code *)

Lemma safe_bind {A B} (m : M A) (k : A -> M B) s (Q : B -> State -> Prop) :
  safe (m s) (fun a s1 => safe (k a s1) Q) -> safe (bind m k s) Q.
Proof.
  unfold bind, safe. destruct (m s) as [[a s1]| |]; auto.
Qed.

Lemma safe_weaken {A} (r : outcome (A * State)) (Q Q' : A -> State -> Prop) :
  safe r Q -> (forall a s', Q a s' -> Q' a s') -> safe r Q'.
Proof.
  unfold safe. destruct r as [[a s']| |]; auto.
Qed.

Lemma safe_Done {A} (r : outcome (A * State)) Q a s' :
  safe r Q -> r = Done (a, s') -> Q a s'.
Proof. intros H ->. exact H. Qed.

Lemma safe_not_Fault {A} (r : outcome (A * State)) Q : safe r Q -> r <> Fault.
Proof. intros H ->. exact H. Qed.


Lemma bind_eq {A B} (m : M A) (k : A -> M B) s a s1 :
  m s = Done (a, s1) -> bind m k s = k a s1.
Proof. unfold bind. intros ->. reflexivity. Qed.

(** *** Code that only waits and writes *)

Lemma aref_Some a i v s :
  0 <= i -> a !! Z.to_nat i = Some v -> aref a i s = Done (v, s).
Proof.
  intros Hi Hv. unfold aref.
  destruct (Z.leb_spec 0 i); [|lia]. rewrite Hv. reflexivity.
Qed.

Lemma channel_cases i : 0 <= i < 4 -> i = 0 \/ i = 1 \/ i = 2 \/ i = 3.
Proof. lia. Qed.

Lemma world_id s : world (clock s) (outputs s) s = s.
Proof. destruct s; reflexivity. Qed.

Lemma playColor_eq index s :
  0 <= index < 4 ->
  playColor index s =
    Done (tt, world (clock s + 500) (color_events (clock s) index ++ outputs s) s).
Proof.
  intros H.
  destruct (channel_cases index H) as [-> | [-> | [-> | ->]]]; reflexivity.
Qed.

Lemma play_from s0 (cs : list Z) :
  forall i c o,
    0 <= i ->
    (forall j v, cs !! j = Some v ->
       sequence s0 !! (Z.to_nat i + j)%nat = Some v /\ 0 <= v < 4) ->
    for_each (seqZ i (Z.of_nat (length cs)))
      (fun i => let* seq := get sequence in
                let* c := aref seq i in
                playColor c >> delay 300)
      (world c o s0) =
    Done (tt, world (c + 800 * Z.of_nat (length cs))
                (playback_events c cs ++ o) s0).
Proof.
  induction cs as [|v cs IH]; intros i c o Hi Hcs.
  - cbn [length]. change (Z.of_nat 0) with 0.
    rewrite Z.mul_0_r, Z.add_0_r. reflexivity.
  - rewrite seqZ_cons by (cbn [length]; lia).
    cbn [for_each].
    destruct (Hcs 0%nat v eq_refl) as [Hv Hr].
    rewrite Nat.add_0_r in Hv.
    rewrite (bind_eq _ _ _ tt (world (c + 500 + 300) (color_events c v ++ o) s0)).
    + replace (Z.pred (Z.of_nat (length (v :: cs)))) with (Z.of_nat (length cs))
        by (cbn [length]; lia).
      rewrite IH.
      * cbn [playback_events length]. rewrite <- app_assoc.
        do 3 f_equal. lia.
      * lia.
      * intros j w Hj. destruct (Hcs (S j) w Hj) as [H1 H2]. split; [|exact H2].
        replace (Z.to_nat (Z.succ i) + j)%nat with (Z.to_nat i + S j)%nat by lia.
        exact H1.
    + unfold get at 1. rewrite (bind_eq _ _ _ (sequence s0) (world c o s0)) by reflexivity.
      rewrite (bind_eq _ _ _ v (world c o s0)) by (apply aref_Some; assumption).
      rewrite (bind_eq _ _ _ tt (world (c + 500) (color_events c v ++ o) s0))
        by (rewrite playColor_eq by assumption; reflexivity).
      reflexivity.
Qed.

Lemma set_clock_id s : set_clock (clock s + 0) s = s.
Proof. rewrite Z.add_0_r. destruct s; reflexivity. Qed.

(** *** The busy-wait for a release *)

Lemma wait_release_spec e pin n :
  forall s,
    safe (wait_release e pin n s)
      (fun _ s' =>
         exists k : nat,
           (k < n)%nat /\
           s' = set_clock (clock s + 10 * Z.of_nat k) s /\
           pin_level e (clock s + 10 * Z.of_nat k) pin = HIGH /\
           forall j : nat, (j < k)%nat ->
             pin_level e (clock s + 10 * Z.of_nat j) pin = LOW).
Proof.
  induction n as [|n IH]; intros s; [exact I|].
  cbn [wait_release]. unfold bind at 1, digitalRead, get.
  destruct (pin_level e (clock s) pin) eqn:Hp.
  - change ((delay 10 >> wait_release e pin n) s)
      with (wait_release e pin n (set_clock (clock s + 10) s)).
    eapply safe_weaken; [apply IH|].
    cbn [clock set_clock]. intros _ s' (k & Hk & -> & Hh & Hl).
    exists (S k). split; [lia|]. split; [|split].
    + unfold set_clock. cbn. f_equal. lia.
    + replace (clock s + 10 * Z.of_nat (S k)) with (clock s + 10 + 10 * Z.of_nat k)
        by lia. exact Hh.
    + intros [|j] Hj.
      * replace (clock s + 10 * Z.of_nat 0) with (clock s) by lia. exact Hp.
      * replace (clock s + 10 * Z.of_nat (S j))
          with (clock s + 10 + 10 * Z.of_nat j) by lia.
        apply Hl. lia.
  - cbn. exists 0%nat. split; [lia|]. split; [|split].
    + change (Z.of_nat 0) with 0. rewrite Z.mul_0_r. symmetry. apply set_clock_id.
    + replace (clock s + 10 * Z.of_nat 0) with (clock s) by lia. exact Hp.
    + intros j Hj. lia.
Qed.

(** Enough patience sees the release: the wait returns at the first sample,
    ten milliseconds apart, at which the pin reads [HIGH]. *)
Lemma wait_release_done e pin n :
  forall s (k : nat),
    (k < n)%nat ->
    pin_level e (clock s + 10 * Z.of_nat k) pin = HIGH ->
    (forall j : nat, (j < k)%nat ->
       pin_level e (clock s + 10 * Z.of_nat j) pin = LOW) ->
    wait_release e pin n s = Done (tt, set_clock (clock s + 10 * Z.of_nat k) s).
Proof.
  induction n as [|n IH]; intros s k Hk Hh Hl; [lia|].
  cbn [wait_release]. unfold bind at 1, digitalRead, get.
  destruct k as [|k].
  - replace (clock s + 10 * Z.of_nat 0) with (clock s) in * by lia.
    rewrite Hh. destruct s; reflexivity.
  - pose proof (Hl 0%nat ltac:(lia)) as H0.
    replace (clock s + 10 * Z.of_nat 0) with (clock s) in H0 by lia.
    rewrite H0.
    change ((delay 10 >> wait_release e pin n) s)
      with (wait_release e pin n (set_clock (clock s + 10) s)).
    rewrite (IH _ k).
    + unfold set_clock. cbn. do 3 f_equal. lia.
    + lia.
    + cbn [clock set_clock].
      replace (clock s + 10 + 10 * Z.of_nat k) with (clock s + 10 * Z.of_nat (S k))
        by lia. exact Hh.
    + intros j Hj. cbn [clock set_clock].
      replace (clock s + 10 + 10 * Z.of_nat j) with (clock s + 10 * Z.of_nat (S j))
        by lia. apply Hl. lia.
Qed.

(** A button held at every sample keeps the wait spinning. *)
Lemma wait_release_hang e pin n :
  forall s,
    (forall j : nat, (j < n)%nat ->
       pin_level e (clock s + 10 * Z.of_nat j) pin = LOW) ->
    wait_release e pin n s = Hang.
Proof.
  induction n as [|n IH]; intros s Hl; [reflexivity|].
  cbn [wait_release]. unfold bind at 1, digitalRead, get.
  pose proof (Hl 0%nat ltac:(lia)) as H0.
  replace (clock s + 10 * Z.of_nat 0) with (clock s) in H0 by lia.
  rewrite H0.
  change ((delay 10 >> wait_release e pin n) s)
    with (wait_release e pin n (set_clock (clock s + 10) s)).
  apply IH. intros j Hj. cbn [clock set_clock].
  replace (clock s + 10 + 10 * Z.of_nat j) with (clock s + 10 * Z.of_nat (S j))
    by lia. apply Hl. lia.
Qed.

(** *** Drawing and appending a colour *)

Lemma mod4_range x : 0 <= x mod 4 < 4.
Proof. apply Z.mod_pos_bound. lia. Qed.

Lemma draw_color_spec e n :
  forall s,
    safe (draw_color e n s)
      (fun c s' =>
         exists k : nat,
           (k < n)%nat /\
           s' = set_draws (draws s + S k) s /\
           c = prng e (draws s + k) mod 4 /\
           (sequenceLength s = 0 ->
              c <> 2 /\
              forall j : nat, (j < k)%nat -> prng e (draws s + j) mod 4 = 2) /\
           (sequenceLength s <> 0 -> k = 0%nat)).
Proof.
  induction n as [|n IH]; intros s; [exact I|].
  cbn [draw_color]. unfold bind at 1.
  change (random e 0 4 s)
    with (Done (prng e (draws s) mod 4, set_draws (S (draws s)) s)).
  unfold bind at 1, get. cbn [sequenceLength set_draws].
  destruct (Z.eqb_spec (sequenceLength s) 0) as [Hlen | Hlen];
    [destruct (Z.eqb_spec (prng e (draws s) mod 4) 2) as [Hc | Hc]|]; cbn [andb].
  - eapply safe_weaken; [apply IH|].
    cbn [draws sequenceLength set_draws].
    intros c s' (k & Hk & -> & -> & H0 & H1).
    exists (S k). split; [lia|]. split; [|split; [|split]].
    + unfold set_draws. cbn. f_equal. lia.
    + f_equal. f_equal. lia.
    + intros _. destruct (H0 Hlen) as [Hne Hall]. split.
      * replace (draws s + S k)%nat with (S (draws s) + k)%nat by lia. exact Hne.
      * intros [|j] Hj.
        -- rewrite Nat.add_0_r. exact Hc.
        -- replace (draws s + S j)%nat with (S (draws s) + j)%nat by lia.
           apply Hall. lia.
    + intros Hn. contradiction.
  - cbn. exists 0%nat. rewrite Nat.add_0_r. split; [lia|].
    split; [|split; [|split]].
    + unfold set_draws. f_equal. lia.
    + reflexivity.
    + intros _. split; [exact Hc|]. intros j Hj. lia.
    + reflexivity.
  - cbn. exists 0%nat. rewrite Nat.add_0_r. split; [lia|].
    split; [|split; [|split]].
    + unfold set_draws. f_equal. lia.
    + reflexivity.
    + intros H0. contradiction.
    + reflexivity.
Qed.

(** The redraw loop ends at the first value other than 2 (or at once, when
    the sequence is not empty). *)
Lemma draw_color_done e n :
  forall s (k : nat),
    (k < n)%nat ->
    (sequenceLength s = 0 -> prng e (draws s + k) mod 4 <> 2) ->
    (sequenceLength s = 0 ->
       forall j : nat, (j < k)%nat -> prng e (draws s + j) mod 4 = 2) ->
    (sequenceLength s <> 0 -> k = 0%nat) ->
    draw_color e n s =
      Done (prng e (draws s + k) mod 4, set_draws (draws s + S k) s).
Proof.
  induction n as [|n IH]; intros s k Hk Hne Hall Hk0; [lia|].
  cbn [draw_color]. unfold bind at 1.
  change (random e 0 4 s)
    with (Done (prng e (draws s) mod 4, set_draws (S (draws s)) s)).
  unfold bind at 1, get. cbn [sequenceLength set_draws].
  destruct (Z.eqb_spec (sequenceLength s) 0) as [Hlen | Hlen]; cbn [andb].
  - destruct k as [|k].
    + rewrite Nat.add_0_r in *.
      destruct (Z.eqb_spec (prng e (draws s) mod 4) 2) as [Hc | Hc];
        [exfalso; exact (Hne Hlen Hc)|].
      unfold ret. replace (draws s + 1)%nat with (S (draws s)) by lia. reflexivity.
    + pose proof (Hall Hlen 0%nat ltac:(lia)) as H2. rewrite Nat.add_0_r in H2.
      rewrite H2. cbn [Z.eqb Pos.eqb].
      rewrite (IH _ k).
      * unfold set_draws. cbn.
        replace (S (draws s + k)) with (draws s + S k)%nat by lia.
        replace (S (draws s + S k)) with (draws s + S (S k))%nat by lia.
        reflexivity.
      * lia.
      * cbn [draws sequenceLength set_draws]. intros _.
        replace (S (draws s) + k)%nat with (draws s + S k)%nat by lia. auto.
      * cbn [draws sequenceLength set_draws]. intros _ j Hj.
        replace (S (draws s) + j)%nat with (draws s + S j)%nat by lia.
        apply Hall; [assumption | lia].
      * cbn [sequenceLength set_draws]. intros Hn. contradiction.
  - rewrite (Hk0 Hlen). rewrite Nat.add_0_r.
    unfold ret. replace (draws s + 1)%nat with (S (draws s)) by lia. reflexivity.
Qed.

Lemma addToSequence_spec e s :
  0 <= sequenceLength s ->
  sequenceLength s <= Z.of_nat (length (sequence s)) ->
  MAX_SEQUENCE <= Z.of_nat (length (sequence s)) ->
  safe (addToSequence e s)
    (fun _ s' =>
       (MAX_SEQUENCE <= sequenceLength s /\ s' = s) \/
       (sequenceLength s < MAX_SEQUENCE /\
        exists (c : Z) (k : nat),
          (k < patience e)%nat /\
          c = prng e (draws s + k) mod 4 /\
          (sequenceLength s = 0 ->
             c <> 2 /\
             forall j : nat, (j < k)%nat -> prng e (draws s + j) mod 4 = 2) /\
          (sequenceLength s <> 0 -> k = 0%nat) /\
          s' = appended c k s)).
Proof.
  intros H0 Hlen Hmax. unfold addToSequence.
  unfold bind at 1, get.
  destruct (Z.ltb_spec (sequenceLength s) MAX_SEQUENCE) as [Hlt | Hge].
  - apply safe_bind.
    eapply safe_weaken; [apply draw_color_spec|].
    intros c s1 (k & Hk & -> & Hc & Hz & Hnz).
    unfold bind, store_sequence. cbn [sequence set_draws].
    destruct (Z.leb_spec 0 (sequenceLength s)); [|lia].
    destruct (Z.ltb_spec (sequenceLength s) (Z.of_nat (length (sequence s))));
      [|lia].
    cbn. right. split; [assumption|].
    exists c, k. repeat split; try assumption; try (apply Hz; assumption).
  - cbn. left. split; [assumption | reflexivity].
Qed.

(** *** The animations *)

Lemma gameOver_eq s :
  exists c o,
    gameOver s = Done (tt, world c o s) /\ c = clock s + 2500.
Proof.
  destruct s. eexists _, _. split.
  - cbv -[Z.add]. reflexivity.
  - cbn [clock]. lia.
Qed.

Lemma welcomeSequence_eq s :
  exists c o,
    welcomeSequence s = Done (tt, world c o s) /\ c = clock s + 3200.
Proof.
  destruct s. eexists _, _. split.
  - cbv -[Z.add]. reflexivity.
  - cbn [clock]. lia.
Qed.

(** ** Well-formed states *)

Lemma wf_iff s :
  wf s <->
  length (sequence s) = 100%nat /\
  0 <= sequenceLength s <= MAX_SEQUENCE /\
  (forall (i : nat) v,
     (i < Z.to_nat (sequenceLength s))%nat ->
     sequence s !! i = Some v -> 0 <= v < 4) /\
  0 <= userInputIndex s <= MAX_SEQUENCE /\
  (gameState s = USER_INPUT -> userInputIndex s < sequenceLength s) /\
  0 <= clock s /\
  (0 < sequenceLength s -> sequence s !! 0%nat <> Some 2).
Proof.
  unfold wf, wfb. rewrite !andb_true_iff, Nat.eqb_eq, !Z.leb_le.
  rewrite orb_true_iff, negb_true_iff, bool_decide_eq_false, Z.leb_le.
  rewrite forallb_forall.
  assert (Hst : match gameState s with
                | USER_INPUT => userInputIndex s <? sequenceLength s
                | _ => true
                end = true <->
                (gameState s = USER_INPUT -> userInputIndex s < sequenceLength s)).
  { destruct (gameState s); try (split; [discriminate | reflexivity]).
    rewrite Z.ltb_lt. split; auto. }
  rewrite Hst.
  assert (Hch : (forall x, In x (take (Z.to_nat (sequenceLength s)) (sequence s)) ->
                   channelb x = true) <->
                (forall (i : nat) v,
                   (i < Z.to_nat (sequenceLength s))%nat ->
                   sequence s !! i = Some v -> 0 <= v < 4)).
  { split.
    - intros H i v Hi Hv.
      assert (Hin : In v (take (Z.to_nat (sequenceLength s)) (sequence s))).
      { apply list_elem_of_In, list_elem_of_lookup. exists i.
        rewrite lookup_take_lt by assumption. exact Hv. }
      apply H in Hin. unfold channelb in Hin.
      apply andb_true_iff in Hin. rewrite Z.leb_le, Z.ltb_lt in Hin. exact Hin.
    - intros H x Hin.
      apply list_elem_of_In, list_elem_of_lookup in Hin. destruct Hin as [i Hi].
      apply lookup_take_Some in Hi. destruct Hi as [Hi Hlt].
      specialize (H i x Hlt Hi). unfold channelb.
      apply andb_true_iff. rewrite Z.leb_le, Z.ltb_lt. exact H. }
  assert (Hfirst : sequenceLength s <= 0 \/ sequence s !! 0%nat <> Some 2 <->
                   (0 < sequenceLength s -> sequence s !! 0%nat <> Some 2)).
  { split.
    - intros [H | H] Hpos; [lia | exact H].
    - intros H. destruct (Z.le_gt_cases (sequenceLength s) 0) as [Hle | Hgt];
        [left; exact Hle | right; apply H; lia]. }
  rewrite Hch, Hfirst. tauto.
Qed.

Lemma wf_init : wf init.
Proof. reflexivity. Qed.

Lemma playSequence_eq s :
  wf s ->
  playSequence s =
    Done (tt, world (clock s + 800 * sequenceLength s)
                (playback_events (clock s)
                   (take (Z.to_nat (sequenceLength s)) (sequence s))
                 ++ outputs s) s).
Proof.
  intros Hwf. apply wf_iff in Hwf.
  destruct Hwf as (Hlen & Hsl & Hch & _).
  unfold playSequence, bind at 1, get.
  pose (cs := take (Z.to_nat (sequenceLength s)) (sequence s)).
  assert (Hcs : Z.of_nat (length cs) = sequenceLength s).
  { unfold cs. rewrite length_take. unfold MAX_SEQUENCE in Hsl. lia. }
  rewrite <- Hcs at 1. rewrite <- (world_id s) at 1.
  rewrite (play_from s cs 0).
  - fold cs. rewrite Hcs. reflexivity.
  - lia.
  - intros j v Hj. unfold cs in Hj.
    apply lookup_take_Some in Hj. destruct Hj as [Hj Hlt].
    split; [exact Hj | exact (Hch j v Hlt Hj)].
Qed.

(** ** Reading the buttons *)

Lemma scan_buttons_spec e todo :
  forall s,
    Forall (fun i => 0 <= i < 4) todo ->
    safe (scan_buttons e todo s)
      (fun i s' =>
         (i = -1 /\ s' = s /\ Forall (fun j => button e (clock s) j = HIGH) todo) \/
         (In i todo /\ exists k, held e i k s /\ s' = pressed k s)).
Proof.
  induction todo as [|i rest IH]; intros s Hall.
  - cbn. left. auto.
  - inversion Hall as [|? ? Hi Hrest]; subst.
    cbn [scan_buttons].
    assert (Hpin : aref BUTTON_PINS i s = Done (nth (Z.to_nat i) BUTTON_PINS 0, s)).
    { destruct (channel_cases i Hi) as [-> | [-> | [-> | ->]]]; reflexivity. }
    rewrite (bind_eq _ _ _ _ _ Hpin).
    unfold bind at 1, digitalRead, get. fold (button e (clock s) i).
    destruct (button e (clock s) i) eqn:Hb.
    + unfold bind at 1, millis, get. unfold bind at 1, put.
      apply safe_bind.
      eapply safe_weaken; [apply wait_release_spec|].
      cbn [clock set_lastButtonPress].
      intros _ s' (k & Hk & -> & Hh & Hl). cbn.
      right. split; [left; reflexivity|].
      exists k. split; [|reflexivity].
      repeat split; assumption.
    + eapply safe_weaken; [apply IH; assumption|].
      intros j s' [(-> & -> & Hhigh) | (Hin & k & Hheld & ->)].
      * left. repeat split. constructor; assumption.
      * right. split; [right; assumption|]. exists k. auto.
Qed.

Lemma readButton_spec e s :
  safe (readButton e s)
    (fun i s' =>
       (i = -1 /\ s' = s) \/
       (0 <= i < 4 /\
        debounceDelay <= wsub (clock s mod WORD) (lastButtonPress s) /\
        exists k, held e i k s /\ s' = pressed k s)).
Proof.
  unfold readButton, bind at 1, millis, get. unfold bind at 1.
  destruct (Z.ltb_spec (wsub (clock s mod WORD) (lastButtonPress s)) debounceDelay)
    as [Hlt | Hge].
  - cbn. left. auto.
  - eapply safe_weaken.
    + apply scan_buttons_spec. repeat constructor; lia.
    + intros i s' [(-> & -> & _) | (Hin & k & Hheld & ->)].
      * left. auto.
      * right. split; [|split; [assumption|]].
        -- cbn in Hin. lia.
        -- exists k. auto.
Qed.

(** Inside the debounce window the buttons are not even looked at. *)
Lemma readButton_debounced e s :
  wsub (clock s mod WORD) (lastButtonPress s) < debounceDelay ->
  readButton e s = Done (-1, s).
Proof.
  intros H. unfold readButton, bind at 1, millis, get. unfold bind at 1.
  destruct (Z.ltb_spec (wsub (clock s mod WORD) (lastButtonPress s)) debounceDelay);
    [reflexivity | lia].
Qed.

(** ** Waiting for the start button *)

Lemma waitForStartButton_spec e s :
  safe (waitForStartButton e s)
    (fun b s' =>
       (b = false /\ button e (clock s) 2 = HIGH /\ s' = blink s) \/
       (b = true /\
        exists k, held e 2 k s /\
                  s' = set_clock (clock s + 10 * Z.of_nat k) (blink s))).
Proof.
  unfold waitForStartButton, bind at 1, millis, get. unfold bind at 1.
  assert (Hblink :
    (if interval <=? wsub (clock s mod WORD) (previousMillis s)
     then
       put (set_previousMillis (clock s mod WORD)) >>
       (let* st := λ s0 : State, Done (ledState s0, s0) in
        put (set_ledState (negb st)) >>
        (let* led := aref LED_PINS 2 in
         digitalWrite led (if negb st then HIGH else LOW)))
     else ret ()) s = Done (tt, blink s)).
  { unfold blink, toggles.
    destruct (interval <=? wsub (clock s mod WORD) (previousMillis s));
      reflexivity. }
  rewrite (bind_eq _ _ _ _ _ Hblink).
  assert (Hclock : clock (blink s) = clock s).
  { unfold blink. destruct (toggles s); reflexivity. }
  rewrite (bind_eq _ _ _ 8 (blink s)) by reflexivity.
  unfold bind at 1, digitalRead, get. rewrite Hclock.
  change (pin_level e (clock s) 8) with (button e (clock s) 2).
  destruct (button e (clock s) 2) eqn:Hb.
  - apply safe_bind.
    eapply safe_weaken; [apply wait_release_spec|].
    rewrite Hclock.
    intros _ s' (k & Hk & -> & Hh & Hl). cbn.
    right. split; [reflexivity|]. exists k. split; [|reflexivity].
    repeat split; assumption.
  - cbn. left. auto.
Qed.

(** ** One iteration of [loop], state by state *)

Lemma loop_WELCOME e s :
  gameState s = WELCOME ->
  exists o,
    loop e s = Done (tt, set_gameState WAIT_FOR_START (world (clock s + 3200) o s)).
Proof.
  intros Hst. destruct (welcomeSequence_eq s) as (c & o & Hw & ->).
  exists o. unfold loop, bind at 1, get. rewrite Hst.
  rewrite (bind_eq _ _ _ _ _ Hw). reflexivity.
Qed.

Lemma loop_GAME_OVER_eq e s :
  gameState s = GAME_OVER ->
  loop e s = (gameOver >> put (set_gameState WAIT_FOR_START)) s.
Proof. intros Hst. unfold loop, bind at 1, get. rewrite Hst. reflexivity. Qed.

Lemma loop_GAME_OVER e s :
  gameState s = GAME_OVER ->
  exists o,
    loop e s = Done (tt, set_gameState WAIT_FOR_START (world (clock s + 2500) o s)).
Proof.
  intros Hst. destruct (gameOver_eq s) as (c & o & Hw & ->).
  exists o. unfold loop, bind at 1, get. rewrite Hst.
  rewrite (bind_eq _ _ _ _ _ Hw). reflexivity.
Qed.

Lemma loop_WAIT_FOR_START e s :
  gameState s = WAIT_FOR_START ->
  safe (loop e s)
    (fun _ s' =>
       (button e (clock s) 2 = HIGH /\ s' = blink s) \/
       (exists k, held e 2 k s /\ s' = started k s)).
Proof.
  intros Hst. unfold loop, bind at 1, get. rewrite Hst.
  apply safe_bind.
  eapply safe_weaken; [apply waitForStartButton_spec|].
  intros b s' [(-> & Hb & ->) | (-> & k & Hheld & ->)].
  - cbn. left. auto.
  - cbn. right. exists k. split; [assumption|].
    unfold started, blink. destruct (toggles s); reflexivity.
Qed.

Lemma wf_appended c k s :
  wf s -> sequenceLength s < MAX_SEQUENCE -> 0 <= c < 4 ->
  (sequenceLength s = 0 -> c <> 2) ->
  wf (appended c k s).
Proof.
  intros Hwf Hlt Hc Hfirst. apply wf_iff in Hwf.
  destruct Hwf as (Hlen & Hsl & Hch & Hidx & Hui & Hclk & Hne).
  apply wf_iff. unfold appended. cbn.
  unfold MAX_SEQUENCE in *.
  assert (Hin : forall (i : nat) v,
            (i < Z.to_nat (sequenceLength s + 1))%nat ->
            <[Z.to_nat (sequenceLength s) := c]> (sequence s) !! i = Some v ->
            0 <= v < 4).
  { intros i v Hi Hv.
    destruct (decide (i = Z.to_nat (sequenceLength s))) as [-> | Hn].
    - rewrite list_lookup_insert_eq in Hv by lia. inversion Hv; subst. lia.
    - rewrite list_lookup_insert_ne in Hv by auto.
      apply (Hch i v); [lia | exact Hv]. }
  split; [rewrite length_insert; exact Hlen|].
  split; [lia|]. split; [exact Hin|]. split; [lia|].
  split; [intros Hst; specialize (Hui Hst); lia|]. split; [lia|].
  intros _.
  destruct (decide (sequenceLength s = 0)) as [H0 | H0].
  - rewrite H0. change (Z.to_nat 0) with 0%nat.
    rewrite list_lookup_insert_eq by lia. intros H. inversion H.
    apply (Hfirst H0). assumption.
  - rewrite list_lookup_insert_ne by lia. apply Hne. lia.
Qed.

Lemma loop_PLAY_SEQUENCE e s :
  wf s ->
  gameState s = PLAY_SEQUENCE ->
  safe (loop e s)
    (fun _ s' =>
       exists sa,
         addToSequence e s = Done (tt, sa) /\ wf sa /\
         0 < sequenceLength sa /\ s' = played sa).
Proof.
  intros Hwf Hst. unfold loop, bind at 1, get. rewrite Hst.
  pose proof Hwf as Hwf'. apply wf_iff in Hwf'.
  destruct Hwf' as (Hlen & Hsl & _). unfold MAX_SEQUENCE in Hsl.
  pose proof (addToSequence_spec e s) as Hadd.
  unfold bind at 1.
  destruct (addToSequence e s) as [[[] sa]| |] eqn:Ha; cbn in Hadd |- *; auto.
  - assert (Hsa : wf sa).
    { destruct Hadd as [[_ ->] | (Hlt & c & k & _ & -> & Hz & _ & ->)];
        try (unfold MAX_SEQUENCE; lia); [assumption|].
      apply wf_appended; [assumption | assumption | apply mod4_range |].
      intros H0. apply (Hz H0). }
    assert (Hpos : 0 < sequenceLength sa).
    { destruct Hadd as [[Hcap ->] | (Hlt & c & k & _ & -> & _ & _ & ->)];
        try (unfold MAX_SEQUENCE in *; lia).
      unfold appended. cbn. lia. }
    rewrite (bind_eq _ _ _ _ _ (playSequence_eq sa Hsa)).
    cbn. exists sa. auto.
  - apply Hadd; unfold MAX_SEQUENCE; lia.
Qed.

Lemma loop_USER_INPUT e s :
  wf s ->
  gameState s = USER_INPUT ->
  safe (loop e s)
    (fun _ s' =>
       (accepted e s = None /\ s' = s) \/
       (exists i k expected,
          accepted e s = Some i /\
          0 <= i < 4 /\
          debounceDelay <= wsub (clock s mod WORD) (lastButtonPress s) /\
          held e i k s /\
          sequence s !! Z.to_nat (userInputIndex s) = Some expected /\
          ((i <> expected /\ s' = mismatch i k s) \/
           (i = expected /\ userInputIndex s + 1 < sequenceLength s /\
            s' = advanced i k s) \/
           (i = expected /\ sequenceLength s <= userInputIndex s + 1 /\
            s' = completed i k s)))).
Proof.
  intros Hwf Hst. apply wf_iff in Hwf.
  destruct Hwf as (Hlen & Hsl & Hch & Hidx & Hui & Hclk).
  specialize (Hui Hst). unfold MAX_SEQUENCE in *.
  unfold loop, bind at 1, get. rewrite Hst.
  pose proof (readButton_spec e s) as Hrb.
  unfold bind at 1. unfold accepted. rewrite Hst.
  destruct (readButton e s) as [[i sr]| |]; cbn in Hrb; [|exact I|contradiction].
  destruct Hrb as [(-> & ->) | (Hi & Hdeb & k & Hheld & ->)].
  - cbn. left. auto.
  - destruct (Z.eqb_spec i (-1)) as [Hneg | _]; [lia|]. cbn [negb].
    rewrite (bind_eq _ _ _ _ _ (playColor_eq i (pressed k s) Hi)).
    fold (echoed i (pressed k s)).
    unfold bind at 1, get. unfold bind at 1.
    cbn [sequence userInputIndex echoed world set_outputs set_clock pressed
           set_lastButtonPress].
    destruct (lookup_lt_is_Some_2 (sequence s) (Z.to_nat (userInputIndex s)))
      as [expected Hexp]; [lia|].
    rewrite (bind_eq _ _ _ expected _) by (apply aref_Some; [lia | exact Hexp]).
    assert (Hpost : forall s' : State,
              (i <> expected /\ s' = mismatch i k s) \/
              (i = expected /\ userInputIndex s + 1 < sequenceLength s /\
               s' = advanced i k s) \/
              (i = expected /\ sequenceLength s <= userInputIndex s + 1 /\
               s' = completed i k s) ->
              Some i = None /\ s' = s \/
              (exists i0 k0 expected0,
                 Some i = Some i0 /\ 0 <= i0 < 4 /\
                 debounceDelay <= wsub (clock s mod WORD) (lastButtonPress s) /\
                 held e i0 k0 s /\
                 sequence s !! Z.to_nat (userInputIndex s) = Some expected0 /\
                 ((i0 <> expected0 /\ s' = mismatch i0 k0 s) \/
                  (i0 = expected0 /\ userInputIndex s + 1 < sequenceLength s /\
                   s' = advanced i0 k0 s) \/
                  (i0 = expected0 /\ sequenceLength s <= userInputIndex s + 1 /\
                   s' = completed i0 k0 s)))).
    { intros s' H. right. exists i, k, expected. auto 10. }
    destruct (Z.eqb_spec i expected) as [Heq | Hne]; cbn [negb].
    + unfold bind at 1, put. unfold bind at 1, get. unfold bind at 1.
      cbn [sequenceLength userInputIndex set_userInputIndex echoed world
             set_outputs set_clock pressed set_lastButtonPress].
      destruct (Z.leb_spec (sequenceLength s) (userInputIndex s + 1)) as [Hle | Hgt].
      * cbn. apply Hpost. right. right.
        split; [assumption|]. split; [assumption|].
        unfold completed, advanced, echoed, world, pressed. cbn.
        reflexivity.
      * cbn. apply Hpost. right. left.
        split; [assumption|]. split; [assumption|]. reflexivity.
    + cbn. apply Hpost. left. split; [assumption|]. reflexivity.
Qed.

(** ** Invariants of executions *)

Lemma wf_frame s s' :
  wf s ->
  sequence s' = sequence s ->
  sequenceLength s' = sequenceLength s ->
  0 <= userInputIndex s' <= MAX_SEQUENCE ->
  (gameState s' = USER_INPUT -> userInputIndex s' < sequenceLength s') ->
  0 <= clock s' ->
  wf s'.
Proof.
  intros Hwf Hseq Hlen Hidx Hui Hclk. apply wf_iff in Hwf. apply wf_iff.
  rewrite Hseq, Hlen in *. tauto.
Qed.

Lemma wf_advance g s : wf s -> 0 <= g -> wf (advance g s).
Proof.
  intros Hwf Hg. pose proof Hwf as H. apply wf_iff in H.
  apply (wf_frame s); try reflexivity; try tauto.
  cbn. lia.
Qed.

Lemma wf_blink s : wf s -> wf (blink s).
Proof.
  intros Hwf. unfold blink. destruct (toggles s); [|assumption].
  pose proof Hwf as H. apply wf_iff in H.
  apply (wf_frame s); try reflexivity; tauto.
Qed.

Lemma clock_blink s : clock (blink s) = clock s.
Proof. unfold blink. destruct (toggles s); reflexivity. Qed.

Lemma loop_wf e s :
  wf s -> safe (loop e s) (fun _ s' => wf s' /\ clock s <= clock s').
Proof.
  intros Hwf. pose proof Hwf as H. apply wf_iff in H.
  destruct H as (Hlen & Hsl & Hch & Hidx & Hui & Hclk).
  unfold MAX_SEQUENCE in *.
  destruct (gameState s) eqn:Hst.
  - destruct (loop_WELCOME e s Hst) as [o ->]. cbn. split; [|lia].
    apply (wf_frame s); try reflexivity; try assumption.
    + cbn. discriminate.
    + cbn. lia.
  - eapply safe_weaken; [apply loop_WAIT_FOR_START; assumption|].
    intros _ s' [(_ & ->) | (k & _ & ->)].
    + split; [apply wf_blink; assumption | rewrite clock_blink; lia].
    + split.
      * apply wf_iff. unfold started. cbn.
        pose proof (wf_blink s Hwf) as Hb. apply wf_iff in Hb.
        unfold MAX_SEQUENCE in *.
        split; [tauto|]. split; [lia|]. split; [intros i v Hi; lia|].
        split; [tauto|]. split; [discriminate | lia].
      * unfold started. cbn. rewrite ?clock_blink. lia.
  - eapply safe_weaken; [apply loop_PLAY_SEQUENCE; assumption|].
    intros _ s' (sa & Ha & Hsa & Hpos & ->).
    pose proof (safe_Done _ _ _ _
                  (addToSequence_spec e s ltac:(lia) ltac:(lia)
                     ltac:(unfold MAX_SEQUENCE; lia)) Ha) as Hadd.
    assert (Hc : clock sa = clock s).
    { destruct Hadd as [[_ ->] | (_ & c & k & _ & _ & _ & _ & ->)]; reflexivity. }
    pose proof Hsa as H. apply wf_iff in H. unfold MAX_SEQUENCE in H.
    split.
    + apply (wf_frame sa); try reflexivity; try assumption; cbn;
        unfold MAX_SEQUENCE; try lia.
    + unfold played. cbn. lia.
  - eapply safe_weaken; [apply loop_USER_INPUT; assumption|].
    intros _ s' [(_ & ->) | (i & k & x & _ & _ & _ & _ & _ & Hcase)];
      [split; [assumption | lia]|].
    specialize (Hui eq_refl).
    destruct Hcase as [(_ & ->) | [(_ & Hlt & ->) | (_ & Hle & ->)]];
      (split; [apply (wf_frame s); try reflexivity; try assumption; cbn;
               unfold MAX_SEQUENCE; try lia; try discriminate
              | cbn; lia]).
  - destruct (loop_GAME_OVER e s Hst) as [o ->]. cbn. split; [|lia].
    apply (wf_frame s); try reflexivity; try assumption.
    + cbn. discriminate.
    + cbn. lia.
Qed.

Lemma run_cons e g gaps s ts :
  run e (g :: gaps) s = Done ts ->
  exists s1 ts',
    loop e (advance g s) = Done (tt, s1) /\
    run e gaps s1 = Done ts' /\
    ts = mkTick (advance g s) (accepted e (advance g s)) s1 :: ts'.
Proof.
  cbn [run]. destruct (loop e (advance g s)) as [[[] s1]| |]; try discriminate.
  destruct (run e gaps s1) as [ts'| |] eqn:Hr; try discriminate.
  intros H. inversion H; subst. exists s1, ts'. auto.
Qed.

Lemma last_cons_default {A} (l : list A) :
  forall a d, List.last (a :: l) d = List.last l a.
Proof.
  induction l as [|b l IH]; intros a d; [reflexivity|].
  change (List.last (a :: b :: l) d) with (List.last (b :: l) d).
  rewrite (IH b d), (IH b a). reflexivity.
Qed.

Lemma final_cons s t ts : final s (t :: ts) = final (t_post t) ts.
Proof. unfold final. cbn [map]. apply last_cons_default. Qed.

Lemma run_wf e gaps :
  forall s ts,
    wf s -> nonneg gaps -> run e gaps s = Done ts ->
    Forall (fun t => wf (t_pre t) /\ wf (t_post t) /\
                     clock (t_pre t) <= clock (t_post t)) ts /\
    wf (final s ts).
Proof.
  induction gaps as [|g gaps IH]; intros s ts Hwf Hg Hrun.
  - inversion Hrun; subst. split; [constructor | exact Hwf].
  - inversion Hg as [|? ? Hg0 Hgs]; subst.
    destruct (run_cons _ _ _ _ _ Hrun) as (s1 & ts' & Hl & Hr & ->).
    pose proof (wf_advance g s Hwf Hg0) as Hpre.
    destruct (safe_Done _ _ _ _ (loop_wf e _ Hpre) Hl) as [Hpost Hclk].
    destruct (IH s1 ts' Hpost Hgs Hr) as [Hall Hfin].
    rewrite final_cons. split; [|exact Hfin].
    constructor; [|exact Hall]. cbn. auto.
Qed.

(** No array is ever accessed outside its bounds. *)
Lemma run_no_fault e gaps :
  forall s, wf s -> nonneg gaps -> run e gaps s <> Fault.
Proof.
  induction gaps as [|g gaps IH]; intros s Hwf Hg; [discriminate|].
  inversion Hg as [|? ? Hg0 Hgs]; subst.
  pose proof (wf_advance g s Hwf Hg0) as Hpre.
  pose proof (loop_wf e _ Hpre) as Hl.
  cbn [run]. destruct (loop e (advance g s)) as [[[] s1]| |]; cbn in Hl;
    [|discriminate|contradiction].
  destruct Hl as [Hpost _]. specialize (IH s1 Hpost Hgs).
  destruct (run e gaps s1); [discriminate | discriminate | contradiction].
Qed.

Lemma reachable_wf e s : reachable e s -> wf s.
Proof.
  intros (gaps & ts & Hg & Hrun & <-).
  exact (proj2 (run_wf e gaps init ts wf_init Hg Hrun)).
Qed.

Lemma run_ticks_eq e gaps s :
  is_done (run e gaps s) = true -> run e gaps s = Done (run_ticks e gaps s).
Proof. unfold run_ticks. destruct (run e gaps s); [reflexivity | | ]; discriminate. Qed.

Lemma nonneg_check gaps :
  forallb (fun g => 0 <=? g) gaps = true -> nonneg gaps.
Proof.
  intros Hg. apply Forall_forall. intros g Hin. rewrite forallb_forall in Hg.
  apply Z.leb_le, Hg. apply list_elem_of_In. exact Hin.
Qed.

Lemma reachable_run e gaps :
  forallb (fun g => 0 <=? g) gaps = true ->
  is_done (run e gaps init) = true ->
  reachable e (run_final e gaps init).
Proof.
  intros Hg Hd. exists gaps, (run_ticks e gaps init).
  split; [|split].
  - apply nonneg_check. exact Hg.
  - apply run_ticks_eq. exact Hd.
  - unfold run_final, run_ticks. destruct (run e gaps init); try discriminate.
    reflexivity.
Qed.

(** ** The input phase of a round *)

Lemma ends_with_input_cons t ts :
  ends_with_input (t :: ts) = true ->
  (ts = [] /\ exists i, t_in t = Some i) \/ (ts <> [] /\ ends_with_input ts = true).
Proof.
  destruct ts as [|t' ts]; cbn [ends_with_input].
  - destruct (t_in t) as [i|]; [|discriminate]. left. eauto.
  - intros H. right. split; [discriminate | exact H].
Qed.

Lemma ends_with_input_inputs ts : ends_with_input ts = true -> inputs ts <> [].
Proof.
  induction ts as [|t ts IH]; [discriminate|].
  intros H. destruct (ends_with_input_cons _ _ H) as [(-> & i & Hi) | (_ & Hts)].
  - unfold inputs. cbn. rewrite Hi. discriminate.
  - specialize (IH Hts). unfold inputs in *. cbn.
    destruct (t_in t); [discriminate | exact IH].
Qed.

Lemma inputs_cons t ts :
  inputs (t :: ts) =
  match t_in t with Some i => i :: inputs ts | None => inputs ts end.
Proof. unfold inputs. cbn. destruct (t_in t); reflexivity. Qed.

Lemma remaining_cons s expected :
  wf s -> gameState s = USER_INPUT ->
  sequence s !! Z.to_nat (userInputIndex s) = Some expected ->
  remaining s =
  expected :: drop (S (Z.to_nat (userInputIndex s)))
                (take (Z.to_nat (sequenceLength s)) (sequence s)).
Proof.
  intros Hwf Hst Hexp. apply wf_iff in Hwf.
  destruct Hwf as (_ & _ & _ & Hidx & Hui & _). specialize (Hui Hst).
  unfold remaining. apply drop_S.
  rewrite lookup_take_lt by lia. exact Hexp.
Qed.

Lemma matching_phase e gaps :
  forall s ts,
    wf s -> nonneg gaps -> gameState s = USER_INPUT ->
    run e gaps s = Done ts ->
    inputs ts = remaining s ->
    ends_with_input ts = true ->
    Forall (fun t => gameState (t_post t) <> GAME_OVER) ts /\
    gameState (final s ts) = PLAY_SEQUENCE /\
    sequence (final s ts) = sequence s /\
    sequenceLength (final s ts) = sequenceLength s.
Proof.
  induction gaps as [|g gaps IH]; intros s ts Hwf Hg Hst Hrun Hin Hend.
  - inversion Hrun; subst. discriminate.
  - inversion Hg as [|? ? Hg0 Hgs]; subst.
    destruct (run_cons _ _ _ _ _ Hrun) as (s1 & ts' & Hl & Hr & ->).
    set (s0 := advance g s) in *.
    assert (Hwf0 : wf s0) by (apply wf_advance; assumption).
    assert (Hst0 : gameState s0 = USER_INPUT) by exact Hst.
    assert (Hrem0 : remaining s0 = remaining s) by reflexivity.
    rewrite final_cons. cbn [t_post].
    rewrite inputs_cons in Hin. cbn [t_in] in Hin.
    change (sequence s) with (sequence s0).
    change (sequenceLength s) with (sequenceLength s0).
    rewrite <- Hrem0 in Hin. clear Hrem0 Hwf Hst Hrun. clearbody s0.
    pose proof (safe_Done _ _ _ _ (loop_USER_INPUT e s0 Hwf0 Hst0) Hl) as Hcase.
    destruct Hcase as [(Hacc & ->) | (i & k & x & Hacc & Hi & _ & _ & Hexp & Hcase)].
    + rewrite Hacc in Hin.
      destruct (ends_with_input_cons _ _ Hend) as [(_ & j & Hj) | (_ & Hend')].
      { cbn in Hj. rewrite Hacc in Hj. discriminate. }
      destruct (IH s0 ts' Hwf0 Hgs Hst0 Hr) as (Hall & Hfin & Hseq & Hlen);
        [exact Hin | exact Hend' |].
      split; [|auto].
      constructor; [cbn [t_post]; rewrite Hst0; discriminate | exact Hall].
    + rewrite Hacc in Hin.
      rewrite (remaining_cons s0 x Hwf0 Hst0 Hexp) in Hin.
      inversion Hin as [[Hix Hrest]]. subst x.
      pose proof (proj2 (safe_Done _ _ _ _ (loop_wf e s0 Hwf0) Hl)) as _.
      pose proof (proj1 (safe_Done _ _ _ _ (loop_wf e s0 Hwf0) Hl)) as Hwf1.
      destruct Hcase as [(Hne & _) | [(_ & Hlt & ->) | (_ & Hle & ->)]];
        [contradiction | |].
      * assert (Hts' : ends_with_input ts' = true).
        { destruct (ends_with_input_cons _ _ Hend) as [(-> & _) | (_ & H)];
            [|exact H].
          exfalso. change (inputs []) with (@nil Z) in Hrest. symmetry in Hrest.
          apply (f_equal (@length Z)) in Hrest. cbn [length] in Hrest.
          rewrite length_drop, length_take in Hrest.
          apply wf_iff in Hwf0. destruct Hwf0 as (Hl0 & Hsl & _ & Hidx & _).
          unfold MAX_SEQUENCE in *. lia. }
        destruct (IH (advanced i k s0) ts' Hwf1 Hgs Hst0 Hr) as
          (Hall & Hfin & Hseq & Hlen); [|exact Hts'|].
        { rewrite Hrest. unfold remaining. cbn.
          apply wf_iff in Hwf0. destruct Hwf0 as (_ & _ & _ & Hidx & _).
          replace (Z.to_nat (userInputIndex s0 + 1))
            with (S (Z.to_nat (userInputIndex s0))) by lia.
          reflexivity. }
        split; [|auto].
        constructor; [|exact Hall].
        cbn [t_post]. change (gameState (advanced i k s0)) with (gameState s0).
        rewrite Hst0. discriminate.
      * assert (Hnil : drop (S (Z.to_nat (userInputIndex s0)))
                         (take (Z.to_nat (sequenceLength s0)) (sequence s0)) = []).
        { apply drop_ge. rewrite length_take. lia. }
        rewrite Hnil in Hrest.
        destruct (ends_with_input_cons _ _ Hend) as [(-> & _) | (_ & H)].
        -- split; [|auto]. constructor; [|constructor].
           cbn [t_post]. unfold completed. cbn. discriminate.
        -- apply ends_with_input_inputs in H. exfalso. apply H. exact Hrest.
Qed.

Lemma final_snoc s ts t : final s (ts ++ [t]) = t_post t.
Proof.
  unfold final. rewrite map_app. cbn [map]. apply last_last.
Qed.

Lemma mismatch_phase e gaps :
  forall s ts (k : nat) x,
    wf s -> nonneg gaps -> gameState s = USER_INPUT ->
    run e gaps s = Done ts ->
    (Z.to_nat (userInputIndex s) <= k < Z.to_nat (sequenceLength s))%nat ->
    sequence s !! k <> Some x ->
    inputs ts = drop (Z.to_nat (userInputIndex s)) (take k (sequence s)) ++ [x] ->
    ends_with_input ts = true ->
    exists ts0 t j,
      ts = ts0 ++ [t] /\
      Forall (fun t => gameState (t_post t) = USER_INPUT) ts0 /\
      gameState (t_pre t) = USER_INPUT /\
      userInputIndex (t_pre t) = Z.of_nat k /\
      t_in t = Some x /\
      held e x j (t_pre t) /\
      t_post t = mismatch x j (t_pre t).
Proof.
  induction gaps as [|g gaps IH]; intros s ts n x Hwf Hg Hst Hrun Hn Hx Hin Hend.
  - inversion Hrun; subst. discriminate.
  - inversion Hg as [|? ? Hg0 Hgs]; subst.
    destruct (run_cons _ _ _ _ _ Hrun) as (s1 & ts' & Hl & Hr & ->).
    set (s0 := advance g s) in *.
    assert (Hwf0 : wf s0) by (apply wf_advance; assumption).
    assert (Hst0 : gameState s0 = USER_INPUT) by exact Hst.
    rewrite inputs_cons in Hin. cbn [t_in] in Hin.
    change (sequence s) with (sequence s0) in Hx, Hin.
    change (sequenceLength s) with (sequenceLength s0) in Hn.
    change (userInputIndex s) with (userInputIndex s0) in Hn, Hin.
    clear Hwf Hst Hrun. clearbody s0.
    pose proof (safe_Done _ _ _ _ (loop_USER_INPUT e s0 Hwf0 Hst0) Hl) as Hcase.
    pose proof (proj1 (safe_Done _ _ _ _ (loop_wf e s0 Hwf0) Hl)) as Hwf1.
    pose proof Hwf0 as Hp. apply wf_iff in Hp.
    destruct Hp as (Hlen0 & Hsl & _ & Hidx & _). unfold MAX_SEQUENCE in *.
    destruct Hcase as [(Hacc & ->) | (i & k & y & Hacc & Hi & _ & Hheld & Hexp & Hcase)].
    + rewrite Hacc in Hin.
      destruct (ends_with_input_cons _ _ Hend) as [(_ & j & Hj) | (_ & Hend')].
      { cbn in Hj. rewrite Hacc in Hj. discriminate. }
      destruct (IH s0 ts' n x Hwf0 Hgs Hst0 Hr Hn Hx Hin Hend')
        as (ts0 & t & j & -> & Hall & Ht).
      exists (mkTick s0 (accepted e s0) s0 :: ts0), t, j.
      split; [reflexivity|]. split; [|exact Ht].
      constructor; [exact Hst0 | exact Hall].
    + rewrite Hacc in Hin.
      destruct (decide (Z.to_nat (userInputIndex s0) = n)) as [Heq | Hne].
      * (* the cursor is at the deviating position *)
        rewrite drop_ge in Hin by (rewrite length_take; lia).
        cbn [app] in Hin. inversion Hin as [[Hix Hrest]]. subst i.
        assert (Hts' : ts' = []).
        { destruct (ends_with_input_cons _ _ Hend) as [(H & _) | (_ & H)];
            [exact H|].
          apply ends_with_input_inputs in H. contradiction. }
        subst ts'.
        assert (Hxy : x <> y).
        { intros ->. apply Hx. rewrite <- Heq. exact Hexp. }
        destruct Hcase as [(_ & ->) | [(Hc & _) | (Hc & _)]];
          [|contradiction|contradiction].
        exists [], (mkTick s0 (Some x) (mismatch x k s0)), k.
        rewrite Hacc. cbn [t_pre t_in t_post app].
        repeat split; try assumption; try reflexivity; try constructor.
        -- lia.
        -- apply Hheld.
        -- apply Hheld.
        -- apply Hheld.
        -- apply Hheld.
      * (* an input before the deviating position *)
        assert (Hy : take n (sequence s0) !! Z.to_nat (userInputIndex s0) = Some y).
        { rewrite lookup_take_lt by lia. exact Hexp. }
        rewrite (drop_S _ _ _ Hy) in Hin.
        cbn [app] in Hin. inversion Hin as [[Hix Hrest]]. subst i.
        destruct Hcase as [(Hc & _) | [(_ & Hlt & ->) | (_ & Hle & _)]];
          [contradiction | | lia].
        assert (Hts' : ends_with_input ts' = true).
        { destruct (ends_with_input_cons _ _ Hend) as [(-> & _) | (_ & H)];
            [|exact H].
          exfalso. change (inputs []) with (@nil Z) in Hrest.
          destruct (drop (S (Z.to_nat (userInputIndex s0))) (take n (sequence s0)));
            discriminate. }
        destruct (IH (advanced y k s0) ts' n x Hwf1 Hgs Hst0 Hr)
          as (ts0 & t & j & -> & Hall & Ht); try assumption.
        { cbn. lia. }
        { cbn. replace (Z.to_nat (userInputIndex s0 + 1))
            with (S (Z.to_nat (userInputIndex s0))) by lia. exact Hrest. }
        exists (mkTick s0 (accepted e s0) (advanced y k s0) :: ts0), t, j.
        split; [reflexivity|]. split; [|exact Ht].
        constructor; [exact Hst0 | exact Hall].
Qed.

(** ** The debounce clock *)

Lemma wsub_mod a b : wsub (a mod WORD) (b mod WORD) = (a - b) mod WORD.
Proof. unfold wsub. symmetry. apply Zminus_mod. Qed.

Lemma WORD_pos : 0 < WORD.
Proof. reflexivity. Qed.

Lemma wsub_small a b d :
  0 <= a - b < d -> d <= WORD -> wsub (a mod WORD) (b mod WORD) < d.
Proof.
  intros H Hd. rewrite wsub_mod. rewrite Z.mod_small; lia.
Qed.

Lemma stamped_advance T g s : 0 <= g -> stamped T s -> stamped T (advance g s).
Proof.
  intros Hg (L & HL & Hl). exists L. cbn. split; [lia | exact Hl].
Qed.

Lemma stamped_loop e T s s' :
  wf s -> stamped T s -> loop e s = Done (tt, s') -> stamped T s'.
Proof.
  intros Hwf (L & HL & Hl) Hloop.
  pose proof Hwf as Hp. apply wf_iff in Hp.
  destruct Hp as (Hlen & Hsl & _). unfold MAX_SEQUENCE in Hsl.
  destruct (gameState s) eqn:Hst.
  - destruct (loop_WELCOME e s Hst) as [o Ho]. rewrite Ho in Hloop.
    inversion Hloop; subst. exists L. cbn. split; [lia | exact Hl].
  - pose proof (safe_Done _ _ _ _ (loop_WAIT_FOR_START e s Hst) Hloop) as Hc.
    destruct Hc as [(_ & ->) | (k & _ & ->)]; exists L.
    + rewrite clock_blink. split; [lia|].
      unfold blink. destruct (toggles s); exact Hl.
    + unfold started. cbn. rewrite ?clock_blink. split; [lia|].
      unfold blink. destruct (toggles s); exact Hl.
  - pose proof (safe_Done _ _ _ _ (loop_PLAY_SEQUENCE e s Hwf Hst) Hloop) as Hc.
    destruct Hc as (sa & Ha & Hsa & Hpos & ->).
    pose proof (safe_Done _ _ _ _
                  (addToSequence_spec e s ltac:(lia) ltac:(lia)
                     ltac:(unfold MAX_SEQUENCE; lia)) Ha) as Hadd.
    assert (Hc : clock sa = clock s).
    { destruct Hadd as [[_ ->] | (_ & c & k & _ & _ & _ & _ & ->)]; reflexivity. }
    exists (clock sa + 800 * sequenceLength sa). unfold played. cbn.
    split; [lia | reflexivity].
  - pose proof (safe_Done _ _ _ _ (loop_USER_INPUT e s Hwf Hst) Hloop) as Hc.
    destruct Hc as [(_ & ->) | (i & k & x & _ & _ & _ & _ & _ & Hc)].
    + exists L. auto.
    + exists (clock s).
      destruct Hc as [(_ & ->) | [(_ & _ & ->) | (_ & _ & ->)]]; cbn;
        (split; [lia | reflexivity]).
  - destruct (loop_GAME_OVER e s Hst) as [o Ho]. rewrite Ho in Hloop.
    inversion Hloop; subst. exists L. cbn. split; [lia | exact Hl].
Qed.

Lemma accepted_USER_INPUT e s i : accepted e s = Some i -> gameState s = USER_INPUT.
Proof. unfold accepted. destruct (gameState s); try discriminate. reflexivity. Qed.

(** An accepted input stamps the debounce clock with the time it was read. *)
Lemma accepted_stamps e s s' i :
  wf s -> accepted e s = Some i -> loop e s = Done (tt, s') ->
  stamped (clock s) s'.
Proof.
  intros Hwf Hacc Hloop.
  pose proof (accepted_USER_INPUT _ _ _ Hacc) as Hst.
  pose proof (safe_Done _ _ _ _ (loop_USER_INPUT e s Hwf Hst) Hloop) as Hc.
  destruct Hc as [(Hn & _) | (j & k & x & _ & _ & _ & _ & _ & Hc)];
    [congruence|].
  exists (clock s).
  destruct Hc as [(_ & ->) | [(_ & _ & ->) | (_ & _ & ->)]]; cbn;
    (split; [lia | reflexivity]).
Qed.

(** An input is accepted only a full debounce interval after the stamp. *)
Lemma accepted_late e T s i :
  wf s -> stamped T s -> accepted e s = Some i -> T + debounceDelay <= clock s.
Proof.
  intros Hwf (L & HL & Hl) Hacc.
  pose proof (accepted_USER_INPUT _ _ _ Hacc) as Hst.
  assert (Hdeb : debounceDelay <= wsub (clock s mod WORD) (lastButtonPress s)).
  { destruct (Z.le_gt_cases debounceDelay
                (wsub (clock s mod WORD) (lastButtonPress s))) as [H | H];
      [exact H|].
    exfalso. unfold accepted in Hacc. rewrite Hst in Hacc.
    rewrite (readButton_debounced e s H) in Hacc. discriminate. }
  rewrite Hl, wsub_mod in Hdeb.
  destruct (Z.lt_ge_cases (clock s - L) debounceDelay) as [Hlt | Hge]; [|lia].
  rewrite Z.mod_small in Hdeb; [lia|]. unfold debounceDelay, WORD in *. lia.
Qed.

Lemma run_stamped e T gaps :
  forall s ts,
    wf s -> nonneg gaps -> stamped T s -> run e gaps s = Done ts ->
    Forall (fun t => forall i, t_in t = Some i ->
                               T + debounceDelay <= clock (t_pre t)) ts.
Proof.
  induction gaps as [|g gaps IH]; intros s ts Hwf Hg Hs Hrun.
  - inversion Hrun; subst. constructor.
  - inversion Hg as [|? ? Hg0 Hgs]; subst.
    destruct (run_cons _ _ _ _ _ Hrun) as (s1 & ts' & Hl & Hr & ->).
    pose proof (wf_advance g s Hwf Hg0) as Hwf0.
    pose proof (stamped_advance T g s Hg0 Hs) as Hs0.
    pose proof (proj1 (safe_Done _ _ _ _ (loop_wf e _ Hwf0) Hl)) as Hwf1.
    constructor.
    + cbn [t_in t_pre]. intros i Hi. exact (accepted_late e T _ i Hwf0 Hs0 Hi).
    + apply (IH s1 ts' Hwf1 Hgs); [|exact Hr].
      exact (stamped_loop e T _ _ Hwf0 Hs0 Hl).
Qed.

Lemma run_app_inv e gaps :
  forall s ts1 t ts2,
    wf s -> nonneg gaps -> run e gaps s = Done (ts1 ++ t :: ts2) ->
    exists g gaps2,
      nonneg gaps2 /\ wf (t_pre t) /\ 0 <= g /\
      t_in t = accepted e (t_pre t) /\
      loop e (t_pre t) = Done (tt, t_post t) /\
      run e gaps2 (t_post t) = Done ts2.
Proof.
  induction gaps as [|g gaps IH]; intros s ts1 t ts2 Hwf Hg Hrun.
  - inversion Hrun as [H]. destruct ts1; discriminate.
  - inversion Hg as [|? ? Hg0 Hgs]; subst.
    destruct (run_cons _ _ _ _ _ Hrun) as (s1 & ts' & Hl & Hr & Heq).
    pose proof (wf_advance g s Hwf Hg0) as Hwf0.
    pose proof (proj1 (safe_Done _ _ _ _ (loop_wf e _ Hwf0) Hl)) as Hwf1.
    destruct ts1 as [|t1 ts1]; cbn [app] in Heq; inversion Heq; subst.
    + exists g, gaps. cbn [t_pre t_in t_post]. auto 10.
    + exact (IH s1 ts1 t ts2 Hwf1 Hgs Hr).
Qed.

(** Two accepted inputs are at least a debounce interval apart. *)
Lemma accepted_spacing e gaps s ts1 ta ts2 tb ts3 i j :
  wf s -> nonneg gaps ->
  run e gaps s = Done (ts1 ++ ta :: ts2 ++ tb :: ts3) ->
  t_in ta = Some i -> t_in tb = Some j ->
  clock (t_pre ta) + debounceDelay <= clock (t_pre tb).
Proof.
  intros Hwf Hg Hrun Ha Hb.
  destruct (run_app_inv e gaps s ts1 ta _ Hwf Hg Hrun)
    as (g & gaps2 & Hg2 & Hwfa & _ & Hacc & Hl & Hr).
  rewrite Hacc in Ha.
  pose proof (accepted_stamps e _ _ i Hwfa Ha Hl) as Hs.
  pose proof (proj1 (safe_Done _ _ _ _ (loop_wf e _ Hwfa) Hl)) as Hwf1.
  pose proof (run_stamped e _ gaps2 _ _ Hwf1 Hg2 Hs Hr) as Hall.
  rewrite Forall_app in Hall. destruct Hall as [_ Hall].
  inversion Hall as [|? ? Hh _]; subst. exact (Hh j Hb).
Qed.

(** ** The blink of [WAIT_FOR_START] *)

Lemma since_range s : 0 <= since s < WORD.
Proof. unfold since, wsub. apply Z.mod_pos_bound. exact WORD_pos. Qed.

Lemma since_advance g s : since (advance g s) = (since s + g) mod WORD.
Proof.
  unfold since, wsub. cbn [clock previousMillis advance set_clock].
  rewrite !Zminus_mod_idemp_l, Zplus_mod_idemp_l. f_equal. lia.
Qed.

Lemma since_blink s : since (blink s) = if toggles s then 0 else since s.
Proof.
  unfold blink. destruct (toggles s); [|reflexivity].
  unfold since, wsub. cbn. rewrite Z.sub_diag. reflexivity.
Qed.

Lemma waiting_tick e s s' :
  gameState s = WAIT_FOR_START -> loop e s = Done (tt, s') ->
  gameState s' = WAIT_FOR_START -> s' = blink s.
Proof.
  intros Hst Hl Hst'.
  destruct (safe_Done _ _ _ _ (loop_WAIT_FOR_START e s Hst) Hl)
    as [(_ & ->) | (k & _ & ->)]; [reflexivity | discriminate].
Qed.

Lemma gameState_blink s : gameState (blink s) = gameState s.
Proof. unfold blink. destruct (toggles s); reflexivity. Qed.

(** With [tau] bounding the time since the last toggle, [m] toggles need
    [interval * m] milliseconds. *)
Lemma toggles_after e gaps :
  forall s ts tau,
    nonneg gaps -> gameState s = WAIT_FOR_START ->
    run e gaps s = Done ts -> waiting ts ->
    since s <= tau ->
    interval * toggle_count ts <= total gaps + tau.
Proof.
  induction gaps as [|g gaps IH]; intros s ts tau Hg Hst Hrun Hw Htau.
  - inversion Hrun; subst. cbn. pose proof (since_range s). lia.
  - inversion Hg as [|? ? Hg0 Hgs]; subst.
    destruct (run_cons _ _ _ _ _ Hrun) as (s1 & ts' & Hl & Hr & ->).
    inversion Hw as [|? ? Hw1 Hws]; subst. cbn [t_post] in Hw1.
    pose proof (waiting_tick e (advance g s) s1 Hst Hl Hw1) as ->.
    cbn [toggle_count t_pre total fold_right]. fold (total gaps).
    assert (Hs0 : since (advance g s) <= tau + g).
    { rewrite since_advance. pose proof (since_range s).
      pose proof (Z.mod_le (since s + g) WORD ltac:(lia) WORD_pos). lia. }
    pose proof (since_blink (advance g s)) as Hb.
    unfold toggles in Hb |- *. fold (since (advance g s)) in Hb |- *.
    destruct (Z.leb_spec interval (since (advance g s))) as [Hle | Hgt].
    + pose proof (IH _ ts' 0 Hgs Hw1 Hr Hws ltac:(lia)). lia.
    + pose proof (IH _ ts' (tau + g) Hgs Hw1 Hr Hws ltac:(lia)). lia.
Qed.

(** Toggles are never closer than [interval]: [m] toggles span at least
    [interval * (m - 1)] milliseconds, whatever the polling schedule. *)
Lemma toggles_upper e gaps :
  forall s ts,
    nonneg gaps -> gameState s = WAIT_FOR_START ->
    run e gaps s = Done ts -> waiting ts ->
    interval * (toggle_count ts - 1) <= total gaps.
Proof.
  induction gaps as [|g gaps IH]; intros s ts Hg Hst Hrun Hw.
  - inversion Hrun; subst. cbn. unfold interval. lia.
  - inversion Hg as [|? ? Hg0 Hgs]; subst.
    destruct (run_cons _ _ _ _ _ Hrun) as (s1 & ts' & Hl & Hr & ->).
    inversion Hw as [|? ? Hw1 Hws]; subst. cbn [t_post] in Hw1.
    pose proof (waiting_tick e (advance g s) s1 Hst Hl Hw1) as ->.
    cbn [toggle_count t_pre total fold_right]. fold (total gaps).
    pose proof (since_blink (advance g s)) as Hb.
    destruct (toggles (advance g s)).
    + pose proof (toggles_after e gaps _ ts' 0 Hgs Hw1 Hr Hws ltac:(lia)). lia.
    + pose proof (IH _ ts' Hgs Hw1 Hr Hws). lia.
Qed.

(** When no gap exceeds [d], the next toggle comes less than
    [interval + d] after the previous one. *)
Lemma toggles_within e d gaps :
  forall s ts,
    nonneg gaps -> Forall (fun g => g <= d) gaps -> interval + d <= WORD ->
    gameState s = WAIT_FOR_START ->
    run e gaps s = Done ts -> waiting ts ->
    since s < interval ->
    total gaps + since s <= toggle_count ts * (interval + d) + since (final s ts) /\
    since (final s ts) < interval.
Proof.
  induction gaps as [|g gaps IH]; intros s ts Hg Hd HW Hst Hrun Hw Hs.
  - inversion Hrun; subst. cbn. unfold final. cbn. lia.
  - inversion Hg as [|? ? Hg0 Hgs]; subst.
    inversion Hd as [|? ? Hd0 Hds]; subst.
    destruct (run_cons _ _ _ _ _ Hrun) as (s1 & ts' & Hl & Hr & ->).
    inversion Hw as [|? ? Hw1 Hws]; subst. cbn [t_post] in Hw1.
    pose proof (waiting_tick e (advance g s) s1 Hst Hl Hw1) as ->.
    rewrite final_cons. cbn [t_post].
    cbn [toggle_count t_pre total fold_right]. fold (total gaps).
    pose proof (since_range s) as Hr0.
    assert (Hs0 : since (advance g s) = since s + g).
    { rewrite since_advance. apply Z.mod_small. lia. }
    pose proof (since_blink (advance g s)) as Hb.
    unfold toggles in Hb |- *. fold (since (advance g s)) in Hb |- *.
    destruct (Z.leb_spec interval (since (advance g s))) as [Hle | Hgt].
    + destruct (IH _ ts' Hgs Hds HW Hw1 Hr Hws) as [H1 H2];
        [rewrite Hb; unfold interval; lia|].
      split; [|exact H2]. rewrite Hb in H1. lia.
    + destruct (IH _ ts' Hgs Hds HW Hw1 Hr Hws) as [H1 H2]; [lia|].
      split; [|exact H2]. rewrite Hb in H1. lia.
Qed.

Lemma toggle_count_nonneg ts : 0 <= toggle_count ts.
Proof.
  induction ts as [|t ts IH]; cbn [toggle_count]; [lia|].
  destruct (toggles (t_pre t)); lia.
Qed.

(** A window of [T] milliseconds polled with gaps of at most [d] sees more
    than [T / (interval + d) - 1] toggles. *)
Lemma toggles_lower e d gaps :
  forall s ts,
    nonneg gaps -> Forall (fun g => g <= d) gaps -> 0 <= d ->
    interval + d <= WORD ->
    gameState s = WAIT_FOR_START ->
    run e gaps s = Done ts -> waiting ts ->
    total gaps < (toggle_count ts + 1) * (interval + d).
Proof.
  intros s ts Hg Hd Hd0 HW Hst Hrun Hw.
  destruct gaps as [|g gaps].
  - inversion Hrun; subst. cbn. unfold interval. lia.
  - inversion Hg as [|? ? Hg0 Hgs]; subst.
    inversion Hd as [|? ? Hdg Hds]; subst.
    destruct (run_cons _ _ _ _ _ Hrun) as (s1 & ts' & Hl & Hr & ->).
    inversion Hw as [|? ? Hw1 Hws]; subst. cbn [t_post] in Hw1.
    pose proof (waiting_tick e (advance g s) s1 Hst Hl Hw1) as ->.
    cbn [toggle_count t_pre total fold_right]. fold (total gaps).
    pose proof (since_blink (advance g s)) as Hb.
    pose proof (since_range (blink (advance g s))) as Hr0.
    pose proof (toggle_count_nonneg ts') as Hm.
    assert (Hs1 : since (blink (advance g s)) < interval).
    { rewrite Hb. destruct (toggles (advance g s)) eqn:Ht; [reflexivity|].
      unfold toggles in Ht. apply Z.leb_gt in Ht. exact Ht. }
    destruct (toggles_within e d gaps _ ts' Hgs Hds HW Hw1 Hr Hws Hs1) as [H1 H2].
    destruct (toggles (advance g s)); nia.
Qed.

(** ** After a game is lost *)

(** An iteration started in [GAME_OVER] or [WAIT_FOR_START] keeps the
    buffer; it keeps the length too unless it accepts the start button. *)
Lemma idle_tick e s s' :
  idle s -> loop e s = Done (tt, s') ->
  sequence s' = sequence s /\
  ((idle s' /\ sequenceLength s' = sequenceLength s) \/
   (gameState s = WAIT_FOR_START /\ gameState s' = PLAY_SEQUENCE /\
    sequenceLength s' = 0 /\ exists k, held e 2 k s)).
Proof.
  intros [Hst | Hst] Hl.
  - destruct (loop_GAME_OVER e s Hst) as [o Ho]. rewrite Ho in Hl.
    inversion Hl; subst. cbn. split; [reflexivity|]. left.
    split; [right|]; reflexivity.
  - destruct (safe_Done _ _ _ _ (loop_WAIT_FOR_START e s Hst) Hl)
      as [(_ & ->) | (k & Hheld & ->)].
    + assert (Hseq : sequence (blink s) = sequence s /\
                     sequenceLength (blink s) = sequenceLength s).
      { unfold blink. destruct (toggles s); split; reflexivity. }
      split; [tauto|]. left. split; [|tauto].
      right. rewrite gameState_blink. exact Hst.
    + unfold started. cbn. split.
      * unfold blink. destruct (toggles s); reflexivity.
      * right. repeat split; try assumption. exists k. exact Hheld.
Qed.

Lemma idle_run e gaps :
  forall s ts,
    idle s -> run e gaps s = Done ts ->
    Forall (fun t => gameState (t_post t) <> PLAY_SEQUENCE) ts ->
    Forall (fun t => idle (t_post t) /\
                     sequence (t_post t) = sequence s /\
                     sequenceLength (t_post t) = sequenceLength s) ts.
Proof.
  induction gaps as [|g gaps IH]; intros s ts Hs Hrun Hno.
  - inversion Hrun; subst. constructor.
  - destruct (run_cons _ _ _ _ _ Hrun) as (s1 & ts' & Hl & Hr & ->).
    inversion Hno as [|? ? Hn1 Hns]; subst. cbn [t_post] in Hn1.
    destruct (idle_tick e (advance g s) s1 Hs Hl)
      as [Hseq [(Hidle & Hlen) | (_ & Hplay & _)]]; [|contradiction].
    cbn [sequence sequenceLength advance set_clock] in Hseq, Hlen.
    constructor; [cbn [t_post]; auto|].
    specialize (IH s1 ts' Hidle Hr Hns). rewrite Hseq, Hlen in IH. exact IH.
Qed.

(** ** Where the colours of a playback fall *)

Lemma playback_events_nth cs :
  forall t (j : nat) c,
    cs !! j = Some c ->
    let t0 := t + (500 + 300) * Z.of_nat j in
    In (t0, DigitalWrite (nth (Z.to_nat c) LED_PINS 0) HIGH) (playback_events t cs) /\
    In (t0, Tone BUZZER_PIN (nth (Z.to_nat c) TONES 0) 500) (playback_events t cs) /\
    In (t0 + 500, DigitalWrite (nth (Z.to_nat c) LED_PINS 0) LOW) (playback_events t cs).
Proof.
  induction cs as [|c0 cs IH]; intros t j c Hj; [discriminate|].
  cbn [playback_events]. destruct j as [|j].
  - inversion Hj; subst. cbn zeta.
    replace (t + (500 + 300) * Z.of_nat 0) with t by lia.
    repeat split; apply in_or_app; right; unfold color_events; cbn; auto.
  - cbn in Hj. destruct (IH (t + 500 + 300) j c Hj) as (H1 & H2 & H3).
    cbn zeta.
    replace (t + (500 + 300) * Z.of_nat (S j))
      with (t + 500 + 300 + (500 + 300) * Z.of_nat j) by lia.
    repeat split; apply in_or_app; left; assumption.
Qed.

(** ** Scenario checks *)

Lemma cap_check_true :
  cycle_check perfect_env (rounds_gaps 100) (210 :: repeat 10 99) 100 = true.
Proof. vm_compute. reflexivity. Qed.

Lemma run_single e g s :
  is_done (run e [g] s) = true ->
  loop e (advance g s) = Done (tt, run_final e [g] s).
Proof.
  unfold run_final. cbn [run].
  destruct (loop e (advance g s)) as [[[] s1]| |]; [|discriminate|discriminate].
  intros _. reflexivity.
Qed.

Lemma gameState_eqb_eq a b : gameState_eqb a b = true -> a = b.
Proof. destruct a, b; (reflexivity || discriminate). Qed.

Lemma list_eqb_eq l1 l2 : list_eqb l1 l2 = true -> l1 = l2.
Proof. unfold list_eqb. apply bool_decide_eq_true_1. Qed.

Lemma cycle_check_sound e gaps0 gaps1 n :
  cycle_check e gaps0 gaps1 n = true ->
  let s := run_final e gaps0 init in
  let s1 := run_final e [0] s in
  let ts := run_ticks e gaps1 s1 in
  reachable e s /\
  gameState s = PLAY_SEQUENCE /\
  sequenceLength s = n /\
  loop e (advance 0 s) = Done (tt, s1) /\
  run e gaps1 s1 = Done ts /\
  inputs ts = take (Z.to_nat (sequenceLength s1)) (sequence s1) /\
  ends_with_input ts = true /\
  gameState (final s1 ts) = PLAY_SEQUENCE /\
  sequenceLength s1 <> sequenceLength s + 1 /\
  sequenceLength (final s1 ts) = sequenceLength s.
Proof.
  intros H. unfold cycle_check in H. cbv zeta in H.
  fold (run_final e gaps0 init) in H.
  fold (run_final e [0] (run_final e gaps0 init)) in H.
  fold (run_ticks e gaps1 (run_final e [0] (run_final e gaps0 init))) in H.
  rewrite !andb_true_iff in H.
  destruct H as ((((((((((Hg & Hd) & Hst) & Hlen) & Hd1) & Hlen1) & Hd2) & Hin)
                     & Hend) & Hfin) & Hlenf).
  apply Z.eqb_eq in Hlen, Hlen1, Hlenf.
  apply gameState_eqb_eq in Hst, Hfin. apply list_eqb_eq in Hin.
  cbv zeta.
  split; [exact (reachable_run _ _ Hg Hd)|].
  split; [exact Hst|]. split; [exact Hlen|].
  split; [exact (run_single _ _ _ Hd1)|].
  split; [exact (run_ticks_eq _ _ _ Hd2)|].
  split; [exact Hin|]. split; [exact Hend|]. split; [exact Hfin|].
  split; lia.
Qed.

Lemma capped_cycle_facts :
  reachable perfect_env cap_state /\
  gameState cap_state = PLAY_SEQUENCE /\
  sequenceLength cap_state = 100.
Proof.
  destruct (cycle_check_sound perfect_env (rounds_gaps 100)
              (210 :: repeat 10 99) 100 cap_check_true)
    as (H1 & H2 & H3 & _).
  exact (conj H1 (conj H2 H3)).
Qed.

Lemma addToSequence_done e s (k : nat) :
  wf s -> sequenceLength s < MAX_SEQUENCE ->
  (k < patience e)%nat ->
  (sequenceLength s = 0 -> prng e (draws s + k) mod 4 <> 2) ->
  (sequenceLength s = 0 ->
     forall j : nat, (j < k)%nat -> prng e (draws s + j) mod 4 = 2) ->
  (sequenceLength s <> 0 -> k = 0%nat) ->
  addToSequence e s = Done (tt, appended (prng e (draws s + k) mod 4) k s).
Proof.
  intros Hwf Hlt Hk Hne Hall Hk0. apply wf_iff in Hwf.
  destruct Hwf as (Hlen & Hsl & _). unfold MAX_SEQUENCE in *.
  unfold addToSequence, bind at 1, get.
  destruct (Z.ltb_spec (sequenceLength s) MAX_SEQUENCE) as [_ | Hge];
    [|unfold MAX_SEQUENCE in Hge; lia].
  rewrite (bind_eq _ _ _ _ _ (draw_color_done e _ s k Hk Hne Hall Hk0)).
  unfold bind, store_sequence. cbn [sequence set_draws].
  destruct (Z.leb_spec 0 (sequenceLength s)); [|lia].
  destruct (Z.ltb_spec (sequenceLength s) (Z.of_nat (length (sequence s))));
    [|lia].
  reflexivity.
Qed.

Lemma fresh_state_reachable : reachable perfect_env fresh_state.
Proof. apply reachable_run; vm_compute; reflexivity. Qed.

Lemma addToSequence_full e s :
  MAX_SEQUENCE <= sequenceLength s -> addToSequence e s = Done (tt, s).
Proof.
  intros H. unfold addToSequence, bind, get.
  destruct (Z.ltb_spec (sequenceLength s) MAX_SEQUENCE); [lia | reflexivity].
Qed.

Lemma loop_PLAY_SEQUENCE_full e s :
  wf s -> gameState s = PLAY_SEQUENCE -> MAX_SEQUENCE <= sequenceLength s ->
  loop e s = Done (tt, played s).
Proof.
  intros Hwf Hst Hcap. unfold loop, bind at 1, get. rewrite Hst.
  rewrite (bind_eq _ _ _ _ _ (addToSequence_full e s Hcap)).
  rewrite (bind_eq _ _ _ _ _ (playSequence_eq s Hwf)).
  reflexivity.
Qed.

Lemma loop_no_fault e g s : wf s -> 0 <= g -> loop e (advance g s) <> Fault.
Proof.
  intros Hwf Hg.
  exact (safe_not_Fault _ _ (loop_wf e _ (wf_advance g s Hwf Hg))).
Qed.


Lemma slip_state_reachable : reachable slip_env slip_state.
Proof. apply reachable_run; vm_compute; reflexivity. Qed.

Lemma waiting_run e gaps :
  forall s ts,
    gameState s = WAIT_FOR_START -> run e gaps s = Done ts -> waiting ts ->
    Forall (fun t => gameState (t_pre t) = WAIT_FOR_START /\
                     t_post t = blink (t_pre t)) ts /\
    clock (final s ts) = clock s + total gaps /\
    Z.of_nat (length (outputs (final s ts))) =
      Z.of_nat (length (outputs s)) + toggle_count ts.
Proof.
  induction gaps as [|g gaps IH]; intros s ts Hst Hrun Hw.
  - inversion Hrun; subst. unfold final. cbn.
    split; [constructor | split; lia].
  - destruct (run_cons _ _ _ _ _ Hrun) as (s1 & ts' & Hl & Hr & ->).
    inversion Hw as [|? ? Hw1 Hws]; subst. cbn [t_post] in Hw1.
    pose proof (waiting_tick e (advance g s) s1 Hst Hl Hw1) as ->.
    destruct (IH _ ts' Hw1 Hr Hws) as (Hall & Hclk & Hout).
    rewrite final_cons. cbn [t_post toggle_count t_pre total fold_right].
    fold (total gaps).
    split; [constructor; [cbn [t_pre t_post]; auto | exact Hall]|].
    rewrite Hclk, Hout, clock_blink. cbn [clock advance set_clock].
    split; [lia|].
    unfold blink. destruct (toggles (advance g s)); cbn [outputs set_outputs
      set_ledState set_previousMillis advance set_clock length]; lia.
Qed.

Lemma waitingb_waiting ts : waitingb ts = true -> waiting ts.
Proof.
  unfold waitingb, waiting. rewrite forallb_forall, Forall_forall.
  intros H t Hin. apply gameState_eqb_eq, H, list_elem_of_In, Hin.
Qed.

(** ** The press-and-release protocol *)

Lemma aref_BUTTON_PINS i s :
  0 <= i < 4 -> aref BUTTON_PINS i s = Done (nth (Z.to_nat i) BUTTON_PINS 0, s).
Proof.
  intros Hi. destruct (channel_cases i Hi) as [-> | [-> | [-> | ->]]]; reflexivity.
Qed.

Lemma scan_skip e i rest s :
  0 <= i < 4 -> button e (clock s) i = HIGH ->
  scan_buttons e (i :: rest) s = scan_buttons e rest s.
Proof.
  intros Hi Hb. cbn [scan_buttons].
  rewrite (bind_eq _ _ _ _ _ (aref_BUTTON_PINS i s Hi)).
  unfold bind at 1, digitalRead, get. fold (button e (clock s) i).
  rewrite Hb. reflexivity.
Qed.

Lemma scan_hit e i rest s :
  0 <= i < 4 -> button e (clock s) i = LOW ->
  scan_buttons e (i :: rest) s =
    (wait_release e (nth (Z.to_nat i) BUTTON_PINS 0) (patience e) >> ret i)
      (set_lastButtonPress (clock s mod WORD) s).
Proof.
  intros Hi Hb. cbn [scan_buttons].
  rewrite (bind_eq _ _ _ _ _ (aref_BUTTON_PINS i s Hi)).
  unfold bind at 1, digitalRead, get. fold (button e (clock s) i).
  rewrite Hb. reflexivity.
Qed.

Lemma scan_first_low e s i :
  0 <= i < 4 -> first_low e (clock s) i ->
  scan_buttons e [0; 1; 2; 3] s =
    (wait_release e (nth (Z.to_nat i) BUTTON_PINS 0) (patience e) >> ret i)
      (set_lastButtonPress (clock s mod WORD) s).
Proof.
  intros Hi [Hlow Hhigh].
  destruct (channel_cases i Hi) as [-> | [-> | [-> | ->]]].
  - apply scan_hit; [lia | exact Hlow].
  - rewrite scan_skip by (try apply Hhigh; lia).
    apply scan_hit; [lia | exact Hlow].
  - rewrite !scan_skip by (try apply Hhigh; lia).
    apply scan_hit; [lia | exact Hlow].
  - rewrite !scan_skip by (try apply Hhigh; lia).
    apply scan_hit; [lia | exact Hlow].
Qed.

Lemma readButton_first_low e s i :
  0 <= i < 4 ->
  debounceDelay <= wsub (clock s mod WORD) (lastButtonPress s) ->
  first_low e (clock s) i ->
  readButton e s =
    (wait_release e (nth (Z.to_nat i) BUTTON_PINS 0) (patience e) >> ret i)
      (set_lastButtonPress (clock s mod WORD) s).
Proof.
  intros Hi Hdeb Hfl. unfold readButton, bind at 1, millis, get. unfold bind at 1.
  destruct (Z.ltb_spec (wsub (clock s mod WORD) (lastButtonPress s)) debounceDelay);
    [lia|].
  apply scan_first_low; assumption.
Qed.

(** A recognised press returns as soon as a sample finds the button up. *)
Lemma readButton_done e s i k :
  0 <= i < 4 ->
  debounceDelay <= wsub (clock s mod WORD) (lastButtonPress s) ->
  first_low e (clock s) i -> held e i k s ->
  readButton e s = Done (i, pressed k s).
Proof.
  intros Hi Hdeb Hfl (_ & Hk & Hh & Hl).
  rewrite (readButton_first_low e s i Hi Hdeb Hfl).
  unfold bind at 1.
  rewrite (wait_release_done e _ _ _ k Hk); [reflexivity | exact Hh | exact Hl].
Qed.

(** While the button stays down, [readButton] does not return. *)
Lemma readButton_hang e s i :
  0 <= i < 4 ->
  debounceDelay <= wsub (clock s mod WORD) (lastButtonPress s) ->
  first_low e (clock s) i ->
  (forall j : nat, (j < patience e)%nat ->
     button e (clock s + 10 * Z.of_nat j) i = LOW) ->
  readButton e s = Hang.
Proof.
  intros Hi Hdeb Hfl Hl.
  rewrite (readButton_first_low e s i Hi Hdeb Hfl).
  unfold bind at 1.
  rewrite wait_release_hang; [reflexivity | exact Hl].
Qed.

Lemma waitForStartButton_eq e s :
  waitForStartButton e s =
    match button e (clock s) 2 with
    | LOW => (wait_release e 8 (patience e) >> ret true) (blink s)
    | HIGH => Done (false, blink s)
    end.
Proof.
  unfold waitForStartButton, bind at 1, millis, get. unfold bind at 1.
  assert (Hblink :
    (if interval <=? wsub (clock s mod WORD) (previousMillis s)
     then
       put (set_previousMillis (clock s mod WORD)) >>
       (let* st := fun s0 : State => Done (ledState s0, s0) in
        put (set_ledState (negb st)) >>
        (let* led := aref LED_PINS 2 in
         digitalWrite led (if negb st then HIGH else LOW)))
     else ret tt) s = Done (tt, blink s)).
  { unfold blink, toggles.
    destruct (interval <=? wsub (clock s mod WORD) (previousMillis s));
      reflexivity. }
  rewrite (bind_eq _ _ _ _ _ Hblink).
  rewrite (bind_eq _ _ _ 8 (blink s)) by reflexivity.
  unfold bind at 1, digitalRead, get. rewrite clock_blink.
  change (pin_level e (clock s) 8) with (button e (clock s) 2).
  destruct (button e (clock s) 2); reflexivity.
Qed.

(** The start press is accepted whatever the debounce clock holds. *)
Lemma waitForStartButton_done e s k :
  held e 2 k s ->
  waitForStartButton e s =
    Done (true, set_clock (clock s + 10 * Z.of_nat k) (blink s)).
Proof.
  intros (Hlow & Hk & Hh & Hl). rewrite waitForStartButton_eq, Hlow.
  unfold bind at 1.
  rewrite (wait_release_done e 8 _ (blink s) k Hk);
    rewrite ?clock_blink; [reflexivity | exact Hh | exact Hl].
Qed.

Lemma waitForStartButton_hang e s :
  (forall j : nat, (j < patience e)%nat ->
     button e (clock s + 10 * Z.of_nat j) 2 = LOW) ->
  (0 < patience e)%nat ->
  waitForStartButton e s = Hang.
Proof.
  intros Hl Hp. rewrite waitForStartButton_eq.
  pose proof (Hl 0%nat Hp) as H0.
  replace (clock s + 10 * Z.of_nat 0) with (clock s) in H0 by lia.
  rewrite H0. unfold bind at 1.
  rewrite wait_release_hang; [reflexivity|].
  rewrite clock_blink. exact Hl.
Qed.

Lemma wait_release_lastButtonPress e pin v n :
  forall s,
    wait_release e pin n (set_lastButtonPress v s) =
    then_state (set_lastButtonPress v) (wait_release e pin n s).
Proof.
  induction n as [|n IH]; intros s; [reflexivity|].
  cbn [wait_release]. unfold bind at 1 3, digitalRead, get.
  cbn [clock set_lastButtonPress].
  destruct (pin_level e (clock s) pin); [|reflexivity].
  change ((delay 10 >> wait_release e pin n) (set_lastButtonPress v s))
    with (wait_release e pin n (set_lastButtonPress v (set_clock (clock s + 10) s))).
  change ((delay 10 >> wait_release e pin n) s)
    with (wait_release e pin n (set_clock (clock s + 10) s)).
  apply IH.
Qed.

(** [waitForStartButton] neither reads nor writes the debounce clock. *)
Lemma waitForStartButton_lastButtonPress e v s :
  waitForStartButton e (set_lastButtonPress v s) =
  then_state (set_lastButtonPress v) (waitForStartButton e s).
Proof.
  rewrite !waitForStartButton_eq. cbn [clock set_lastButtonPress].
  assert (Hb : blink (set_lastButtonPress v s) = set_lastButtonPress v (blink s)).
  { unfold blink, toggles. cbn [clock previousMillis set_lastButtonPress].
    destruct (interval <=? wsub (clock s mod WORD) (previousMillis s));
      reflexivity. }
  rewrite Hb.
  destruct (button e (clock s) 2); [|reflexivity].
  unfold bind. rewrite wait_release_lastButtonPress.
  destruct (wait_release e 8 (patience e) (blink s)) as [[[] s']| |]; reflexivity.
Qed.

(** ** Progress: with buttons that are released and a generator that
    leaves 2, every iteration returns *)

Lemma wait_release_total e pin n :
  forall s,
    (exists k : nat, (k < n)%nat /\
                     pin_level e (clock s + 10 * Z.of_nat k) pin = HIGH) ->
    exists k : nat,
      wait_release e pin n s = Done (tt, set_clock (clock s + 10 * Z.of_nat k) s).
Proof.
  induction n as [|n IH]; intros s (k & Hk & Hh); [lia|].
  cbn [wait_release]. unfold bind at 1, digitalRead, get.
  destruct (pin_level e (clock s) pin) eqn:Hp.
  - destruct k as [|k].
    { replace (clock s + 10 * Z.of_nat 0) with (clock s) in Hh by lia. congruence. }
    change ((delay 10 >> wait_release e pin n) s)
      with (wait_release e pin n (set_clock (clock s + 10) s)).
    destruct (IH (set_clock (clock s + 10) s)) as [k' Hk'].
    { exists k. split; [lia|]. cbn [clock set_clock].
      replace (clock s + 10 + 10 * Z.of_nat k) with (clock s + 10 * Z.of_nat (S k))
        by lia. exact Hh. }
    exists (S k'). rewrite Hk'. unfold set_clock. cbn. do 3 f_equal. lia.
  - exists 0%nat. cbn. rewrite set_clock_id. reflexivity.
Qed.

Lemma wait_release_returns e pin s :
  releases e -> exists s', wait_release e pin (patience e) s = Done (tt, s').
Proof.
  intros Hrel. destruct (wait_release_total e pin (patience e) s (Hrel _ pin))
    as [k Hk].
  eauto.
Qed.

Lemma draw_color_total e n :
  forall s,
    (exists k : nat, (k < n)%nat /\ prng e (draws s + k) mod 4 <> 2) ->
    exists c s', draw_color e n s = Done (c, s').
Proof.
  induction n as [|n IH]; intros s (k & Hk & Hne); [lia|].
  cbn [draw_color]. unfold bind at 1.
  change (random e 0 4 s)
    with (Done (prng e (draws s) mod 4, set_draws (S (draws s)) s)).
  unfold bind at 1, get. cbn [sequenceLength set_draws].
  destruct ((sequenceLength s =? 0) && (prng e (draws s) mod 4 =? 2)) eqn:Hc;
    [|eauto].
  apply andb_true_iff in Hc. destruct Hc as [_ Hc]. apply Z.eqb_eq in Hc.
  destruct k as [|k]; [rewrite Nat.add_0_r in Hne; contradiction|].
  apply IH. exists k. split; [lia|]. cbn [draws set_draws].
  replace (S (draws s) + k)%nat with (draws s + S k)%nat by lia. exact Hne.
Qed.

Lemma scan_buttons_returns e todo :
  forall s,
    releases e -> Forall (fun i => 0 <= i < 4) todo ->
    exists i s', scan_buttons e todo s = Done (i, s').
Proof.
  induction todo as [|i rest IH]; intros s Hrel Hall; [cbn; eauto|].
  inversion Hall as [|? ? Hi Hrest]; subst.
  destruct (button e (clock s) i) eqn:Hb.
  - rewrite (scan_hit e i rest s Hi Hb). unfold bind at 1.
    destruct (wait_release_returns e (nth (Z.to_nat i) BUTTON_PINS 0)
                (set_lastButtonPress (clock s mod WORD) s) Hrel) as [s' ->].
    cbn. eauto.
  - rewrite (scan_skip e i rest s Hi Hb). apply IH; assumption.
Qed.

Lemma readButton_returns e s :
  releases e -> exists i s', readButton e s = Done (i, s').
Proof.
  intros Hrel. unfold readButton, bind at 1, millis, get. unfold bind at 1.
  destruct (wsub (clock s mod WORD) (lastButtonPress s) <? debounceDelay);
    [cbn; eauto|].
  apply scan_buttons_returns; [exact Hrel | repeat constructor; lia].
Qed.

Lemma loop_returns e s :
  wf s -> releases e -> fair e -> exists s', loop e s = Done (tt, s').
Proof.
  intros Hwf Hrel Hfair.
  pose proof Hwf as Hp. apply wf_iff in Hp.
  destruct Hp as (Hlen & Hsl & _ & Hidx & Hui & _). unfold MAX_SEQUENCE in Hsl.
  destruct (gameState s) eqn:Hst.
  - destruct (loop_WELCOME e s Hst) as [o ->]. eauto.
  - unfold loop, bind at 1, get. rewrite Hst. unfold bind at 1.
    rewrite waitForStartButton_eq.
    destruct (button e (clock s) 2); [|cbn; eauto].
    unfold bind at 1.
    destruct (wait_release_returns e 8 (blink s) Hrel) as [s' ->].
    cbn. eauto.
  - assert (Ha : exists sa, addToSequence e s = Done (tt, sa)).
    { destruct (Z.lt_ge_cases (sequenceLength s) MAX_SEQUENCE) as [Hlt | Hge].
      - unfold addToSequence, bind at 1, get.
        destruct (Z.ltb_spec (sequenceLength s) MAX_SEQUENCE); [|lia].
        destruct (draw_color_total e (patience e) s (Hfair _)) as (c & s1 & Hd).
        rewrite (bind_eq _ _ _ _ _ Hd).
        pose proof (safe_Done _ _ _ _ (draw_color_spec e _ s) Hd)
          as (k & _ & -> & _).
        unfold bind, store_sequence. cbn [sequence set_draws].
        unfold MAX_SEQUENCE in *.
        destruct (Z.leb_spec 0 (sequenceLength s)); [|lia].
        destruct (Z.ltb_spec (sequenceLength s) (Z.of_nat (length (sequence s))));
          [|lia].
        cbn. eauto.
      - rewrite (addToSequence_full e s Hge). eauto. }
    destruct Ha as [sa Ha].
    unfold loop, bind at 1, get. rewrite Hst.
    rewrite (bind_eq _ _ _ _ _ Ha).
    assert (Hsa : wf sa).
    { pose proof (safe_Done _ _ _ _
                    (addToSequence_spec e s ltac:(lia) ltac:(lia)
                       ltac:(unfold MAX_SEQUENCE; lia)) Ha) as Hadd.
      destruct Hadd as [[_ ->] | (Hlt & c & k & _ & -> & Hz & _ & ->)];
        [assumption|].
      apply wf_appended; [assumption | assumption | apply mod4_range |].
      intros H0. apply (Hz H0). }
    rewrite (bind_eq _ _ _ _ _ (playSequence_eq sa Hsa)). cbn. eauto.
  - destruct (readButton_returns e s Hrel) as (i & sr & Hr).
    pose proof (safe_Done _ _ _ _ (readButton_spec e s) Hr) as Hrb.
    unfold loop, bind at 1, get. rewrite Hst.
    rewrite (bind_eq _ _ _ _ _ Hr).
    destruct Hrb as [(-> & ->) | (Hi & _ & k & _ & ->)]; [cbn; eauto|].
    destruct (Z.eqb_spec i (-1)) as [Hneg | _]; [lia|]. cbn [negb].
    rewrite (bind_eq _ _ _ _ _ (playColor_eq i (pressed k s) Hi)).
    unfold bind at 1, get. unfold bind at 1.
    specialize (Hui eq_refl).
    destruct (lookup_lt_is_Some_2 (sequence s) (Z.to_nat (userInputIndex s)))
      as [x Hx]; [lia|].
    cbn [sequence userInputIndex world set_outputs set_clock pressed
           set_lastButtonPress].
    rewrite (bind_eq _ _ _ x _)
      by (apply aref_Some; [lia | exact Hx]).
    destruct (negb (i =? x)); [cbn; eauto|].
    unfold bind at 1, put. unfold bind at 1, get. unfold bind at 1.
    cbn [sequenceLength userInputIndex set_userInputIndex world set_outputs
           set_clock pressed set_lastButtonPress].
    destruct (sequenceLength s <=? userInputIndex s + 1); cbn; eauto.
  - destruct (loop_GAME_OVER e s Hst) as [o ->]. eauto.
Qed.

(** The machine never stops: every schedule of iterations is carried out. *)
Lemma run_returns e gaps :
  forall s,
    wf s -> releases e -> fair e -> nonneg gaps ->
    exists ts, run e gaps s = Done ts.
Proof.
  induction gaps as [|g gaps IH]; intros s Hwf Hrel Hfair Hg; [cbn; eauto|].
  inversion Hg as [|? ? Hg0 Hgs]; subst.
  pose proof (wf_advance g s Hwf Hg0) as Hwf0.
  destruct (loop_returns e _ Hwf0 Hrel Hfair) as [s1 Hl].
  pose proof (proj1 (safe_Done _ _ _ _ (loop_wf e _ Hwf0) Hl)) as Hwf1.
  destruct (IH s1 Hwf1 Hrel Hfair Hgs) as [ts Hr].
  cbn [run]. rewrite Hl, Hr. eauto.
Qed.

Lemma perfect_env_releases : releases perfect_env.
Proof.
  intros t pin. unfold perfect_env. cbn [pin_level patience].
  destruct (Z.eqb_spec pin 9) as [-> | Hne9].
  - destruct (Z.eqb_spec (t mod 20) 0) as [H0 | H0].
    + exists 1%nat. split; [lia|]. cbn [Z.eqb Pos.eqb andb orb].
      replace ((t + 10 * Z.of_nat 1) mod 20) with 10; [reflexivity|].
      replace (t + 10 * Z.of_nat 1) with (10 + t) by lia.
      rewrite Zplus_mod, H0. reflexivity.
    + exists 0%nat. split; [lia|]. cbn [Z.eqb Pos.eqb andb orb].
      replace (t + 10 * Z.of_nat 0) with t by lia.
      destruct (Z.eqb_spec (t mod 20) 0); [contradiction | reflexivity].
  - destruct (Z.eqb_spec t 3200) as [-> | Hne].
    + exists 1%nat. split; [lia|].
      rewrite !andb_false_r. destruct (pin =? 8); reflexivity.
    + exists 0%nat. split; [lia|].
      replace (t + 10 * Z.of_nat 0) with t by lia.
      destruct (Z.eqb_spec t 3200); [contradiction|].
      rewrite !andb_false_r. reflexivity.
Qed.

Lemma perfect_env_fair : fair perfect_env.
Proof.
  intros n. exists 0%nat. split; [cbn; lia|]. cbn. discriminate.
Qed.

(** * The claims *)

(** C1 (as amended).  A cycle that starts in [PLAY_SEQUENCE] below the
    maximum length appends exactly one colour and enters [USER_INPUT] with
    the cursor at 0; when the inputs then accepted are, in order, exactly
    the colours of the grown sequence, no iteration ends in [GAME_OVER] and
    the iteration that accepts the last input ends in [PLAY_SEQUENCE], with
    the sequence as it was grown. *)
Theorem matching_round_grows e s g s1 gaps ts :
  wf s -> 0 <= g -> nonneg gaps ->
  gameState s = PLAY_SEQUENCE ->
  sequenceLength s < MAX_SEQUENCE ->
  loop e (advance g s) = Done (tt, s1) ->
  run e gaps s1 = Done ts ->
  inputs ts = take (Z.to_nat (sequenceLength s1)) (sequence s1) ->
  ends_with_input ts = true ->
  gameState s1 = USER_INPUT /\
  userInputIndex s1 = 0 /\
  sequenceLength s1 = sequenceLength s + 1 /\
  take (Z.to_nat (sequenceLength s)) (sequence s1) =
    take (Z.to_nat (sequenceLength s)) (sequence s) /\
  Forall (fun t => gameState (t_post t) <> GAME_OVER) ts /\
  gameState (final s1 ts) = PLAY_SEQUENCE /\
  sequence (final s1 ts) = sequence s1 /\
  sequenceLength (final s1 ts) = sequenceLength s + 1.
Proof.
  intros Hwf Hg Hgaps Hst Hlt Hl Hrun Hin Hend.
  pose proof (wf_advance g s Hwf Hg) as Hwf0.
  pose proof (proj1 (safe_Done _ _ _ _ (loop_wf e _ Hwf0) Hl)) as Hwf1.
  destruct (safe_Done _ _ _ _ (loop_PLAY_SEQUENCE e _ Hwf0 Hst) Hl)
    as (sa & Ha & Hsa & Hpos & ->).
  pose proof Hwf0 as Hp. apply wf_iff in Hp.
  destruct Hp as (Hlen & Hsl & _). unfold MAX_SEQUENCE in *.
  cbn [sequenceLength sequence advance set_clock] in Hlen, Hsl.
  pose proof (safe_Done _ _ _ _
                (addToSequence_spec e (advance g s) ltac:(cbn; lia)
                   ltac:(cbn; lia) ltac:(cbn; unfold MAX_SEQUENCE; lia)) Ha)
    as Hadd.
  cbn [sequenceLength sequence advance set_clock] in Hadd.
  destruct Hadd as [(Hcap & _) | (_ & c & k & _ & _ & _ & _ & ->)];
    [unfold MAX_SEQUENCE in Hcap; lia|].
  destruct (matching_phase e gaps (played (appended c k (advance g s))) ts
              Hwf1 Hgaps eq_refl Hrun)
    as (Hall & Hfin & Hseq & Hlen'); [|exact Hend|].
  { rewrite Hin. unfold remaining. cbn. reflexivity. }
  split; [reflexivity|]. split; [reflexivity|]. split; [reflexivity|].
  split.
  { cbn. apply take_insert_ge. lia. }
  split; [exact Hall|]. split; [exact Hfin|]. split; [exact Hseq|].
  rewrite Hlen'. reflexivity.
Qed.

Lemma matching_round_grows_witness :
  wf fresh_state /\
  gameState fresh_state = PLAY_SEQUENCE /\
  sequenceLength fresh_state < MAX_SEQUENCE /\
  loop perfect_env (advance 0 fresh_state) = Done (tt, round1_state) /\
  run perfect_env [210] round1_state = Done round1_ticks /\
  inputs round1_ticks =
    take (Z.to_nat (sequenceLength round1_state)) (sequence round1_state) /\
  ends_with_input round1_ticks = true /\
  gameState round1_state = USER_INPUT /\
  sequenceLength round1_state = sequenceLength fresh_state + 1 /\
  Forall (fun t => gameState (t_post t) <> GAME_OVER) round1_ticks /\
  gameState (final round1_state round1_ticks) = PLAY_SEQUENCE /\
  sequenceLength (final round1_state round1_ticks) = sequenceLength fresh_state + 1.
Proof.
  assert (H1 : wf fresh_state) by (vm_compute; reflexivity).
  assert (H2 : gameState fresh_state = PLAY_SEQUENCE) by (vm_compute; reflexivity).
  assert (H3 : sequenceLength fresh_state < MAX_SEQUENCE) by (vm_compute; reflexivity).
  assert (H4 : loop perfect_env (advance 0 fresh_state) = Done (tt, round1_state))
    by (apply run_single; vm_compute; reflexivity).
  assert (H5 : run perfect_env [210] round1_state = Done round1_ticks)
    by (apply run_ticks_eq; vm_compute; reflexivity).
  assert (H6 : inputs round1_ticks =
               take (Z.to_nat (sequenceLength round1_state)) (sequence round1_state))
    by (vm_compute; reflexivity).
  assert (H7 : ends_with_input round1_ticks = true) by (vm_compute; reflexivity).
  destruct (matching_round_grows perfect_env fresh_state 0 round1_state [210]
              round1_ticks H1 ltac:(lia) ltac:(repeat constructor; lia)
              H2 H3 H4 H5 H6 H7)
    as (C1 & C2 & C3 & C4 & C5 & C6 & C7 & C8).
  exact (conj H1 (conj H2 (conj H3 (conj H4 (conj H5 (conj H6 (conj H7
           (conj C1 (conj C3 (conj C5 (conj C6 C8))))))))))).
Defined.

(** C1, counterexample.  After 100 rounds won the perfect player stands in
    [PLAY_SEQUENCE] with 100 colours.  The next cycle is entered exactly
    and returns to [PLAY_SEQUENCE], yet it appended nothing: the sequence
    has 100 colours before and after, not 101. *)
Lemma capped_round_does_not_grow :
  let s := cap_state in
  let s1 := run_final perfect_env [0] s in
  let ts := run_ticks perfect_env (210 :: repeat 10 99) s1 in
  reachable perfect_env s /\
  gameState s = PLAY_SEQUENCE /\
  sequenceLength s = 100 /\
  loop perfect_env (advance 0 s) = Done (tt, s1) /\
  run perfect_env (210 :: repeat 10 99) s1 = Done ts /\
  inputs ts = take (Z.to_nat (sequenceLength s1)) (sequence s1) /\
  ends_with_input ts = true /\
  gameState (final s1 ts) = PLAY_SEQUENCE /\
  sequenceLength s1 <> sequenceLength s + 1 /\
  sequenceLength (final s1 ts) = sequenceLength s.
Proof.
  exact (cycle_check_sound perfect_env (rounds_gaps 100) (210 :: repeat 10 99)
           100 cap_check_true).
Qed.

(** C2.  In an input phase started with the cursor at 0, let the accepted
    inputs agree with the sequence on positions [0..k-1] and let the next
    one, [x], differ from the colour at position [k].  Then every earlier
    iteration stays in [USER_INPUT], and the iteration that reads [x], with
    the cursor at [k], plays the feedback of channel [x] and ends in
    [GAME_OVER].  What the environment does afterwards is irrelevant: the
    statement holds for every environment, and the iteration that follows
    does not consult it. *)
Theorem first_mismatch_ends_round e s gaps ts (k : nat) x :
  wf s -> nonneg gaps ->
  gameState s = USER_INPUT -> userInputIndex s = 0 ->
  run e gaps s = Done ts ->
  (k < Z.to_nat (sequenceLength s))%nat ->
  sequence s !! k <> Some x ->
  inputs ts = take k (sequence s) ++ [x] ->
  ends_with_input ts = true ->
  exists ts0 t j,
    ts = ts0 ++ [t] /\
    Forall (fun t0 => gameState (t_post t0) = USER_INPUT) ts0 /\
    gameState (t_pre t) = USER_INPUT /\
    userInputIndex (t_pre t) = Z.of_nat k /\
    t_in t = Some x /\
    held e x j (t_pre t) /\
    final s ts = mismatch x j (t_pre t) /\
    gameState (final s ts) = GAME_OVER /\
    outputs (final s ts) =
      color_events (clock (t_pre t) + 10 * Z.of_nat j) x ++ outputs (t_pre t) /\
    clock (final s ts) = clock (t_pre t) + 10 * Z.of_nat j + 500 /\
    forall e' g, loop e' (advance g (final s ts)) = loop e (advance g (final s ts)).
Proof.
  intros Hwf Hg Hst Hidx Hrun Hk Hx Hin Hend.
  destruct (mismatch_phase e gaps s ts k x Hwf Hg Hst Hrun)
    as (ts0 & t & j & -> & Hall & Hpre & Hcur & Htin & Hheld & Hpost);
    try assumption.
  { rewrite Hidx. change (Z.to_nat 0) with 0%nat. lia. }
  { rewrite Hidx. change (Z.to_nat 0) with 0%nat. rewrite drop_0. exact Hin. }
  exists ts0, t, j. rewrite final_snoc, Hpost.
  split; [reflexivity|]. split; [exact Hall|]. split; [exact Hpre|].
  split; [exact Hcur|]. split; [exact Htin|]. split; [exact Hheld|].
  split; [reflexivity|]. split; [reflexivity|]. split; [reflexivity|].
  split; [reflexivity|].
  intros e' g.
  transitivity ((gameOver >> put (set_gameState WAIT_FOR_START))
                  (advance g (mismatch x j (t_pre t)))).
  - apply loop_GAME_OVER_eq. reflexivity.
  - symmetry. apply loop_GAME_OVER_eq. reflexivity.
Qed.

Lemma first_mismatch_ends_round_witness :
  wf slip_state /\
  gameState slip_state = USER_INPUT /\
  userInputIndex slip_state = 0 /\
  run slip_env [210; 10] slip_state = Done slip_ticks /\
  sequence slip_state !! 1%nat <> Some 0 /\
  inputs slip_ticks = take 1 (sequence slip_state) ++ [0] /\
  ends_with_input slip_ticks = true /\
  exists ts0 t j,
    slip_ticks = ts0 ++ [t] /\
    Forall (fun t0 => gameState (t_post t0) = USER_INPUT) ts0 /\
    userInputIndex (t_pre t) = 1 /\
    t_in t = Some 0 /\
    final slip_state slip_ticks = mismatch 0 j (t_pre t) /\
    gameState (final slip_state slip_ticks) = GAME_OVER.
Proof.
  assert (H1 : wf slip_state) by (vm_compute; reflexivity).
  assert (H2 : gameState slip_state = USER_INPUT) by (vm_compute; reflexivity).
  assert (H3 : userInputIndex slip_state = 0) by (vm_compute; reflexivity).
  assert (H4 : run slip_env [210; 10] slip_state = Done slip_ticks)
    by (apply run_ticks_eq; vm_compute; reflexivity).
  assert (H5 : (1 < Z.to_nat (sequenceLength slip_state))%nat)
    by (vm_compute; lia).
  assert (H6 : sequence slip_state !! 1%nat <> Some 0)
    by (vm_compute; discriminate).
  assert (H7 : inputs slip_ticks = take 1 (sequence slip_state) ++ [0])
    by (vm_compute; reflexivity).
  assert (H8 : ends_with_input slip_ticks = true) by (vm_compute; reflexivity).
  destruct (first_mismatch_ends_round slip_env slip_state [210; 10] slip_ticks
              1 0 H1 ltac:(repeat constructor; lia) H2 H3 H4 H5 H6 H7 H8)
    as (ts0 & t & j & C1 & C2 & C3 & C4 & C5 & C6 & C7 & C8 & C9).
  refine (conj H1 (conj H2 (conj H3 (conj H4 (conj H6 (conj H7 (conj H8 _))))))).
  exists ts0, t, j.
  exact (conj C1 (conj C2 (conj C4 (conj C5 (conj C7 C8))))).
Defined.

(** C3.  On every reachable state a non-empty sequence starts with a
    channel other than the start channel 2.  An append below the maximum
    length stores at position [sequenceLength] the colour [c] taken from
    the [k]-th next value of the generator: on an empty sequence every
    earlier value was 2 and [c] is not, and the append returns as soon as
    such a value is drawn; on a non-empty sequence the very next value is
    stored, whichever of the four channels it is. *)
Theorem first_color_not_start e s :
  reachable e s ->
  (0 < sequenceLength s ->
     exists c, sequence s !! 0%nat = Some c /\ c <> 2 /\ 0 <= c < 4) /\
  (sequenceLength s < MAX_SEQUENCE ->
   (forall s',
      addToSequence e s = Done (tt, s') ->
      exists c (k : nat),
        (k < patience e)%nat /\
        s' = appended c k s /\
        c = prng e (draws s + k) mod 4 /\
        sequence s' !! Z.to_nat (sequenceLength s) = Some c /\
        sequenceLength s' = sequenceLength s + 1 /\
        (sequenceLength s = 0 ->
           c <> 2 /\
           forall j : nat, (j < k)%nat -> prng e (draws s + j) mod 4 = 2) /\
        (sequenceLength s <> 0 -> k = 0%nat)) /\
   (sequenceLength s = 0 ->
      forall k : nat,
        (k < patience e)%nat ->
        prng e (draws s + k) mod 4 <> 2 ->
        (forall j : nat, (j < k)%nat -> prng e (draws s + j) mod 4 = 2) ->
        addToSequence e s =
          Done (tt, appended (prng e (draws s + k) mod 4) k s)) /\
   (sequenceLength s <> 0 ->
      (0 < patience e)%nat ->
      addToSequence e s = Done (tt, appended (prng e (draws s) mod 4) 0 s))).
Proof.
  intros Hreach. pose proof (reachable_wf e s Hreach) as Hwf.
  pose proof Hwf as Hp. apply wf_iff in Hp.
  destruct Hp as (Hlen & Hsl & Hch & _ & _ & _ & Hfirst).
  unfold MAX_SEQUENCE in *.
  split.
  - intros Hpos.
    destruct (lookup_lt_is_Some_2 (sequence s) 0%nat) as [c Hc]; [lia|].
    exists c. split; [exact Hc|]. split.
    + intros ->. exact (Hfirst Hpos Hc).
    + apply (Hch 0%nat c); [lia | exact Hc].
  - intros Hlt. split; [|split].
    + intros s' Ha.
      pose proof (safe_Done _ _ _ _
                    (addToSequence_spec e s ltac:(lia) ltac:(lia)
                       ltac:(unfold MAX_SEQUENCE; lia)) Ha) as Hadd.
      destruct Hadd as [(Hcap & _) | (_ & c & k & Hk & Hc & Hz & Hnz & ->)];
        [unfold MAX_SEQUENCE in Hcap; lia|].
      exists c, k. split; [exact Hk|]. split; [reflexivity|].
      split; [exact Hc|]. split.
      { unfold appended. cbn. apply list_lookup_insert_eq. lia. }
      split; [reflexivity|]. split; assumption.
    + intros H0 k Hk Hne Hall.
      apply addToSequence_done; try assumption.
      * intros _. exact Hne.
      * intros _. exact Hall.
      * intros Hn. contradiction.
    + intros Hn Hp.
      pose proof (addToSequence_done e s 0 Hwf ltac:(unfold MAX_SEQUENCE; lia) Hp)
        as H.
      rewrite Nat.add_0_r in H. apply H.
      * intros H0. contradiction.
      * intros H0. contradiction.
      * reflexivity.
Qed.

Lemma first_color_not_start_witness :
  reachable perfect_env fresh_state /\
  sequenceLength fresh_state = 0 /\
  addToSequence perfect_env fresh_state =
    Done (tt, appended (prng perfect_env (draws fresh_state + 0) mod 4) 0
                fresh_state).
Proof.
  assert (H0 : sequenceLength fresh_state = 0) by (vm_compute; reflexivity).
  assert (Hlt : sequenceLength fresh_state < MAX_SEQUENCE)
    by (vm_compute; reflexivity).
  refine (conj fresh_state_reachable (conj H0 _)).
  apply (proj1 (proj2 (proj2 (first_color_not_start perfect_env fresh_state
                                 fresh_state_reachable) Hlt)) H0 0%nat).
  - vm_compute. lia.
  - vm_compute. discriminate.
  - intros j Hj. lia.
Defined.

(** C4.  On every reachable state the sequence length lies within
    [0, MAX_SEQUENCE], the buffer has [MAX_SEQUENCE] cells, and no
    iteration accesses an array outside its bounds; when buttons are
    released and the generator leaves 2 within the model's patience, every
    schedule of iterations is carried out.  At the maximum length
    [addToSequence] returns the state unchanged, the [PLAY_SEQUENCE]
    iteration plays the 100 colours and enters [USER_INPUT], and a round
    entered exactly returns to [PLAY_SEQUENCE] with the same 100 colours. *)
Theorem sequence_capped e s :
  reachable e s ->
  0 <= sequenceLength s <= MAX_SEQUENCE /\
  length (sequence s) = Z.to_nat MAX_SEQUENCE /\
  (forall g, 0 <= g -> loop e (advance g s) <> Fault) /\
  (releases e -> fair e ->
   forall gaps, nonneg gaps -> exists ts, run e gaps s = Done ts) /\
  (sequenceLength s = MAX_SEQUENCE ->
   addToSequence e s = Done (tt, s) /\
   (gameState s = PLAY_SEQUENCE ->
    forall g, 0 <= g ->
      let s1 := played (advance g s) in
      loop e (advance g s) = Done (tt, s1) /\
      gameState s1 = USER_INPUT /\
      sequenceLength s1 = MAX_SEQUENCE /\
      sequence s1 = sequence s /\
      forall gaps ts,
        nonneg gaps -> run e gaps s1 = Done ts ->
        inputs ts = take (Z.to_nat MAX_SEQUENCE) (sequence s) ->
        ends_with_input ts = true ->
        Forall (fun t => gameState (t_post t) <> GAME_OVER) ts /\
        gameState (final s1 ts) = PLAY_SEQUENCE /\
        sequenceLength (final s1 ts) = MAX_SEQUENCE /\
        sequence (final s1 ts) = sequence s)).
Proof.
  intros Hreach. pose proof (reachable_wf e s Hreach) as Hwf.
  pose proof Hwf as Hp. apply wf_iff in Hp.
  destruct Hp as (Hlen & Hsl & _).
  split; [exact Hsl|]. split; [exact Hlen|].
  split; [intros g Hg; apply loop_no_fault; assumption|].
  split; [intros Hrel Hfair gaps Hg; apply run_returns; assumption|].
  intros Hcap. split; [apply addToSequence_full; lia|].
  intros Hst g Hg. cbv zeta.
  pose proof (wf_advance g s Hwf Hg) as Hwf0.
  assert (Hl : loop e (advance g s) = Done (tt, played (advance g s))).
  { apply loop_PLAY_SEQUENCE_full; [exact Hwf0 | exact Hst | cbn; lia]. }
  split; [exact Hl|]. split; [reflexivity|]. split; [exact Hcap|].
  split; [reflexivity|].
  intros gaps ts Hgaps Hrun Hin Hend.
  pose proof (proj1 (safe_Done _ _ _ _ (loop_wf e _ Hwf0) Hl)) as Hwf1.
  destruct (matching_phase e gaps (played (advance g s)) ts Hwf1 Hgaps eq_refl Hrun)
    as (Hall & Hfin & Hseq & Hlen'); [|exact Hend|].
  { rewrite Hin. unfold remaining. cbn. rewrite Hcap. reflexivity. }
  split; [exact Hall|]. split; [exact Hfin|].
  split; [rewrite Hlen'; exact Hcap | rewrite Hseq; reflexivity].
Qed.

Lemma sequence_capped_witness :
  reachable perfect_env cap_state /\
  sequenceLength cap_state = MAX_SEQUENCE /\
  addToSequence perfect_env cap_state = Done (tt, cap_state) /\
  loop perfect_env (advance 0 cap_state) = Done (tt, played (advance 0 cap_state)) /\
  exists ts, run perfect_env (round_gaps 100) cap_state = Done ts.
Proof.
  pose proof capped_cycle_facts as (Hr & Hst & Hlen).
  pose proof (sequence_capped perfect_env cap_state Hr)
    as (_ & _ & _ & Htotal & Hcap).
  destruct (Hcap Hlen) as (Hadd & Hplay).
  destruct (Hplay Hst 0 ltac:(lia)) as (Hl & _).
  refine (conj Hr (conj Hlen (conj Hadd (conj Hl _)))).
  apply (Htotal perfect_env_releases perfect_env_fair).
  apply nonneg_check. vm_compute. reflexivity.
Defined.

(** C5 (as amended).  In [USER_INPUT], while less than the debounce interval has passed
    since the time [T] held by the debounce clock, [readButton] returns -1
    without looking at the buttons, whatever their levels, and the
    iteration leaves the whole state, game state and cursor included, as it
    was.  Consequently, in every execution from a well-formed state, the
    iterations that accept an input start at least the debounce interval
    apart. *)
Theorem debounce_ignores_early_press e s T :
  gameState s = USER_INPUT ->
  lastButtonPress s = T mod WORD ->
  0 <= clock s - T < debounceDelay ->
  readButton e s = Done (-1, s) /\
  accepted e s = None /\
  loop e s = Done (tt, s) /\
  forall s0 gaps ts1 ta ts2 tb ts3 i j,
    wf s0 -> nonneg gaps ->
    run e gaps s0 = Done (ts1 ++ ta :: ts2 ++ tb :: ts3) ->
    t_in ta = Some i -> t_in tb = Some j ->
    clock (t_pre ta) + debounceDelay <= clock (t_pre tb).
Proof.
  intros Hst Hl HT.
  assert (Hdeb : wsub (clock s mod WORD) (lastButtonPress s) < debounceDelay).
  { rewrite Hl. apply wsub_small; [exact HT | unfold debounceDelay, WORD; lia]. }
  pose proof (readButton_debounced e s Hdeb) as Hrb.
  split; [exact Hrb|]. split; [|split].
  - unfold accepted. rewrite Hst, Hrb. reflexivity.
  - unfold loop, bind at 1, get. rewrite Hst.
    rewrite (bind_eq _ _ _ _ _ Hrb). reflexivity.
  - intros s0 gaps ts1 ta ts2 tb ts3 i j Hwf Hg Hrun Ha Hb.
    exact (accepted_spacing e gaps s0 ts1 ta ts2 tb ts3 i j Hwf Hg Hrun Ha Hb).
Qed.

Lemma debounce_ignores_early_press_witness :
  gameState early_state = USER_INPUT /\
  lastButtonPress early_state = 4510 mod WORD /\
  0 <= clock early_state - 4510 < debounceDelay /\
  button perfect_env (clock early_state) 1 = LOW /\
  readButton perfect_env early_state = Done (-1, early_state) /\
  loop perfect_env early_state = Done (tt, early_state) /\
  t_in (nth 3 two_rounds no_tick) = Some 1 /\
  t_in (nth 5 two_rounds no_tick) = Some 1 /\
  clock (t_pre (nth 3 two_rounds no_tick)) + debounceDelay <=
    clock (t_pre (nth 5 two_rounds no_tick)).
Proof.
  assert (H1 : gameState early_state = USER_INPUT) by (vm_compute; reflexivity).
  assert (H2 : lastButtonPress early_state = 4510 mod WORD)
    by (vm_compute; reflexivity).
  assert (H3 : 0 <= clock early_state - 4510 < debounceDelay)
    by (vm_compute; split; [discriminate | reflexivity]).
  assert (H4 : button perfect_env (clock early_state) 1 = LOW)
    by (vm_compute; reflexivity).
  destruct (debounce_ignores_early_press perfect_env early_state 4510 H1 H2 H3)
    as (C1 & _ & C3 & C4).
  assert (Ha : t_in (nth 3 two_rounds no_tick) = Some 1) by (vm_compute; reflexivity).
  assert (Hb : t_in (nth 5 two_rounds no_tick) = Some 1) by (vm_compute; reflexivity).
  assert (Hrun : run perfect_env (rounds_gaps 2) init =
                 Done (firstn 3 two_rounds ++ nth 3 two_rounds no_tick ::
                       firstn 1 (skipn 4 two_rounds) ++
                       nth 5 two_rounds no_tick :: skipn 6 two_rounds))
    by (vm_compute; reflexivity).
  pose proof (C4 init (rounds_gaps 2) _ _ _ _ _ 1 1 wf_init
                ltac:(repeat constructor; lia) Hrun Ha Hb) as C5.
  exact (conj H1 (conj H2 (conj H3 (conj H4 (conj C1 (conj C3
           (conj Ha (conj Hb C5)))))))).
Defined.

(** C5, counterexample.  In the second round button 1 is accepted by the
    poll at 8040 ms and released at 8050 ms.  It is up until 8190 ms and
    pressed again from then on, 150 ms after the accepted press, until
    8600 ms.  The next poll, at 8550 ms when the feedback is over, does not
    ignore this second press: [readButton] returns 1, the cursor advances
    from 1 to 2 and the game state changes to [PLAY_SEQUENCE]. *)
Lemma held_early_press_is_accepted :
  let a := nth 5 double_ticks no_tick in
  let b := nth 6 double_ticks no_tick in
  run double_env double_gaps init = Done double_ticks /\
  gameState (t_pre a) = USER_INPUT /\
  clock (t_pre a) = 8040 /\
  t_in a = Some 1 /\
  lastButtonPress (t_post a) = 8040 /\
  (forall t, 8050 <= t < 8190 -> button double_env t 1 = HIGH) /\
  (forall t, 8190 <= t < 8600 -> button double_env t 1 = LOW) /\
  8190 - lastButtonPress (t_post a) < debounceDelay /\
  t_pre b = t_post a /\
  gameState (t_pre b) = USER_INPUT /\
  clock (t_pre b) = 8550 /\
  readButton double_env (t_pre b) = Done (1, pressed 5 (t_pre b)) /\
  t_in b = Some 1 /\
  userInputIndex (t_pre b) = 1 /\
  userInputIndex (t_post b) = 2 /\
  gameState (t_post b) = PLAY_SEQUENCE.
Proof.
  cbv zeta.
  assert (Hlevel : forall t,
            button double_env t 1 =
              if ((4715 <=? t) && (t <? 4730)) ||
                 ((8035 <=? t) && (t <? 8050)) ||
                 ((8190 <=? t) && (t <? 8600))
              then LOW else HIGH) by reflexivity.
  split; [apply run_ticks_eq; vm_compute; reflexivity|].
  split; [vm_compute; reflexivity|].
  split; [vm_compute; reflexivity|].
  split; [vm_compute; reflexivity|].
  split; [vm_compute; reflexivity|].
  split.
  { intros t Ht. rewrite Hlevel.
    destruct (Z.leb_spec 4715 t), (Z.ltb_spec t 4730), (Z.leb_spec 8035 t),
      (Z.ltb_spec t 8050), (Z.leb_spec 8190 t), (Z.ltb_spec t 8600);
      try lia; reflexivity. }
  split.
  { intros t Ht. rewrite Hlevel.
    destruct (Z.leb_spec 4715 t), (Z.ltb_spec t 4730), (Z.leb_spec 8035 t),
      (Z.ltb_spec t 8050), (Z.leb_spec 8190 t), (Z.ltb_spec t 8600);
      try lia; reflexivity. }
  split; [vm_compute; reflexivity|].
  split; [vm_compute; reflexivity|].
  split; [vm_compute; reflexivity|].
  split; [vm_compute; reflexivity|].
  split; [vm_compute; reflexivity|].
  split; [vm_compute; reflexivity|].
  split; [vm_compute; reflexivity|].
  split; [vm_compute; reflexivity|].
  vm_compute; reflexivity.
Qed.

(** C6 (as amended).  While the machine stays in [WAIT_FOR_START], every
    iteration toggles the LED of the start channel exactly when at least
    [interval] = 300 ms separate the clock from the stored time of the last
    toggle, which it then sets to the clock.  Over a window of [T]
    milliseconds the number [m] of toggles satisfies
    [interval * (m - 1) <= T] for every polling schedule, and
    [T < (m + 1) * (interval + d)] when no gap between two iterations
    exceeds [d]: with prompt polling the count is close to [T / interval],
    however many iterations the window holds. *)
Theorem blink_rate e s gaps ts d :
  nonneg gaps ->
  gameState s = WAIT_FOR_START ->
  run e gaps s = Done ts ->
  waiting ts ->
  Forall (fun t => t_post t = blink (t_pre t)) ts /\
  clock (final s ts) = clock s + total gaps /\
  Z.of_nat (length (outputs (final s ts))) =
    Z.of_nat (length (outputs s)) + toggle_count ts /\
  interval * (toggle_count ts - 1) <= total gaps /\
  (Forall (fun g => g <= d) gaps -> 0 <= d -> interval + d <= WORD ->
   total gaps < (toggle_count ts + 1) * (interval + d)).
Proof.
  intros Hg Hst Hrun Hw.
  destruct (waiting_run e gaps s ts Hst Hrun Hw) as (Hall & Hclk & Hout).
  split.
  { eapply Forall_impl; [exact Hall|]. intros t [_ H]. exact H. }
  split; [exact Hclk|]. split; [exact Hout|].
  split; [exact (toggles_upper e gaps s ts Hg Hst Hrun Hw)|].
  intros Hd Hd0 HW.
  exact (toggles_lower e d gaps s ts Hg Hd Hd0 HW Hst Hrun Hw).
Qed.

Lemma blink_rate_witness :
  gameState wait_state = WAIT_FOR_START /\
  run quiet_env (repeat 10 100) wait_state = Done prompt_ticks /\
  waiting prompt_ticks /\
  total (repeat 10 100) = 1000 /\
  toggle_count prompt_ticks = 4 /\
  interval * (toggle_count prompt_ticks - 1) <= total (repeat 10 100) /\
  total (repeat 10 100) < (toggle_count prompt_ticks + 1) * (interval + 10).
Proof.
  assert (H1 : gameState wait_state = WAIT_FOR_START) by (vm_compute; reflexivity).
  assert (H2 : run quiet_env (repeat 10 100) wait_state = Done prompt_ticks)
    by (apply run_ticks_eq; vm_compute; reflexivity).
  assert (H3 : waiting prompt_ticks)
    by (apply waitingb_waiting; vm_compute; reflexivity).
  assert (H4 : total (repeat 10 100) = 1000) by (vm_compute; reflexivity).
  assert (H5 : toggle_count prompt_ticks = 4) by (vm_compute; reflexivity).
  assert (Hg : nonneg (repeat 10 100)).
  { apply Forall_forall. intros g Hin.
    apply list_elem_of_In, repeat_spec in Hin. lia. }
  assert (Hd : Forall (fun g => g <= 10) (repeat 10 100)).
  { apply Forall_forall. intros g Hin.
    apply list_elem_of_In, repeat_spec in Hin. lia. }
  destruct (blink_rate quiet_env wait_state (repeat 10 100) prompt_ticks 10
              Hg H1 H2 H3) as (_ & _ & _ & C4 & C5).
  exact (conj H1 (conj H2 (conj H3 (conj H4 (conj H5 (conj C4
           (C5 Hd ltac:(lia) ltac:(unfold interval, WORD; lia)))))))).
Defined.

(** C6, counterexample.  Polled once after 30 seconds the LED toggles once,
    where [T / interval] is 100; polled every 299 ms for 5980 ms it toggles
    10 times, on every second iteration, where [T / interval] is 19. *)
Lemma blink_rate_depends_on_polling :
  let slow := run_ticks quiet_env [30000] wait_state in
  let odd := run_ticks quiet_env (repeat 299 20) wait_state in
  reachable quiet_env wait_state /\
  gameState wait_state = WAIT_FOR_START /\
  run quiet_env [30000] wait_state = Done slow /\
  waiting slow /\
  toggle_count slow = 1 /\
  total [30000] / interval = 100 /\
  run quiet_env (repeat 299 20) wait_state = Done odd /\
  waiting odd /\
  toggle_count odd = 10 /\
  total (repeat 299 20) / interval = 19.
Proof.
  cbv zeta.
  split; [apply reachable_run; vm_compute; reflexivity|].
  split; [vm_compute; reflexivity|].
  split; [apply run_ticks_eq; vm_compute; reflexivity|].
  split; [apply waitingb_waiting; vm_compute; reflexivity|].
  split; [vm_compute; reflexivity|].
  split; [vm_compute; reflexivity|].
  split; [apply run_ticks_eq; vm_compute; reflexivity|].
  split; [apply waitingb_waiting; vm_compute; reflexivity|].
  split; [vm_compute; reflexivity|].
  vm_compute; reflexivity.
Qed.

(** C7.  A call of [readButton] that reports button [i] saw it down at
    every sample, ten milliseconds apart, from the call until the first
    sample that finds it up, and returns at that sample: on return the
    button is released, and a call made in the returned state cannot report
    the same button again.  Conversely the call returns as soon as the
    button is sampled up and hangs while it stays down.
    [waitForStartButton] follows the same protocol on the start button, and
    it neither reads nor writes the debounce clock: a start press is
    accepted whatever [lastButtonPress] holds. *)
Theorem release_protocol e s :
  (forall i s',
     readButton e s = Done (i, s') -> i <> -1 ->
     0 <= i < 4 /\
     exists k : nat,
       held e i k s /\ s' = pressed k s /\
       clock s' = clock s + 10 * Z.of_nat k /\
       button e (clock s') i = HIGH /\
       forall j s'', readButton e s' = Done (j, s'') -> j <> i) /\
  (forall i,
     0 <= i < 4 ->
     debounceDelay <= wsub (clock s mod WORD) (lastButtonPress s) ->
     first_low e (clock s) i ->
     (forall k, held e i k s -> readButton e s = Done (i, pressed k s)) /\
     ((forall j : nat, (j < patience e)%nat ->
         button e (clock s + 10 * Z.of_nat j) i = LOW) ->
      readButton e s = Hang)) /\
  (forall s',
     waitForStartButton e s = Done (true, s') ->
     exists k : nat,
       held e 2 k s /\
       s' = set_clock (clock s + 10 * Z.of_nat k) (blink s) /\
       button e (clock s') 2 = HIGH) /\
  (forall k,
     held e 2 k s ->
     waitForStartButton e s =
       Done (true, set_clock (clock s + 10 * Z.of_nat k) (blink s)) /\
     (gameState s = WAIT_FOR_START -> loop e s = Done (tt, started k s))) /\
  ((0 < patience e)%nat ->
   (forall j : nat, (j < patience e)%nat ->
      button e (clock s + 10 * Z.of_nat j) 2 = LOW) ->
   waitForStartButton e s = Hang) /\
  (forall v,
     waitForStartButton e (set_lastButtonPress v s) =
     then_state (set_lastButtonPress v) (waitForStartButton e s)).
Proof.
  split; [|split; [|split; [|split; [|split]]]].
  - intros i s' Hr Hi.
    destruct (safe_Done _ _ _ _ (readButton_spec e s) Hr)
      as [(-> & _) | (Hrange & _ & k & Hheld & ->)]; [contradiction|].
    split; [exact Hrange|]. exists k.
    split; [exact Hheld|]. split; [reflexivity|]. split; [reflexivity|].
    destruct Hheld as (_ & _ & Hh & _).
    split; [exact Hh|].
    intros j s'' Hr'.
    destruct (safe_Done _ _ _ _ (readButton_spec e (pressed k s)) Hr')
      as [(-> & _) | (_ & _ & k' & (Hlow & _) & _)]; [lia|].
    intros ->. cbn [clock pressed set_clock] in Hlow. congruence.
  - intros i Hi Hdeb Hfl. split.
    + intros k Hheld. apply readButton_done; assumption.
    + intros Hl. apply (readButton_hang e s i); assumption.
  - intros s' Hw.
    destruct (safe_Done _ _ _ _ (waitForStartButton_spec e s) Hw)
      as [(Hb & _) | (_ & k & Hheld & ->)]; [discriminate|].
    exists k. split; [exact Hheld|]. split; [reflexivity|].
    destruct Hheld as (_ & _ & Hh & _). exact Hh.
  - intros k Hheld.
    pose proof (waitForStartButton_done e s k Hheld) as Hw.
    split; [exact Hw|].
    intros Hst. unfold loop, bind at 1, get. rewrite Hst.
    rewrite (bind_eq _ _ _ _ _ Hw).
    unfold started, blink. destruct (toggles s); reflexivity.
  - intros Hp Hl. apply waitForStartButton_hang; assumption.
  - intros v. apply waitForStartButton_lastButtonPress.
Qed.

Lemma release_protocol_witness :
  wsub (clock restart_state mod WORD) (lastButtonPress restart_state)
    < debounceDelay /\
  held hold_env 2 3 restart_state /\
  waitForStartButton hold_env restart_state =
    Done (true, set_clock (clock restart_state + 10 * Z.of_nat 3)
                  (blink restart_state)) /\
  loop hold_env restart_state = Done (tt, started 3 restart_state) /\
  first_low hold_env (clock polling_state) 1 /\
  held hold_env 1 4 polling_state /\
  readButton hold_env polling_state = Done (1, pressed 4 polling_state).
Proof.
  assert (H1 : wsub (clock restart_state mod WORD) (lastButtonPress restart_state)
               < debounceDelay) by (vm_compute; reflexivity).
  assert (H2 : held hold_env 2 3 restart_state).
  { split; [vm_compute; reflexivity|]. split; [vm_compute; lia|].
    split; [vm_compute; reflexivity|].
    intros [|[|[|j]]] Hj; try (vm_compute; reflexivity). lia. }
  assert (H3 : first_low hold_env (clock polling_state) 1).
  { split; [vm_compute; reflexivity|]. intros j Hj.
    replace j with 0 by lia. vm_compute. reflexivity. }
  assert (H4 : held hold_env 1 4 polling_state).
  { split; [vm_compute; reflexivity|]. split; [vm_compute; lia|].
    split; [vm_compute; reflexivity|].
    intros [|[|[|[|j]]]] Hj; try (vm_compute; reflexivity). lia. }
  assert (H5 : debounceDelay <=
               wsub (clock polling_state mod WORD) (lastButtonPress polling_state))
    by (vm_compute; discriminate).
  pose proof (release_protocol hold_env restart_state) as (_ & _ & _ & C4 & _).
  pose proof (release_protocol hold_env polling_state) as (_ & C2 & _).
  destruct (C4 3%nat H2) as (D1 & D2).
  exact (conj H1 (conj H2 (conj D1 (conj (D2 eq_refl) (conj H3 (conj H4
           (proj1 (C2 1 ltac:(lia) H5 H3) 4%nat H4))))))).
Defined.

(** C8.  The debounce interval is 200 ms.  [playColor] switches the LED on
    and starts a 500 ms tone at the same instant, and switches the LED off
    500 ms later.  [playSequence] starts the [j]-th colour
    [(500 + 300) * j] ms after its own start, so 300 ms separate the end of
    one colour from the start of the next.  The [USER_INPUT] iteration that
    completes the sequence ends 500 ms of feedback plus 1000 ms of pause
    after the release of the button. *)
Theorem timing_constants e s index :
  wf s -> 0 <= index < 4 ->
  debounceDelay = 200 /\
  playColor index s =
    Done (tt, world (clock s + 500)
                ([(clock s + 500,
                   DigitalWrite (nth (Z.to_nat index) LED_PINS 0) LOW);
                  (clock s,
                   Tone BUZZER_PIN (nth (Z.to_nat index) TONES 0) 500);
                  (clock s,
                   DigitalWrite (nth (Z.to_nat index) LED_PINS 0) HIGH)]
                 ++ outputs s) s) /\
  (let cs := take (Z.to_nat (sequenceLength s)) (sequence s) in
   playSequence s =
     Done (tt, world (clock s + (500 + 300) * sequenceLength s)
                 (playback_events (clock s) cs ++ outputs s) s) /\
   forall (j : nat) c,
     cs !! j = Some c ->
     let t0 := clock s + (500 + 300) * Z.of_nat j in
     In (t0, DigitalWrite (nth (Z.to_nat c) LED_PINS 0) HIGH)
        (playback_events (clock s) cs) /\
     In (t0, Tone BUZZER_PIN (nth (Z.to_nat c) TONES 0) 500)
        (playback_events (clock s) cs) /\
     In (t0 + 500, DigitalWrite (nth (Z.to_nat c) LED_PINS 0) LOW)
        (playback_events (clock s) cs)) /\
  (forall s',
     gameState s = USER_INPUT ->
     loop e s = Done (tt, s') ->
     gameState s' = PLAY_SEQUENCE ->
     exists i (k : nat),
       held e i k s /\ s' = completed i k s /\
       clock s' = clock s + 10 * Z.of_nat k + 500 + 1000).
Proof.
  intros Hwf Hi.
  split; [reflexivity|].
  split; [exact (playColor_eq index s Hi)|].
  split.
  - cbv zeta. split; [exact (playSequence_eq s Hwf)|].
    intros j c Hj. exact (playback_events_nth _ (clock s) j c Hj).
  - intros s' Hst Hl Hplay.
    destruct (safe_Done _ _ _ _ (loop_USER_INPUT e s Hwf Hst) Hl)
      as [(_ & ->) | (i & k & x & _ & _ & _ & Hheld & _ & Hcase)];
      [congruence|].
    destruct Hcase as [(_ & ->) | [(_ & _ & ->) | (_ & _ & ->)]].
    + discriminate.
    + cbn in Hplay. congruence.
    + exists i, k. split; [exact Hheld|]. split; reflexivity.
Qed.

Lemma timing_constants_witness :
  wf slip_state /\
  sequenceLength slip_state = 2 /\
  playColor 1 slip_state =
    Done (tt, world (clock slip_state + 500)
                ([(clock slip_state + 500, DigitalWrite 4 LOW);
                  (clock slip_state, Tone BUZZER_PIN 209 500);
                  (clock slip_state, DigitalWrite 4 HIGH)]
                 ++ outputs slip_state) slip_state) /\
  playSequence slip_state =
    Done (tt, world (clock slip_state + (500 + 300) * sequenceLength slip_state)
                (playback_events (clock slip_state)
                   (take (Z.to_nat (sequenceLength slip_state))
                      (sequence slip_state))
                 ++ outputs slip_state) slip_state).
Proof.
  assert (H1 : wf slip_state) by (vm_compute; reflexivity).
  assert (H2 : sequenceLength slip_state = 2) by (vm_compute; reflexivity).
  destruct (timing_constants slip_env slip_state 1 H1 ltac:(lia))
    as (_ & C2 & (C3 & _) & _).
  exact (conj H1 (conj H2 (conj C2 C3))).
Defined.

(** C9.  On every reachable state: a [PLAY_SEQUENCE] iteration enters
    [USER_INPUT] with the cursor at 0 and a non-empty sequence; in
    [USER_INPUT] the cursor satisfies [0 <= userInputIndex <
    sequenceLength <= MAX_SEQUENCE], so [sequence[userInputIndex]] is a
    cell of the buffer and the iteration does not fault; and an iteration
    of [USER_INPUT] either stays there with the cursor still below the
    length, or leaves for [PLAY_SEQUENCE] with the cursor at the length, or
    leaves for [GAME_OVER]. *)
Theorem cursor_in_bounds e s :
  reachable e s ->
  (gameState s = PLAY_SEQUENCE ->
   forall g s', 0 <= g -> loop e (advance g s) = Done (tt, s') ->
     gameState s' = USER_INPUT /\ userInputIndex s' = 0 /\
     0 < sequenceLength s') /\
  (gameState s = USER_INPUT ->
   0 <= userInputIndex s < sequenceLength s /\
   sequenceLength s <= MAX_SEQUENCE /\
   is_Some (sequence s !! Z.to_nat (userInputIndex s)) /\
   forall g, 0 <= g ->
     loop e (advance g s) <> Fault /\
     forall s', loop e (advance g s) = Done (tt, s') ->
       sequenceLength s' = sequenceLength s /\
       ((gameState s' = USER_INPUT /\
         userInputIndex s <= userInputIndex s' <= userInputIndex s + 1 /\
         userInputIndex s' < sequenceLength s') \/
        (gameState s' = PLAY_SEQUENCE /\
         userInputIndex s' = userInputIndex s + 1 /\
         userInputIndex s' = sequenceLength s') \/
        gameState s' = GAME_OVER)).
Proof.
  intros Hreach. pose proof (reachable_wf e s Hreach) as Hwf.
  pose proof Hwf as Hp. apply wf_iff in Hp.
  destruct Hp as (Hlen & Hsl & _ & Hidx & Hui & _).
  split.
  - intros Hst g s' Hg Hl.
    pose proof (wf_advance g s Hwf Hg) as Hwf0.
    destruct (safe_Done _ _ _ _ (loop_PLAY_SEQUENCE e _ Hwf0 Hst) Hl)
      as (sa & _ & _ & Hpos & ->).
    split; [reflexivity|]. split; [reflexivity | exact Hpos].
  - intros Hst. specialize (Hui Hst).
    split; [lia|]. split; [lia|]. split.
    { apply lookup_lt_is_Some_2. unfold MAX_SEQUENCE in *. lia. }
    intros g Hg. split; [apply loop_no_fault; assumption|].
    intros s' Hl.
    pose proof (wf_advance g s Hwf Hg) as Hwf0.
    destruct (safe_Done _ _ _ _ (loop_USER_INPUT e _ Hwf0 Hst) Hl)
      as [(_ & ->) | (i & k & x & _ & _ & _ & _ & _ & Hcase)].
    + split; [reflexivity|]. left. cbn. split; [exact Hst | lia].
    + cbn [userInputIndex sequenceLength advance set_clock] in Hcase.
      destruct Hcase as [(_ & ->) | [(_ & Hlt & ->) | (_ & Hle & ->)]].
      * split; [reflexivity|]. right. right. reflexivity.
      * split; [reflexivity|]. left. cbn. split; [exact Hst | lia].
      * split; [reflexivity|]. right. left. cbn.
        split; [reflexivity|]. split; [reflexivity | lia].
Qed.

Lemma cursor_in_bounds_witness :
  reachable slip_env slip_state /\
  gameState slip_state = USER_INPUT /\
  0 <= userInputIndex slip_state < sequenceLength slip_state /\
  is_Some (sequence slip_state !! Z.to_nat (userInputIndex slip_state)).
Proof.
  assert (Hst : gameState slip_state = USER_INPUT) by (vm_compute; reflexivity).
  destruct (proj2 (cursor_in_bounds slip_env slip_state slip_state_reachable) Hst)
    as (H1 & _ & H3 & _).
  exact (conj slip_state_reachable (conj Hst (conj H1 H3))).
Defined.

(** C10.  [gameOver] changes the clock and the output log and nothing
    else.  From a [GAME_OVER] state, as long as no iteration ends in
    [PLAY_SEQUENCE], every iteration leaves the machine in [GAME_OVER] or
    [WAIT_FOR_START] with the buffer and the length of the lost round; an
    iteration of [WAIT_FOR_START] that ends in [PLAY_SEQUENCE] saw the
    start button down, resets the length to 0 and still leaves the buffer
    cells as they were. *)
Theorem sequence_survives_game_over e s :
  gameState s = GAME_OVER ->
  (exists o, gameOver s = Done (tt, world (clock s + 2500) o s)) /\
  (exists o,
     loop e s = Done (tt, set_gameState WAIT_FOR_START
                            (world (clock s + 2500) o s))) /\
  (forall gaps ts,
     run e gaps s = Done ts ->
     Forall (fun t => gameState (t_post t) <> PLAY_SEQUENCE) ts ->
     Forall (fun t => idle (t_post t) /\
                      sequence (t_post t) = sequence s /\
                      sequenceLength (t_post t) = sequenceLength s) ts) /\
  (forall w w',
     gameState w = WAIT_FOR_START ->
     loop e w = Done (tt, w') ->
     sequence w' = sequence w /\
     ((gameState w' = WAIT_FOR_START /\ sequenceLength w' = sequenceLength w) \/
      (gameState w' = PLAY_SEQUENCE /\ sequenceLength w' = 0 /\
       exists k, held e 2 k w))).
Proof.
  intros Hst.
  split.
  { destruct (gameOver_eq s) as (c & o & Hg & ->). exists o. exact Hg. }
  split; [exact (loop_GAME_OVER e s Hst)|].
  split.
  { intros gaps ts Hrun Hno.
    exact (idle_run e gaps s ts (or_introl Hst) Hrun Hno). }
  intros w w' Hw Hl.
  destruct (idle_tick e w w' (or_intror Hw) Hl)
    as [Hseq [([Hgo | Hws] & Hlen) | (_ & Hplay & H0 & Hheld)]].
  - exfalso.
    destruct (safe_Done _ _ _ _ (loop_WAIT_FOR_START e w Hw) Hl)
      as [(_ & ->) | (k & _ & ->)].
    + rewrite gameState_blink in Hgo. congruence.
    + discriminate.
  - split; [exact Hseq|]. left. split; assumption.
  - split; [exact Hseq|]. right. split; [exact Hplay|]. split; assumption.
Qed.

Lemma sequence_survives_game_over_witness :
  gameState lost_state = GAME_OVER /\
  sequenceLength lost_state = 2 /\
  run slip_env [0; 50; 50] lost_state = Done lost_ticks /\
  Forall (fun t => idle (t_post t) /\
                   sequence (t_post t) = sequence lost_state /\
                   sequenceLength (t_post t) = sequenceLength lost_state)
    lost_ticks.
Proof.
  assert (H1 : gameState lost_state = GAME_OVER) by (vm_compute; reflexivity).
  assert (H2 : sequenceLength lost_state = 2) by (vm_compute; reflexivity).
  assert (H3 : run slip_env [0; 50; 50] lost_state = Done lost_ticks)
    by (apply run_ticks_eq; vm_compute; reflexivity).
  assert (H4 : Forall (fun t => gameState (t_post t) <> PLAY_SEQUENCE) lost_ticks).
  { apply Forall_forall. intros t Hin.
    assert (Hw : waiting lost_ticks)
      by (apply waitingb_waiting; vm_compute; reflexivity).
    unfold waiting in Hw. rewrite Forall_forall in Hw.
    rewrite (Hw t Hin). discriminate. }
  destruct (sequence_survives_game_over slip_env lost_state H1)
    as (_ & _ & C3 & _).
  exact (conj H1 (conj H2 (conj H3 (C3 _ _ H3 H4)))).
Defined.

(** * Further properties *)

(** ** Iterations as transitions *)

Lemma welcomeSequence_log s :
  welcomeSequence s =
    Done (tt, world (clock s + 3200) (welcome_log (clock s) ++ outputs s) s).
Proof.
  destruct (welcomeSequence_eq s) as (c & o & Hw & Hc).
  assert (H : exists c', welcomeSequence s =
                Done (tt, world c' (welcome_log (clock s) ++ outputs s) s)).
  { destruct s. eexists. cbv -[Z.add]. reflexivity. }
  destruct H as [c' H]. rewrite H in Hw |- *.
  inversion Hw; subst. reflexivity.
Qed.

Lemma gameOver_log_eq s :
  gameOver s =
    Done (tt, world (clock s + 2500) (gameOver_log (clock s) ++ outputs s) s).
Proof.
  destruct (gameOver_eq s) as (c & o & Hw & Hc).
  assert (H : exists c', gameOver s =
                Done (tt, world c' (gameOver_log (clock s) ++ outputs s) s)).
  { destruct s. eexists. cbv -[Z.add]. reflexivity. }
  destruct H as [c' H]. rewrite H in Hw |- *.
  inversion Hw; subst. reflexivity.
Qed.

Lemma loop_step e s s' : wf s -> loop e s = Done (tt, s') -> step e s s'.
Proof.
  intros Hwf Hl.
  pose proof Hwf as Hp. apply wf_iff in Hp.
  destruct Hp as (Hlen & Hsl & _). unfold MAX_SEQUENCE in Hsl.
  destruct (gameState s) eqn:Hst.
  - unfold loop, bind at 1, get in Hl. rewrite Hst in Hl.
    rewrite (bind_eq _ _ _ _ _ (welcomeSequence_log s)) in Hl.
    inversion Hl; subst. apply step_welcome. exact Hst.
  - destruct (safe_Done _ _ _ _ (loop_WAIT_FOR_START e s Hst) Hl)
      as [(Hb & ->) | (k & Hheld & ->)].
    + apply step_wait; assumption.
    + apply step_start; assumption.
  - destruct (safe_Done _ _ _ _ (loop_PLAY_SEQUENCE e s Hwf Hst) Hl)
      as (sa & Ha & _ & _ & ->).
    pose proof (safe_Done _ _ _ _
                  (addToSequence_spec e s ltac:(lia) ltac:(lia)
                     ltac:(unfold MAX_SEQUENCE; lia)) Ha) as Hadd.
    destruct Hadd as [(Hcap & ->) | (Hlt & c & k & Hk & Hc & Hz & Hnz & ->)].
    + apply step_play_full; assumption.
    + apply step_play; assumption.
  - destruct (safe_Done _ _ _ _ (loop_USER_INPUT e s Hwf Hst) Hl)
      as [(Hacc & ->) | (i & k & x & Hacc & Hi & Hdeb & Hheld & Hx & Hcase)].
    + apply step_poll; assumption.
    + pose proof (step_input e s i k x Hst Hacc Hi Hdeb Hheld Hx) as Hs.
      destruct Hcase as [(Hne & ->) | [(-> & Hlt & ->) | (-> & Hle & ->)]].
      * destruct (Z.eqb_spec i x); [contradiction | exact Hs].
      * rewrite Z.eqb_refl in Hs. cbn [negb] in Hs.
        destruct (Z.leb_spec (sequenceLength s) (userInputIndex s + 1));
          [lia | exact Hs].
      * rewrite Z.eqb_refl in Hs. cbn [negb] in Hs.
        destruct (Z.leb_spec (sequenceLength s) (userInputIndex s + 1));
          [exact Hs | lia].
  - unfold loop, bind at 1, get in Hl. rewrite Hst in Hl.
    rewrite (bind_eq _ _ _ _ _ (gameOver_log_eq s)) in Hl.
    inversion Hl; subst. apply step_over. exact Hst.
Qed.

(** A property kept by the passing of time and by every transition holds
    throughout every execution. *)
Lemma run_invariant e (P : State -> Prop) :
  (forall g s, 0 <= g -> wf s -> P s -> P (advance g s)) ->
  (forall s s', wf s -> P s -> step e s s' -> P s') ->
  forall gaps s ts,
    wf s -> P s -> nonneg gaps -> run e gaps s = Done ts ->
    Forall (fun t => P (t_pre t) /\ P (t_post t)) ts /\ P (final s ts).
Proof.
  intros Hadv Hstep.
  induction gaps as [|g gaps IH]; intros s ts Hwf HP Hg Hrun.
  - inversion Hrun; subst. split; [constructor | exact HP].
  - inversion Hg as [|? ? Hg0 Hgs]; subst.
    destruct (run_cons _ _ _ _ _ Hrun) as (s1 & ts' & Hl & Hr & ->).
    pose proof (wf_advance g s Hwf Hg0) as Hwf0.
    pose proof (proj1 (safe_Done _ _ _ _ (loop_wf e _ Hwf0) Hl)) as Hwf1.
    pose proof (Hadv g s Hg0 Hwf HP) as HP0.
    pose proof (Hstep _ _ Hwf0 HP0 (loop_step e _ _ Hwf0 Hl)) as HP1.
    destruct (IH s1 ts' Hwf1 HP1 Hgs Hr) as [Hall Hfin].
    rewrite final_cons. split; [|exact Hfin].
    constructor; [cbn [t_pre t_post]; auto | exact Hall].
Qed.

Lemma reachable_invariant e (P : State -> Prop) :
  P init ->
  (forall g s, 0 <= g -> wf s -> P s -> P (advance g s)) ->
  (forall s s', wf s -> P s -> step e s s' -> P s') ->
  forall s, reachable e s -> P s.
Proof.
  intros Hinit Hadv Hstep s (gaps & ts & Hg & Hrun & <-).
  exact (proj2 (run_invariant e P Hadv Hstep gaps init ts wf_init Hinit Hg Hrun)).
Qed.

(** ** What the pins show between iterations *)

Lemma lit_color_events p t i old :
  lit p old = false -> lit p (color_events t i ++ old) = false.
Proof.
  intros H. unfold color_events. cbn [app lit].
  destruct (nth (Z.to_nat i) LED_PINS 0 =? p); [reflexivity | exact H].
Qed.

Lemma lit_playback_events p cs :
  forall t old,
    lit p old = false -> lit p (playback_events t cs ++ old) = false.
Proof.
  induction cs as [|c cs IH]; intros t old H; [exact H|].
  cbn [playback_events]. rewrite <- app_assoc.
  apply IH. apply lit_color_events. exact H.
Qed.

Lemma sounding_later log :
  forall now now',
    now <= now' -> sounding now log = false -> sounding now' log = false.
Proof.
  induction log as [|[t ev] log IH]; intros now now' Hle H; [reflexivity|].
  destruct ev as [p v | p f d | p]; cbn [sounding] in *.
  - eapply IH; eassumption.
  - destruct (p =? BUZZER_PIN); [|eapply IH; eassumption].
    apply Z.ltb_ge in H. apply Z.ltb_ge. lia.
  - destruct (p =? BUZZER_PIN); [reflexivity | eapply IH; eassumption].
Qed.

Lemma sounding_color_events now t i old :
  t + 500 <= now -> sounding now (color_events t i ++ old) = false.
Proof.
  intros H. unfold color_events. cbn [app sounding].
  change (BUZZER_PIN =? BUZZER_PIN) with true. cbn iota.
  apply Z.ltb_ge. exact H.
Qed.

Lemma sounding_playback_events now cs :
  forall t old,
    t + 800 * Z.of_nat (length cs) <= now ->
    sounding now old = false ->
    sounding now (playback_events t cs ++ old) = false.
Proof.
  induction cs as [|c cs IH]; intros t old Ht H; [exact H|].
  cbn [playback_events]. rewrite <- app_assoc. cbn [length] in Ht.
  apply IH; [lia|]. apply sounding_color_events. lia.
Qed.

Lemma quiet_animation (log : Z -> list (Z * Event)) t old now :
  (lit 3 (log t ++ old) = false /\ lit 4 (log t ++ old) = false /\
   lit 5 (log t ++ old) = false /\ lit 6 (log t ++ old) = false /\
   sounding now (log t ++ old) = false) ->
  forall s, outputs s = log t ++ old -> clock s = now ->
            quiet s.
Proof.
  intros (H3 & H4 & H5 & H6 & Hs) s Ho Hc. unfold quiet. rewrite Ho, Hc.
  split; [exact H3|]. split; [exact H4|]. split; [exact H6|].
  split; [rewrite H5; discriminate | exact Hs].
Qed.

Lemma quiet_welcomed s : quiet (welcomed s).
Proof.
  apply (quiet_animation welcome_log (clock s) (outputs s) (clock s + 3200));
    [|reflexivity|reflexivity].
  destruct s. cbv -[Z.add]. repeat split; reflexivity.
Qed.

Lemma quiet_lost s : quiet (lost s).
Proof.
  apply (quiet_animation gameOver_log (clock s) (outputs s) (clock s + 2500));
    [|reflexivity|reflexivity].
  destruct s. cbv -[Z.add]. repeat split; reflexivity.
Qed.

Lemma quiet_advance g s : 0 <= g -> quiet s -> quiet (advance g s).
Proof.
  intros Hg (H3 & H4 & H6 & H5 & Hs). unfold quiet.
  cbn [outputs clock gameState ledState advance set_clock].
  repeat (split; [assumption|]).
  apply (sounding_later _ (clock s)); [lia | exact Hs].
Qed.

Lemma quiet_blink s :
  gameState s = WAIT_FOR_START -> quiet s -> quiet (blink s).
Proof.
  intros Hst (H3 & H4 & H6 & H5 & Hs). unfold blink.
  destruct (toggles s); [|unfold quiet; auto].
  unfold quiet.
  cbn [outputs clock gameState ledState set_outputs set_ledState
         set_previousMillis lit sounding].
  change (5 =? 3) with false. change (5 =? 4) with false.
  change (5 =? 6) with false. change (5 =? 5) with true. cbn iota.
  repeat (split; [assumption|]).
  split; [|exact Hs].
  destruct (ledState s); cbn; [discriminate | auto].
Qed.

(** Feedback or playback given in a state whose start LED is dark. *)
Lemma quiet_after_colors s s' new :
  quiet s -> gameState s <> WAIT_FOR_START ->
  outputs s' = new ++ outputs s ->
  (forall p, lit p (outputs s) = false -> lit p (new ++ outputs s) = false) ->
  sounding (clock s') (new ++ outputs s) = false ->
  quiet s'.
Proof.
  intros (H3 & H4 & H6 & H5 & Hs) Hst Ho Hlit Hsnd. unfold quiet. rewrite Ho.
  assert (H5' : lit 5 (outputs s) = false).
  { destruct (lit 5 (outputs s)); [|reflexivity].
    destruct (H5 eq_refl) as [Hw _]. contradiction. }
  split; [apply Hlit; exact H3|]. split; [apply Hlit; exact H4|].
  split; [apply Hlit; exact H6|].
  split; [rewrite (Hlit 5 H5'); discriminate | exact Hsnd].
Qed.

Lemma quiet_played s : wf s -> quiet s -> gameState s = PLAY_SEQUENCE ->
  quiet (played s).
Proof.
  intros Hwf Hq Hst.
  apply (quiet_after_colors s _
           (playback_events (clock s)
              (take (Z.to_nat (sequenceLength s)) (sequence s))));
    [exact Hq | rewrite Hst; discriminate | reflexivity | |].
  - intros p Hp. apply lit_playback_events. exact Hp.
  - destruct Hq as (_ & _ & _ & _ & Hs).
    apply wf_iff in Hwf. destruct Hwf as (Hlen & Hsl & _).
    unfold MAX_SEQUENCE in Hsl.
    cbn [clock played world set_gameState set_lastButtonPress
           set_userInputIndex set_outputs set_clock].
    apply sounding_playback_events.
    + rewrite length_take. lia.
    + apply (sounding_later _ (clock s)); [lia | exact Hs].
Qed.

Lemma quiet_step e s s' : wf s -> quiet s -> step e s s' -> quiet s'.
Proof.
  intros Hwf Hq Hstep.
  destruct Hstep as [Hst | Hst Hb | k Hst Hheld | Hst Hcap
                     | c k Hst Hlt Hk Hc Hz Hnz | Hst Hacc
                     | i k x Hst Hacc Hi Hdeb Hheld Hx | Hst].
  - apply quiet_welcomed.
  - apply quiet_blink; assumption.
  - pose proof (quiet_blink s Hst Hq) as (H3 & H4 & H6 & H5 & Hs).
    unfold quiet, started.
    cbn [outputs clock gameState ledState set_outputs set_clock world
           set_gameState set_sequenceLength lit sounding].
    change (5 =? 3) with false. change (5 =? 4) with false.
    change (5 =? 6) with false. change (5 =? 5) with true. cbn iota.
    repeat (split; [assumption|]).
    split; [discriminate|].
    apply (sounding_later _ (clock (blink s))); [|exact Hs].
    rewrite clock_blink. lia.
  - apply quiet_played; assumption.
  - assert (Hwfa : wf (appended c k s)).
    { apply wf_appended; [assumption | assumption | |].
      - subst c. apply mod4_range.
      - intros H0. apply (Hz H0). }
    apply quiet_played; [exact Hwfa | exact Hq | exact Hst].
  - exact Hq.
  - assert (Hpost : forall s1,
              outputs s1 = color_events (clock s + 10 * Z.of_nat k) i ++ outputs s ->
              clock s + 10 * Z.of_nat k + 500 <= clock s1 ->
              quiet s1).
    { intros s1 Ho Hc.
      apply (quiet_after_colors s s1
               (color_events (clock s + 10 * Z.of_nat k) i) Hq);
        [rewrite Hst; discriminate | exact Ho | |].
      - intros p Hp. apply lit_color_events. exact Hp.
      - apply sounding_color_events. exact Hc. }
    destruct (negb (i =? x)); [|destruct (sequenceLength s <=? userInputIndex s + 1)];
      apply Hpost; try reflexivity; cbn; lia.
  - apply quiet_lost.
Qed.

Lemma quiet_init : quiet init.
Proof.
  unfold quiet. cbn.
  split; [reflexivity|]. split; [reflexivity|]. split; [reflexivity|].
  split; [discriminate | reflexivity].
Qed.

(** X2.  On every reachable state, that is between any two iterations of
    [loop], the LEDs of channels 0, 1 and 3 are off and the buzzer is
    silent: every animation, playback and feedback switches off what it
    switched on before it returns.  The LED of the start channel can be lit
    only in [WAIT_FOR_START], and then [ledState] is set. *)
Theorem leds_off_between_iterations e s :
  reachable e s ->
  (forall i, 0 <= i < 4 -> i <> 2 ->
     lit (nth (Z.to_nat i) LED_PINS 0) (outputs s) = false) /\
  (lit (nth 2 LED_PINS 0) (outputs s) = true ->
   gameState s = WAIT_FOR_START /\ ledState s = true) /\
  sounding (clock s) (outputs s) = false.
Proof.
  intros Hreach.
  assert (Hq : quiet s).
  { apply (reachable_invariant e quiet quiet_init); [| |exact Hreach].
    - intros g s0 Hg _ H. apply quiet_advance; assumption.
    - intros s0 s1 Hwf H Hs. exact (quiet_step e s0 s1 Hwf H Hs). }
  destruct Hq as (H3 & H4 & H6 & H5 & Hs).
  split; [|split; [exact H5 | exact Hs]].
  intros i Hi Hne.
  destruct (channel_cases i Hi) as [-> | [-> | [-> | ->]]];
    [exact H3 | exact H4 | contradiction | exact H6].
Qed.

Lemma leds_off_between_iterations_witness :
  reachable slip_env slip_state /\
  lit 4 (outputs slip_state) = false /\
  sounding (clock slip_state) (outputs slip_state) = false.
Proof.
  destruct (leds_off_between_iterations slip_env slip_state slip_state_reachable)
    as (Hl & _ & Hs).
  exact (conj slip_state_reachable (conj (Hl 1 ltac:(lia) ltac:(lia)) Hs)).
Defined.

Lemma run_steps e gaps :
  forall s ts,
    wf s -> nonneg gaps -> run e gaps s = Done ts ->
    Forall (fun t => wf (t_pre t) /\ step e (t_pre t) (t_post t)) ts.
Proof.
  induction gaps as [|g gaps IH]; intros s ts Hwf Hg Hrun.
  - inversion Hrun; subst. constructor.
  - inversion Hg as [|? ? Hg0 Hgs]; subst.
    destruct (run_cons _ _ _ _ _ Hrun) as (s1 & ts' & Hl & Hr & ->).
    pose proof (wf_advance g s Hwf Hg0) as Hwf0.
    pose proof (proj1 (safe_Done _ _ _ _ (loop_wf e _ Hwf0) Hl)) as Hwf1.
    constructor; [|exact (IH s1 ts' Hwf1 Hgs Hr)].
    cbn [t_pre t_post]. split; [exact Hwf0 | exact (loop_step e _ _ Hwf0 Hl)].
Qed.

Lemma step_allowed e s s' :
  step e s s' -> allowed (gameState s) (gameState s') = true.
Proof.
  intros Hstep.
  destruct Hstep as [Hst | Hst Hb | k Hst Hheld | Hst Hcap
                     | c k Hst Hlt Hk Hc Hz Hnz | Hst Hacc
                     | i k x Hst Hacc Hi Hdeb Hheld Hx | Hst];
    try (rewrite Hst; reflexivity).
  - rewrite gameState_blink, Hst. reflexivity.
  - destruct (negb (i =? x)); [|destruct (sequenceLength s <=? userInputIndex s + 1)];
      cbn; rewrite ?Hst; reflexivity.
Qed.

(** X1.  The state machine of [loop]: [WELCOME] leads to [WAIT_FOR_START];
    [WAIT_FOR_START] stays or leads to [PLAY_SEQUENCE]; [PLAY_SEQUENCE]
    leads to [USER_INPUT]; [USER_INPUT] stays or leads to [PLAY_SEQUENCE]
    or [GAME_OVER]; [GAME_OVER] leads to [WAIT_FOR_START].  No iteration
    ever ends in [WELCOME]: the welcome animation is played once, at
    power-on. *)
Theorem transition_graph e s gaps ts :
  wf s -> nonneg gaps -> run e gaps s = Done ts ->
  Forall (fun t => allowed (gameState (t_pre t)) (gameState (t_post t)) = true /\
                   gameState (t_post t) <> WELCOME) ts.
Proof.
  intros Hwf Hg Hrun.
  eapply Forall_impl; [exact (run_steps e gaps s ts Hwf Hg Hrun)|].
  intros t [_ Hstep]. pose proof (step_allowed e _ _ Hstep) as Ha.
  split; [exact Ha|].
  intros Hw. rewrite Hw in Ha. destruct (gameState (t_pre t)); discriminate.
Qed.

Lemma transition_graph_witness :
  run perfect_env (rounds_gaps 2) init = Done two_rounds /\
  map (fun t => gameState (t_post t)) two_rounds =
    [WAIT_FOR_START; PLAY_SEQUENCE; USER_INPUT; PLAY_SEQUENCE; USER_INPUT;
     USER_INPUT; PLAY_SEQUENCE] /\
  Forall (fun t => allowed (gameState (t_pre t)) (gameState (t_post t)) = true /\
                   gameState (t_post t) <> WELCOME) two_rounds.
Proof.
  assert (H1 : run perfect_env (rounds_gaps 2) init = Done two_rounds)
    by (apply run_ticks_eq; vm_compute; reflexivity).
  assert (H2 : map (fun t => gameState (t_post t)) two_rounds =
               [WAIT_FOR_START; PLAY_SEQUENCE; USER_INPUT; PLAY_SEQUENCE;
                USER_INPUT; USER_INPUT; PLAY_SEQUENCE])
    by (vm_compute; reflexivity).
  assert (Hg : nonneg (rounds_gaps 2))
    by (apply nonneg_check; vm_compute; reflexivity).
  exact (conj H1 (conj H2
           (transition_graph perfect_env init (rounds_gaps 2) two_rounds
              wf_init Hg H1))).
Defined.

(** X10.  How long an iteration takes.  The welcome animation takes
    3200 ms and the game-over animation 2500 ms; a playback takes 800 ms
    per colour of the sequence it plays; a poll of [WAIT_FOR_START] or
    [USER_INPUT] that finds no press takes no time; an accepted press takes
    the time until its release, sampled every 10 ms, plus 500 ms, and a
    further 1000 ms when it completes the sequence. *)
Theorem iteration_duration e s s' :
  wf s -> loop e s = Done (tt, s') ->
  match gameState s with
  | WELCOME => clock s' = clock s + 3200
  | GAME_OVER => clock s' = clock s + 2500
  | PLAY_SEQUENCE => clock s' = clock s + 800 * sequenceLength s'
  | WAIT_FOR_START =>
      (gameState s' = WAIT_FOR_START /\ clock s' = clock s) \/
      (gameState s' = PLAY_SEQUENCE /\
       exists k : nat,
         held e 2 k s /\ clock s' = clock s + 10 * Z.of_nat k + 500)
  | USER_INPUT =>
      (accepted e s = None /\ clock s' = clock s) \/
      (exists i (k : nat),
         accepted e s = Some i /\ held e i k s /\
         clock s' =
           clock s + 10 * Z.of_nat k + 500 +
           (if gameState_eqb (gameState s') PLAY_SEQUENCE then 1000 else 0))
  end.
Proof.
  intros Hwf Hl. pose proof (loop_step e s s' Hwf Hl) as Hstep.
  destruct Hstep as [Hst | Hst Hb | k Hst Hheld | Hst Hcap
                     | c k Hst Hlt Hk Hc Hz Hnz | Hst Hacc
                     | i k x Hst Hacc Hi Hdeb Hheld Hx | Hst];
    rewrite Hst.
  - reflexivity.
  - left. rewrite gameState_blink, clock_blink. auto.
  - right. split; [reflexivity|]. exists k. split; [exact Hheld | reflexivity].
  - reflexivity.
  - reflexivity.
  - left. auto.
  - right. exists i, k. split; [exact Hacc|]. split; [exact Hheld|].
    destruct (negb (i =? x)); [|destruct (sequenceLength s <=? userInputIndex s + 1)].
    + cbn. lia.
    + cbn. lia.
    + cbn. rewrite Hst. cbn. lia.
  - reflexivity.
Qed.

Lemma iteration_duration_witness :
  wf (advance 210 slip_state) /\
  loop slip_env (advance 210 slip_state) =
    Done (tt, run_final slip_env [210] slip_state) /\
  exists k : nat,
    held slip_env 1 k (advance 210 slip_state) /\
    clock (run_final slip_env [210] slip_state) =
      clock (advance 210 slip_state) + 10 * Z.of_nat k + 500 + 0.
Proof.
  assert (H1 : wf (advance 210 slip_state)) by (vm_compute; reflexivity).
  assert (H2 : loop slip_env (advance 210 slip_state) =
               Done (tt, run_final slip_env [210] slip_state))
    by (apply run_single; vm_compute; reflexivity).
  assert (H3 : gameState (advance 210 slip_state) = USER_INPUT)
    by (vm_compute; reflexivity).
  assert (H4 : accepted slip_env (advance 210 slip_state) = Some 1)
    by (vm_compute; reflexivity).
  assert (H5 : gameState_eqb (gameState (run_final slip_env [210] slip_state))
                 PLAY_SEQUENCE = false) by (vm_compute; reflexivity).
  pose proof (iteration_duration slip_env _ _ H1 H2) as C.
  rewrite H3, H5 in C.
  refine (conj H1 (conj H2 _)).
  destruct C as [(Hn & _) | (i & k & Hacc & Hheld & Hc)].
  - rewrite H4 in Hn. discriminate.
  - rewrite H4 in Hacc. inversion Hacc; subst i.
    exists k. exact (conj Hheld Hc).
Defined.

(** ** The pins driven and the pins configured *)

Lemma driven_setup cfg p : driven p = true -> setup cfg p = Some OUTPUT.
Proof.
  unfold driven. cbn [existsb app LED_PINS BUZZER_PIN]. rewrite !orb_true_iff.
  intros [H | [H | [H | [H | [H | H]]]]]; try discriminate;
    apply Z.eqb_eq in H; subst p; reflexivity.
Qed.

Lemma buttons_setup cfg i :
  0 <= i < 4 -> setup cfg (nth (Z.to_nat i) BUTTON_PINS 0) = Some INPUT_PULLUP.
Proof.
  intros Hi. destruct (channel_cases i Hi) as [-> | [-> | [-> | ->]]]; reflexivity.
Qed.

Lemma writes_driven_color_events t i :
  0 <= i < 4 -> writes_driven (color_events t i).
Proof.
  intros Hi. destruct (channel_cases i Hi) as [-> | [-> | [-> | ->]]];
    repeat constructor.
Qed.

Lemma writes_driven_playback_events cs :
  forall t, Forall (fun c => 0 <= c < 4) cs -> writes_driven (playback_events t cs).
Proof.
  induction cs as [|c cs IH]; intros t Hcs; [constructor|].
  inversion Hcs; subst. cbn [playback_events]. apply Forall_app. split.
  - apply IH. assumption.
  - apply writes_driven_color_events. assumption.
Qed.

Lemma writes_driven_welcome_log t : writes_driven (welcome_log t).
Proof. cbv -[Z.add]. repeat constructor. Qed.

Lemma writes_driven_gameOver_log t : writes_driven (gameOver_log t).
Proof. cbv -[Z.add]. repeat constructor. Qed.

Lemma writes_driven_blink s :
  writes_driven (outputs s) -> writes_driven (outputs (blink s)).
Proof.
  intros H. unfold blink. destruct (toggles s); [|exact H].
  cbn [outputs set_outputs]. constructor; [reflexivity | exact H].
Qed.

Lemma wf_channels s :
  wf s ->
  Forall (fun c => 0 <= c < 4) (take (Z.to_nat (sequenceLength s)) (sequence s)).
Proof.
  intros Hwf. apply wf_iff in Hwf. destruct Hwf as (_ & _ & Hch & _).
  apply Forall_lookup. intros i c Hi.
  apply lookup_take_Some in Hi. destruct Hi as [Hi Hlt].
  exact (Hch i c Hlt Hi).
Qed.

Lemma writes_driven_step e s s' :
  wf s -> writes_driven (outputs s) -> step e s s' -> writes_driven (outputs s').
Proof.
  intros Hwf H Hstep.
  destruct Hstep as [Hst | Hst Hb | k Hst Hheld | Hst Hcap
                     | c k Hst Hlt Hk Hc Hz Hnz | Hst Hacc
                     | i k x Hst Hacc Hi Hdeb Hheld Hx | Hst].
  - apply Forall_app. split; [apply writes_driven_welcome_log | exact H].
  - apply writes_driven_blink. exact H.
  - unfold started. cbn [outputs set_outputs world set_gameState].
    constructor; [reflexivity | apply writes_driven_blink; exact H].
  - apply Forall_app. split; [|exact H].
    apply writes_driven_playback_events, wf_channels. exact Hwf.
  - apply Forall_app. split; [|exact H].
    apply writes_driven_playback_events, wf_channels.
    apply wf_appended; [assumption | assumption | subst c; apply mod4_range |].
    intros H0. apply (Hz H0).
  - exact H.
  - assert (Hout : writes_driven
                     (color_events (clock s + 10 * Z.of_nat k) i ++ outputs s)).
    { apply Forall_app. split; [|exact H].
      apply writes_driven_color_events. exact Hi. }
    destruct (negb (i =? x)); [|destruct (sequenceLength s <=? userInputIndex s + 1)];
      exact Hout.
  - apply Forall_app. split; [apply writes_driven_gameOver_log | exact H].
Qed.

(** X3.  [setup] leaves the four button pins as pulled-up inputs and the
    four LED pins and the buzzer pin as outputs, whatever the configuration
    it starts from; and every write, tone or silence the sketch ever
    issues goes to a pin that [setup] made an output. *)
Theorem writes_go_to_outputs cfg e s :
  reachable e s ->
  Forall (fun te => setup cfg (event_pin (snd te)) = Some OUTPUT) (outputs s) /\
  (forall i, 0 <= i < 4 ->
     setup cfg (nth (Z.to_nat i) BUTTON_PINS 0) = Some INPUT_PULLUP /\
     setup cfg (nth (Z.to_nat i) LED_PINS 0) = Some OUTPUT) /\
  setup cfg BUZZER_PIN = Some OUTPUT.
Proof.
  intros Hreach.
  assert (H : writes_driven (outputs s)).
  { apply (reachable_invariant e (fun s => writes_driven (outputs s)));
      [constructor | | |exact Hreach].
    - intros g s0 _ _ H0. exact H0.
    - intros s0 s1 Hwf H0 Hs. exact (writes_driven_step e s0 s1 Hwf H0 Hs). }
  split; [|split; [|reflexivity]].
  - eapply Forall_impl; [exact H|]. intros te Hd. apply driven_setup. exact Hd.
  - intros i Hi. split; [apply buttons_setup; exact Hi|].
    destruct (channel_cases i Hi) as [-> | [-> | [-> | ->]]]; reflexivity.
Qed.

Lemma writes_go_to_outputs_witness :
  reachable slip_env slip_state /\
  Forall (fun te => setup (fun _ => None) (event_pin (snd te)) = Some OUTPUT)
    (outputs slip_state).
Proof.
  exact (conj slip_state_reachable
           (proj1 (writes_go_to_outputs (fun _ => None) slip_env slip_state
                     slip_state_reachable))).
Defined.

(** ** Which button [readButton] reports *)

Lemma first_low_or_none e t :
  (forall j, 0 <= j < 4 -> button e t j = HIGH) \/
  (exists i, 0 <= i < 4 /\ first_low e t i).
Proof.
  destruct (button e t 0) eqn:H0.
  { right. exists 0. split; [lia|]. split; [exact H0 | intros j Hj; lia]. }
  destruct (button e t 1) eqn:H1.
  { right. exists 1. split; [lia|]. split; [exact H1|].
    intros j Hj. assert (j = 0) as -> by lia. exact H0. }
  destruct (button e t 2) eqn:H2.
  { right. exists 2. split; [lia|]. split; [exact H2|].
    intros j Hj. assert (j = 0 \/ j = 1) as [-> | ->] by lia; assumption. }
  destruct (button e t 3) eqn:H3.
  { right. exists 3. split; [lia|]. split; [exact H3|].
    intros j Hj.
    assert (j = 0 \/ j = 1 \/ j = 2) as [-> | [-> | ->]] by lia; assumption. }
  left. intros j Hj.
  destruct (channel_cases j Hj) as [-> | [-> | [-> | ->]]]; assumption.
Qed.

Lemma scan_none e s :
  (forall j, 0 <= j < 4 -> button e (clock s) j = HIGH) ->
  scan_buttons e [0; 1; 2; 3] s = Done (-1, s).
Proof.
  intros H. rewrite !scan_skip by (try apply H; lia). reflexivity.
Qed.

(** X4.  What [readButton] reports.  If it returns -1 it has changed
    nothing, and, once the debounce interval has passed, all four buttons
    were up when it looked.  If it returns a channel, the debounce interval
    had passed, that button was down and every button of a lower index was
    up: of several buttons held together the one with the lowest index is
    reported, and the others are not looked at. *)
Theorem readButton_priority e s i s' :
  readButton e s = Done (i, s') ->
  (i = -1 /\ s' = s /\
   (debounceDelay <= wsub (clock s mod WORD) (lastButtonPress s) ->
    forall j, 0 <= j < 4 -> button e (clock s) j = HIGH)) \/
  (0 <= i < 4 /\
   debounceDelay <= wsub (clock s mod WORD) (lastButtonPress s) /\
   first_low e (clock s) i).
Proof.
  intros Hrb.
  destruct (Z.lt_ge_cases (wsub (clock s mod WORD) (lastButtonPress s))
              debounceDelay) as [Hlt | Hge].
  - rewrite (readButton_debounced e s Hlt) in Hrb. inversion Hrb; subst.
    left. split; [reflexivity|]. split; [reflexivity|]. intros H. lia.
  - destruct (first_low_or_none e (clock s)) as [Hup | (i0 & Hi0 & Hfl)].
    + left.
      assert (Hscan : readButton e s = Done (-1, s)).
      { unfold readButton, bind at 1, millis, get. unfold bind at 1.
        destruct (Z.ltb_spec (wsub (clock s mod WORD) (lastButtonPress s))
                    debounceDelay); [lia|].
        apply scan_none. exact Hup. }
      rewrite Hscan in Hrb. inversion Hrb; subst. auto.
    + right. rewrite (readButton_first_low e s i0 Hi0 Hge Hfl) in Hrb.
      unfold bind at 1 in Hrb.
      destruct (wait_release e _ (patience e) _) as [[[] s1]| |];
        try discriminate.
      inversion Hrb; subst. auto.
Qed.

Lemma readButton_priority_witness :
  button chord_env (clock polling_state) 1 = LOW /\
  button chord_env (clock polling_state) 3 = LOW /\
  readButton chord_env polling_state = Done (1, pressed 4 polling_state) /\
  first_low chord_env (clock polling_state) 1.
Proof.
  assert (H1 : button chord_env (clock polling_state) 1 = LOW) by reflexivity.
  assert (H3 : button chord_env (clock polling_state) 3 = LOW) by reflexivity.
  assert (Hrb : readButton chord_env polling_state =
                Done (1, pressed 4 polling_state))
    by (vm_compute; reflexivity).
  refine (conj H1 (conj H3 (conj Hrb _))).
  destruct (readButton_priority chord_env polling_state 1
              (pressed 4 polling_state) Hrb) as [(Hn & _) | (_ & _ & Hfl)].
  - discriminate Hn.
  - exact Hfl.
Defined.

(** ** The sequence store *)

Lemma blink_store s :
  sequence (blink s) = sequence s /\
  sequenceLength (blink s) = sequenceLength s /\
  draws (blink s) = draws s.
Proof. unfold blink. destruct (toggles s); auto. Qed.

(** What an iteration does to the buffer, the length and the generator:
    nothing, or a reset of the length by a start press, or one append. *)
Lemma step_store e s s' :
  step e s s' ->
  (sequence s' = sequence s /\ draws s' = draws s /\
   (gameState s = PLAY_SEQUENCE -> MAX_SEQUENCE <= sequenceLength s) /\
   (sequenceLength s' = sequenceLength s \/
    (gameState s = WAIT_FOR_START /\ gameState s' = PLAY_SEQUENCE /\
     sequenceLength s' = 0))) \/
  (gameState s = PLAY_SEQUENCE /\ sequenceLength s < MAX_SEQUENCE /\
   exists c (k : nat),
     c = prng e (draws s + k) mod 4 /\
     sequence s' = <[Z.to_nat (sequenceLength s) := c]> (sequence s) /\
     sequenceLength s' = sequenceLength s + 1 /\
     draws s' = (draws s + S k)%nat /\
     (sequenceLength s <> 0 -> k = 0%nat)).
Proof.
  intros Hstep.
  destruct Hstep as [Hst | Hst Hb | k Hst Hheld | Hst Hcap
                     | c k Hst Hlt Hk Hc Hz Hnz | Hst Hacc
                     | i k x Hst Hacc Hi Hdeb Hheld Hx | Hst].
  - left. cbn. rewrite Hst. repeat split; auto; discriminate.
  - left. destruct (blink_store s) as (H1 & H2 & H3). rewrite Hst.
    repeat split; auto; discriminate.
  - left. destruct (blink_store s) as (H1 & H2 & H3). rewrite Hst.
    unfold started. cbn. repeat split; auto; discriminate.
  - left. cbn. repeat split; auto.
  - right. split; [exact Hst|]. split; [exact Hlt|].
    exists c, k. cbn. auto 6.
  - left. rewrite Hst. repeat split; auto; discriminate.
  - left. rewrite Hst.
    destruct (negb (i =? x)); [|destruct (sequenceLength s <=? userInputIndex s + 1)];
      cbn; repeat split; auto; discriminate.
  - left. cbn. rewrite Hst. repeat split; auto; discriminate.
Qed.

Lemma restarts_false t :
  restarts t = false ->
  ~ (gameState (t_pre t) = WAIT_FOR_START /\ gameState (t_post t) = PLAY_SEQUENCE).
Proof.
  unfold restarts. intros H [H1 H2]. rewrite H1, H2 in H. discriminate.
Qed.

(** X5.  Between two accepted start presses the sequence is append-only.
    In an execution in which no iteration accepts the start button, the
    length at the end is the length at the beginning plus the number of
    [PLAY_SEQUENCE] iterations, capped at [MAX_SEQUENCE]; and the colours
    the sequence held at the beginning are still there, in place: inputs,
    mistakes and the game-over animation rewrite nothing. *)
Theorem sequence_append_only e gaps :
  forall s ts,
    wf s -> nonneg gaps -> run e gaps s = Done ts ->
    Forall (fun t => restarts t = false) ts ->
    sequenceLength (final s ts) =
      Z.min MAX_SEQUENCE (sequenceLength s + plays ts) /\
    take (Z.to_nat (sequenceLength s)) (sequence (final s ts)) =
      take (Z.to_nat (sequenceLength s)) (sequence s).
Proof.
  induction gaps as [|g gaps IH]; intros s ts Hwf Hg Hrun Hno.
  - inversion Hrun; subst. cbn [final map List.last plays].
    apply wf_iff in Hwf. destruct Hwf as (_ & Hsl & _).
    split; [lia | reflexivity].
  - inversion Hg as [|? ? Hg0 Hgs]; subst.
    destruct (run_cons _ _ _ _ _ Hrun) as (s1 & ts' & Hl & Hr & ->).
    inversion Hno as [|? ? Hno0 Hnos]; subst.
    pose proof (wf_advance g s Hwf Hg0) as Hwf0.
    pose proof (proj1 (safe_Done _ _ _ _ (loop_wf e _ Hwf0) Hl)) as Hwf1.
    pose proof (step_store e _ _ (loop_step e _ _ Hwf0 Hl)) as Hstore.
    pose proof (restarts_false _ Hno0) as Hnr. cbn [t_pre t_post] in Hnr.
    destruct (IH s1 ts' Hwf1 Hgs Hr Hnos) as [Hlen Hpre].
    rewrite final_cons. cbn [t_post plays t_pre].
    pose proof Hwf as Hp. apply wf_iff in Hp. destruct Hp as (_ & Hsl & _).
    pose proof Hwf1 as Hp1. apply wf_iff in Hp1. destruct Hp1 as (_ & Hsl1 & _).
    change (sequenceLength (advance g s)) with (sequenceLength s) in Hstore.
    change (sequence (advance g s)) with (sequence s) in Hstore.
    change (gameState (advance g s)) with (gameState s) in Hstore, Hnr |- *.
    assert (Hplays : 0 <= plays ts').
    { clear. induction ts' as [|t ts'' IHt]; cbn [plays]; [lia|].
      destruct (gameState_eqb _ _); lia. }
    destruct Hstore as [(Hseq & _ & Hfull & [Hsame | Hre])
                       | (Hst & Hlt & c & k & _ & Hseq & Hlen1 & _ & _)].
    + split.
      * rewrite Hlen, Hsame.
        destruct (gameState s) eqn:Hst; cbn [gameState_eqb]; try lia.
        specialize (Hfull eq_refl). lia.
      * rewrite <- Hseq, <- Hsame. exact Hpre.
    + exfalso. apply Hnr. split; apply Hre.
    + rewrite Hst. cbn [gameState_eqb]. split.
      * rewrite Hlen, Hlen1. lia.
      * assert (Hle : (Z.to_nat (sequenceLength s) <=
                       Z.to_nat (sequenceLength s1))%nat) by lia.
        assert (Htt : forall l : list Z,
                   take (Z.to_nat (sequenceLength s))
                     (take (Z.to_nat (sequenceLength s1)) l) =
                   take (Z.to_nat (sequenceLength s)) l).
        { intros l. rewrite take_take, Nat.min_l by exact Hle. reflexivity. }
        rewrite <- (Htt (sequence (final s1 ts'))), Hpre, Htt, Hseq.
        apply take_insert_ge. lia.
Qed.

Lemma restarts_check ts :
  forallb (fun t => negb (restarts t)) ts = true ->
  Forall (fun t => restarts t = false) ts.
Proof.
  intros H. apply Forall_forall. intros t Hin. rewrite forallb_forall in H.
  apply negb_true_iff, H, list_elem_of_In. exact Hin.
Qed.

Lemma sequence_append_only_witness :
  run perfect_env [210; 0; 210; 10; 0] round1_state = Done later_rounds /\
  sequenceLength round1_state = 1 /\
  plays later_rounds = 2 /\
  sequenceLength (final round1_state later_rounds) =
    Z.min MAX_SEQUENCE (sequenceLength round1_state + plays later_rounds) /\
  take (Z.to_nat (sequenceLength round1_state))
    (sequence (final round1_state later_rounds)) =
  take (Z.to_nat (sequenceLength round1_state)) (sequence round1_state).
Proof.
  assert (Hrun : run perfect_env [210; 0; 210; 10; 0] round1_state =
                 Done later_rounds)
    by (apply run_ticks_eq; vm_compute; reflexivity).
  assert (Hwf : wf round1_state) by (vm_compute; reflexivity).
  assert (Hg : nonneg [210; 0; 210; 10; 0])
    by (apply nonneg_check; vm_compute; reflexivity).
  assert (Hno : Forall (fun t => restarts t = false) later_rounds)
    by (apply restarts_check; vm_compute; reflexivity).
  assert (Hlen : sequenceLength round1_state = 1) by (vm_compute; reflexivity).
  assert (Hplays : plays later_rounds = 2) by (vm_compute; reflexivity).
  exact (conj Hrun (conj Hlen (conj Hplays
           (sequence_append_only perfect_env [210; 0; 210; 10; 0] round1_state
              later_rounds Hwf Hg Hrun Hno)))).
Defined.

(** ** Where the colours come from *)

Lemma from_generator_step e s s' :
  wf s -> from_generator e s -> step e s s' -> from_generator e s'.
Proof.
  intros Hwf [Hle Hgen] Hstep.
  apply wf_iff in Hwf. destruct Hwf as (Hlen & Hsl & _).
  unfold MAX_SEQUENCE in *.
  destruct (step_store e s s' Hstep)
    as [(Hseq & Hd & _ & [Hsame | (_ & _ & Hzero)])
       | (_ & Hlt & c & k & Hc & Hseq & Hlen1 & Hd & Hk)];
    unfold from_generator.
  - rewrite Hseq, Hd, Hsame. split; assumption.
  - rewrite Hzero. split; [cbn; lia | intros i Hi; cbn in Hi; lia].
  - rewrite Hseq, Hd, Hlen1. unfold MAX_SEQUENCE in Hlt.
    replace (Z.to_nat (sequenceLength s + 1))
      with (S (Z.to_nat (sequenceLength s))) by lia.
    split; [lia|]. intros i Hi.
    destruct (Nat.eq_dec i (Z.to_nat (sequenceLength s))) as [-> | Hne].
    + rewrite list_lookup_insert_eq by lia. rewrite Hc.
      do 3 f_equal. lia.
    + rewrite list_lookup_insert_ne by lia.
      rewrite Hgen by lia.
      assert (Hk0 : k = 0%nat) by (apply Hk; lia). subst k.
      do 3 f_equal. lia.
Qed.

(** X6.  Where the colours come from.  On every reachable state the
    sequence in use is the run of the last [sequenceLength] values the
    generator produced, each reduced modulo 4, in the order they were
    drawn: every append after the first takes the very next value, nothing
    else draws from the generator, and the values rejected before a first
    colour precede the whole run.  In particular every colour to be played
    or matched is one of the four channels. *)
Theorem sequence_from_generator e s :
  reachable e s ->
  (Z.to_nat (sequenceLength s) <= draws s)%nat /\
  forall i : nat,
    (i < Z.to_nat (sequenceLength s))%nat ->
    sequence s !! i =
      Some (prng e (draws s - Z.to_nat (sequenceLength s) + i) mod 4) /\
    0 <= prng e (draws s - Z.to_nat (sequenceLength s) + i) mod 4 < 4.
Proof.
  intros Hreach.
  assert (H : from_generator e s).
  { apply (reachable_invariant e (from_generator e)); [| | |exact Hreach].
    - split; [cbn; lia | intros i Hi; cbn in Hi; lia].
    - intros g s0 _ _ H0. exact H0.
    - intros s0 s1 Hwf H0 Hs. exact (from_generator_step e s0 s1 Hwf H0 Hs). }
  destruct H as [Hle Hgen]. split; [exact Hle|].
  intros i Hi. split; [exact (Hgen i Hi) | apply mod4_range].
Qed.

Lemma sequence_from_generator_witness :
  reachable slip_env slip_state /\
  sequenceLength slip_state = 2 /\
  (Z.to_nat (sequenceLength slip_state) <= draws slip_state)%nat.
Proof.
  assert (Hlen : sequenceLength slip_state = 2) by (vm_compute; reflexivity).
  exact (conj slip_state_reachable (conj Hlen
           (proj1 (sequence_from_generator slip_env slip_state
                     slip_state_reachable)))).
Defined.

(** ** Iterations that do not look at the buttons *)

Lemma bind_ext {A B} (m1 m2 : M A) (k1 k2 : A -> M B) s :
  m1 s = m2 s -> (forall a s', k1 a s' = k2 a s') ->
  bind m1 k1 s = bind m2 k2 s.
Proof.
  intros Hm Hk. unfold bind. rewrite Hm.
  destruct (m2 s) as [[a s']| |]; [apply Hk | reflexivity | reflexivity].
Qed.

Lemma draw_color_ext e1 e2 n :
  (forall k, prng e1 k = prng e2 k) ->
  forall s, draw_color e1 n s = draw_color e2 n s.
Proof.
  intros Hp. induction n as [|n IH]; intros s; [reflexivity|].
  cbn [draw_color]. apply bind_ext.
  - unfold random. cbn. rewrite Hp. reflexivity.
  - intros c s1. apply bind_ext; [reflexivity|].
    intros len s2. destruct ((len =? 0) && (c =? 2)); [apply IH | reflexivity].
Qed.

Lemma addToSequence_ext e1 e2 s :
  (forall k, prng e1 k = prng e2 k) -> patience e1 = patience e2 ->
  addToSequence e1 s = addToSequence e2 s.
Proof.
  intros Hp Hn. unfold addToSequence. apply bind_ext; [reflexivity|].
  intros len s1. destruct (len <? MAX_SEQUENCE); [|reflexivity].
  apply bind_ext; [|reflexivity].
  rewrite Hn. apply draw_color_ext. exact Hp.
Qed.

Lemma loop_WELCOME_eq e s :
  gameState s = WELCOME ->
  loop e s = (welcomeSequence >> put (set_gameState WAIT_FOR_START)) s.
Proof. intros Hst. unfold loop, bind at 1, get. rewrite Hst. reflexivity. Qed.

Lemma loop_PLAY_SEQUENCE_eq e s :
  gameState s = PLAY_SEQUENCE ->
  loop e s =
    (addToSequence e >>
     (playSequence >>
      (put (set_userInputIndex 0) >>
       (let* t := millis in
        put (set_lastButtonPress t) >>
        put (set_gameState USER_INPUT))))) s.
Proof. intros Hst. unfold loop, bind at 1, get. rewrite Hst. reflexivity. Qed.

(** X7.  The welcome animation, a playback and the game-over animation do
    not look at the buttons.  An iteration started in [WELCOME],
    [PLAY_SEQUENCE] or [GAME_OVER] gives the same result, final state and
    output log included, in any two environments whose generators agree:
    whatever is pressed, held or released meanwhile is never seen. *)
Theorem playing_ignores_buttons e1 e2 s :
  gameState s = WELCOME \/ gameState s = PLAY_SEQUENCE \/
  gameState s = GAME_OVER ->
  (forall k, prng e1 k = prng e2 k) ->
  patience e1 = patience e2 ->
  loop e1 s = loop e2 s.
Proof.
  intros [Hst | [Hst | Hst]] Hp Hn.
  - rewrite !loop_WELCOME_eq by exact Hst. reflexivity.
  - rewrite !loop_PLAY_SEQUENCE_eq by exact Hst.
    apply bind_ext; [|reflexivity].
    apply addToSequence_ext; assumption.
  - rewrite !loop_GAME_OVER_eq by exact Hst. reflexivity.
Qed.

Lemma playing_ignores_buttons_witness :
  gameState fresh_state = PLAY_SEQUENCE /\
  pin_level perfect_env 3220 9 = LOW /\
  pin_level quiet_env 3220 9 = HIGH /\
  loop perfect_env fresh_state = loop quiet_env fresh_state.
Proof.
  assert (Hst : gameState fresh_state = PLAY_SEQUENCE)
    by (vm_compute; reflexivity).
  assert (H1 : pin_level perfect_env 3220 9 = LOW) by reflexivity.
  assert (H2 : pin_level quiet_env 3220 9 = HIGH) by reflexivity.
  exact (conj Hst (conj H1 (conj H2
           (playing_ignores_buttons perfect_env quiet_env fresh_state
              (or_intror (or_introl Hst)) (fun _ => eq_refl) eq_refl)))).
Defined.

(** ** When inputs are accepted *)

(** X8.  The input phase opens a debounce interval after the playback.  If
    an iteration started in [PLAY_SEQUENCE] ends in state [s1], then in
    every execution that goes on from [s1] no iteration accepts an input
    before [debounceDelay] milliseconds have passed on the clock of [s1]:
    a button pressed in the first 200 ms after the last colour was shown
    is not read. *)
Theorem input_opens_after_debounce e s g s1 gaps ts :
  wf s -> 0 <= g ->
  gameState s = PLAY_SEQUENCE ->
  loop e (advance g s) = Done (tt, s1) ->
  nonneg gaps ->
  run e gaps s1 = Done ts ->
  gameState s1 = USER_INPUT /\
  Forall (fun t => forall i, t_in t = Some i ->
                             clock s1 + debounceDelay <= clock (t_pre t)) ts.
Proof.
  intros Hwf Hg Hst Hl Hgaps Hrun.
  pose proof (wf_advance g s Hwf Hg) as Hwf0.
  pose proof (proj1 (safe_Done _ _ _ _ (loop_wf e _ Hwf0) Hl)) as Hwf1.
  assert (Hst0 : gameState (advance g s) = PLAY_SEQUENCE) by exact Hst.
  destruct (safe_Done _ _ _ _ (loop_PLAY_SEQUENCE e _ Hwf0 Hst0) Hl)
    as (sa & _ & _ & _ & Hs1).
  assert (Hs : stamped (clock s1) s1).
  { exists (clock s1). split; [lia|]. rewrite Hs1. reflexivity. }
  split; [rewrite Hs1; reflexivity|].
  exact (run_stamped e (clock s1) gaps s1 ts Hwf1 Hgaps Hs Hrun).
Qed.

Lemma input_opens_after_debounce_witness :
  loop perfect_env (advance 0 fresh_state) = Done (tt, round1_state) /\
  run perfect_env [210] round1_state = Done round1_ticks /\
  t_in (nth 0 round1_ticks no_tick) = Some 1 /\
  gameState round1_state = USER_INPUT /\
  Forall (fun t => forall i, t_in t = Some i ->
                     clock round1_state + debounceDelay <= clock (t_pre t))
    round1_ticks.
Proof.
  assert (Hwf : wf fresh_state) by (vm_compute; reflexivity).
  assert (Hst : gameState fresh_state = PLAY_SEQUENCE)
    by (vm_compute; reflexivity).
  assert (Hl : loop perfect_env (advance 0 fresh_state) =
               Done (tt, round1_state)) by (vm_compute; reflexivity).
  assert (Hrun : run perfect_env [210] round1_state = Done round1_ticks)
    by (apply run_ticks_eq; vm_compute; reflexivity).
  assert (Hin : t_in (nth 0 round1_ticks no_tick) = Some 1)
    by (vm_compute; reflexivity).
  assert (Hg : nonneg [210]) by (apply nonneg_check; vm_compute; reflexivity).
  exact (conj Hl (conj Hrun (conj Hin
           (input_opens_after_debounce perfect_env fresh_state 0 round1_state
              [210] round1_ticks Hwf (Z.le_refl 0) Hst Hl Hg Hrun)))).
Defined.

(** X9.  The start button is never the right first answer.  On a
    reachable state in [USER_INPUT] with the cursor at 0, an iteration that
    accepts channel 2, the start button, ends in [GAME_OVER], whatever the
    sequence is: its first colour is never 2. *)
Theorem start_button_loses e s g s' :
  reachable e s -> 0 <= g ->
  gameState s = USER_INPUT -> userInputIndex s = 0 ->
  accepted e (advance g s) = Some 2 ->
  loop e (advance g s) = Done (tt, s') ->
  gameState s' = GAME_OVER.
Proof.
  intros Hreach Hg Hst Hidx Hacc Hl.
  pose proof (reachable_wf e s Hreach) as Hwf.
  pose proof (wf_advance g s Hwf Hg) as Hwf0.
  pose proof Hwf as Hp. apply wf_iff in Hp.
  destruct Hp as (_ & _ & _ & _ & Hui & _ & Hfirst).
  specialize (Hui Hst). rewrite Hidx in Hui. specialize (Hfirst Hui).
  assert (Hst0 : gameState (advance g s) = USER_INPUT) by exact Hst.
  pose proof (loop_step e _ _ Hwf0 Hl) as Hstep.
  destruct Hstep as [Hs | Hs Hb | k Hs Hheld | Hs Hcap
                     | c k Hs Hlt Hk Hc Hz Hnz | Hs Hnone
                     | i k x Hs Hacc' Hi Hdeb Hheld Hx | Hs];
    try congruence.
  assert (i = 2) by congruence. subst i.
  change (sequence (advance g s)) with (sequence s) in Hx.
  change (userInputIndex (advance g s)) with (userInputIndex s) in Hx.
  rewrite Hidx in Hx. cbn in Hx.
  assert (Hne : x <> 2) by (intros ->; exact (Hfirst Hx)).
  destruct (Z.eqb_spec 2 x) as [Heq | _]; [congruence|].
  reflexivity.
Qed.

Lemma start_button_loses_witness :
  reachable green_env green_state /\
  accepted green_env (advance 210 green_state) = Some 2 /\
  gameState (run_final green_env [210] green_state) = GAME_OVER.
Proof.
  assert (Hr : reachable green_env green_state)
    by (apply reachable_run; vm_compute; reflexivity).
  assert (Hst : gameState green_state = USER_INPUT) by (vm_compute; reflexivity).
  assert (Hidx : userInputIndex green_state = 0) by (vm_compute; reflexivity).
  assert (Hacc : accepted green_env (advance 210 green_state) = Some 2)
    by (vm_compute; reflexivity).
  assert (Hl : loop green_env (advance 210 green_state) =
               Done (tt, run_final green_env [210] green_state))
    by (vm_compute; reflexivity).
  assert (Hg : 0 <= 210) by lia.
  exact (conj Hr (conj Hacc
           (start_button_loses green_env green_state 210
              (run_final green_env [210] green_state)
              Hr Hg Hst Hidx Hacc Hl))).
Defined.

Lemma run_clock_le e gaps :
  forall s ts,
    wf s -> nonneg gaps -> run e gaps s = Done ts ->
    Forall (fun t => clock s <= clock (t_pre t)) ts.
Proof.
  induction gaps as [|g gaps IH]; intros s ts Hwf Hg Hrun.
  - inversion Hrun; subst. constructor.
  - inversion Hg as [|? ? Hg0 Hgs]; subst.
    destruct (run_cons _ _ _ _ _ Hrun) as (s1 & ts' & Hl & Hr & ->).
    pose proof (wf_advance g s Hwf Hg0) as Hwf0.
    destruct (safe_Done _ _ _ _ (loop_wf e _ Hwf0) Hl) as [Hwf1 Hclk].
    cbn [clock advance set_clock] in Hclk.
    constructor; [cbn; lia|].
    eapply Forall_impl; [exact (IH s1 ts' Hwf1 Hgs Hr)|].
    intros t Ht. cbn beta in Ht. lia.
Qed.

Lemma accepted_takes_feedback e s s' i :
  wf s -> accepted e s = Some i -> loop e s = Done (tt, s') ->
  clock s + 500 <= clock s'.
Proof.
  intros Hwf Hacc Hl.
  pose proof (loop_step e _ _ Hwf Hl) as Hstep.
  pose proof (accepted_USER_INPUT _ _ _ Hacc) as Hst.
  destruct Hstep as [Hs | Hs Hb | k Hs Hheld | Hs Hcap
                     | c k Hs Hlt Hk Hc Hz Hnz | Hs Hnone
                     | j k x Hs Hacc' Hi Hdeb Hheld Hx | Hs];
    try congruence.
  destruct (negb (j =? x)); [|destruct (sequenceLength s <=? userInputIndex s + 1)];
    cbn; lia.
Qed.

(** X11.  An accepted input blocks the next one for the length of its
    feedback.  In every execution from a well-formed state, two iterations
    that accept an input start at least 500 ms apart: the first shows its
    colour for 500 ms before [loop] returns, which exceeds the debounce
    interval. *)
Theorem inputs_feedback_apart e gaps s ts1 ta ts2 tb ts3 i j :
  wf s -> nonneg gaps ->
  run e gaps s = Done (ts1 ++ ta :: ts2 ++ tb :: ts3) ->
  t_in ta = Some i -> t_in tb = Some j ->
  clock (t_pre ta) + 500 <= clock (t_post ta) /\
  clock (t_post ta) <= clock (t_pre tb).
Proof.
  intros Hwf Hg Hrun Ha Hb.
  destruct (run_app_inv e gaps s ts1 ta _ Hwf Hg Hrun)
    as (g & gaps2 & Hg2 & Hwfa & _ & Hacc & Hl & Hr).
  rewrite Hacc in Ha.
  pose proof (proj1 (safe_Done _ _ _ _ (loop_wf e _ Hwfa) Hl)) as Hwf1.
  split; [exact (accepted_takes_feedback e _ _ i Hwfa Ha Hl)|].
  pose proof (run_clock_le e gaps2 _ _ Hwf1 Hg2 Hr) as Hall.
  rewrite Forall_app in Hall. destruct Hall as [_ Hall].
  inversion Hall as [|? ? Hh _]; subst. exact Hh.
Qed.

Lemma inputs_feedback_apart_witness :
  t_in (nth 3 two_rounds no_tick) = Some 1 /\
  t_in (nth 5 two_rounds no_tick) = Some 1 /\
  clock (t_pre (nth 3 two_rounds no_tick)) + 500 <=
    clock (t_post (nth 3 two_rounds no_tick)) /\
  clock (t_post (nth 3 two_rounds no_tick)) <=
    clock (t_pre (nth 5 two_rounds no_tick)).
Proof.
  assert (Ha : t_in (nth 3 two_rounds no_tick) = Some 1) by (vm_compute; reflexivity).
  assert (Hb : t_in (nth 5 two_rounds no_tick) = Some 1) by (vm_compute; reflexivity).
  assert (Hrun : run perfect_env (rounds_gaps 2) init =
                 Done (firstn 3 two_rounds ++ nth 3 two_rounds no_tick ::
                       firstn 1 (skipn 4 two_rounds) ++
                       nth 5 two_rounds no_tick :: skipn 6 two_rounds))
    by (vm_compute; reflexivity).
  assert (Hg : nonneg (rounds_gaps 2))
    by (apply nonneg_check; vm_compute; reflexivity).
  exact (conj Ha (conj Hb
           (inputs_feedback_apart perfect_env (rounds_gaps 2) init
              (firstn 3 two_rounds) (nth 3 two_rounds no_tick)
              (firstn 1 (skipn 4 two_rounds)) (nth 5 two_rounds no_tick)
              (skipn 6 two_rounds) 1 1 wf_init Hg Hrun Ha Hb))).
Defined.

(** ** The timers across the wrap of [millis] *)

(** X12.  The two timers survive the wrap-around of the 32-bit
    millisecond counter.  Let the stored time of the last toggle be the
    counter value of time [P] and the debounce clock that of time [L], both
    less than 2^32 ms in the past.  Then [waitForStartButton], and with it
    the [WAIT_FOR_START] iteration of [loop], toggles the LED and re-arms
    the timer when [interval] milliseconds have really passed since [P]
    and leaves both alone when fewer have; and [readButton] skips the
    buttons when fewer than [debounceDelay] have really passed since [L]
    and scans them otherwise, also when the counter has wrapped in
    between. *)
Theorem timers_survive_wrap e s P L :
  previousMillis s = P mod WORD -> 0 <= clock s - P < WORD ->
  lastButtonPress s = L mod WORD -> 0 <= clock s - L < WORD ->
  (interval <= clock s - P ->
   waitForStartButton e s =
     match button e (clock s) 2 with
     | LOW => (wait_release e 8 (patience e) >> ret true) (toggled s)
     | HIGH => Done (false, toggled s)
     end /\
   (gameState s = WAIT_FOR_START -> button e (clock s) 2 = HIGH ->
    loop e s = Done (tt, toggled s))) /\
  (clock s - P < interval ->
   waitForStartButton e s =
     match button e (clock s) 2 with
     | LOW => (wait_release e 8 (patience e) >> ret true) s
     | HIGH => Done (false, s)
     end /\
   (gameState s = WAIT_FOR_START -> button e (clock s) 2 = HIGH ->
    loop e s = Done (tt, s))) /\
  (clock s - L < debounceDelay -> readButton e s = Done (-1, s)) /\
  (debounceDelay <= clock s - L ->
   readButton e s = scan_buttons e [0; 1; 2; 3] s).
Proof.
  intros HP HPr HL HLr.
  assert (H1 : wsub (clock s mod WORD) (previousMillis s) = clock s - P).
  { rewrite HP, wsub_mod. apply Z.mod_small. exact HPr. }
  assert (H2 : wsub (clock s mod WORD) (lastButtonPress s) = clock s - L).
  { rewrite HL, wsub_mod. apply Z.mod_small. exact HLr. }
  assert (Hloop : forall s1,
            gameState s = WAIT_FOR_START ->
            waitForStartButton e s = Done (false, s1) ->
            loop e s = Done (tt, s1)).
  { intros s1 Hst Hw. unfold loop, bind at 1, get. rewrite Hst.
    rewrite (bind_eq _ _ _ _ _ Hw). reflexivity. }
  split; [|split; [|split]].
  - intros Hge.
    assert (Hb : blink s = toggled s).
    { unfold blink, toggles. rewrite H1.
      destruct (Z.leb_spec interval (clock s - P)); [reflexivity | lia]. }
    assert (Hw := waitForStartButton_eq e s). rewrite Hb in Hw.
    split; [exact Hw|].
    intros Hst Hup. apply Hloop; [exact Hst|]. rewrite Hw, Hup. reflexivity.
  - intros Hlt.
    assert (Hb : blink s = s).
    { unfold blink, toggles. rewrite H1.
      destruct (Z.leb_spec interval (clock s - P)); [lia | reflexivity]. }
    assert (Hw := waitForStartButton_eq e s). rewrite Hb in Hw.
    split; [exact Hw|].
    intros Hst Hup. apply Hloop; [exact Hst|]. rewrite Hw, Hup. reflexivity.
  - intros Hlt. apply readButton_debounced. rewrite H2. exact Hlt.
  - intros Hge. unfold readButton, bind at 1, millis, get. unfold bind at 1.
    rewrite H2.
    destruct (Z.ltb_spec (clock s - L) debounceDelay); [lia | reflexivity].
Qed.

Lemma timers_survive_wrap_witness :
  clock wrap_state mod WORD = 50 /\
  previousMillis wrap_state = 4294966996 /\
  lastButtonPress wrap_state = 4294967196 /\
  waitForStartButton quiet_env wrap_state = Done (false, toggled wrap_state) /\
  loop quiet_env wrap_state = Done (tt, toggled wrap_state) /\
  outputs (toggled wrap_state) = [(2 ^ 32 + 50, DigitalWrite 5 HIGH)] /\
  previousMillis (toggled wrap_state) = 50 /\
  readButton quiet_env wrap_state = Done (-1, wrap_state).
Proof.
  assert (Hc : clock wrap_state mod WORD = 50) by (vm_compute; reflexivity).
  assert (Hp : previousMillis wrap_state = 4294966996) by (vm_compute; reflexivity).
  assert (Hl : lastButtonPress wrap_state = 4294967196) by (vm_compute; reflexivity).
  assert (HP : previousMillis wrap_state = (2 ^ 32 - 300) mod WORD)
    by (vm_compute; reflexivity).
  assert (HPr : 0 <= clock wrap_state - (2 ^ 32 - 300) < WORD)
    by (vm_compute; split; [discriminate | reflexivity]).
  assert (HL : lastButtonPress wrap_state = (2 ^ 32 - 100) mod WORD)
    by (vm_compute; reflexivity).
  assert (HLr : 0 <= clock wrap_state - (2 ^ 32 - 100) < WORD)
    by (vm_compute; split; [discriminate | reflexivity]).
  destruct (timers_survive_wrap quiet_env wrap_state (2 ^ 32 - 300)
              (2 ^ 32 - 100) HP HPr HL HLr) as (T & _ & D & _).
  assert (Hge : interval <= clock wrap_state - (2 ^ 32 - 300))
    by (vm_compute; discriminate).
  assert (Hlt : clock wrap_state - (2 ^ 32 - 100) < debounceDelay)
    by (vm_compute; reflexivity).
  assert (Hst : gameState wrap_state = WAIT_FOR_START) by reflexivity.
  assert (Hup : button quiet_env (clock wrap_state) 2 = HIGH) by reflexivity.
  destruct (T Hge) as [Tw Tl].
  assert (Hw : waitForStartButton quiet_env wrap_state =
               Done (false, toggled wrap_state)).
  { rewrite Tw, Hup. reflexivity. }
  assert (Ho : outputs (toggled wrap_state) =
               [(2 ^ 32 + 50, DigitalWrite 5 HIGH)]) by reflexivity.
  assert (Hpm : previousMillis (toggled wrap_state) = 50)
    by (vm_compute; reflexivity).
  exact (conj Hc (conj Hp (conj Hl (conj Hw (conj (Tl Hst Hup)
           (conj Ho (conj Hpm (D Hlt)))))))).
Defined.

(** ** How a game is lost *)

(** X13.  A game is lost only by a wrong answer.  An iteration that ends
    in [GAME_OVER] started in [USER_INPUT] and accepted an input that
    differs from the colour under the cursor: no timeout, no animation, no
    correct answer and no start press ever ends a game. *)
Theorem game_over_only_on_mismatch e s s' :
  wf s -> loop e s = Done (tt, s') ->
  gameState s' = GAME_OVER ->
  gameState s = USER_INPUT /\
  exists i x,
    accepted e s = Some i /\
    sequence s !! Z.to_nat (userInputIndex s) = Some x /\
    i <> x.
Proof.
  intros Hwf Hl Hover.
  pose proof (loop_step e _ _ Hwf Hl) as Hstep.
  destruct Hstep as [Hs | Hs Hb | k Hs Hheld | Hs Hcap
                     | c k Hs Hlt Hk Hc Hz Hnz | Hs Hnone
                     | i k x Hs Hacc Hi Hdeb Hheld Hx | Hs];
    try (cbn in Hover; discriminate Hover).
  - rewrite gameState_blink in Hover. congruence.
  - congruence.
  - split; [exact Hs|]. exists i, x. split; [exact Hacc|]. split; [exact Hx|].
    destruct (Z.eqb_spec i x) as [Heq | Hne]; [|exact Hne].
    exfalso. cbn [negb] in Hover.
    destruct (sequenceLength s <=? userInputIndex s + 1); cbn in Hover;
      congruence.
Qed.

Lemma game_over_only_on_mismatch_witness :
  gameState (t_post (nth 1 slip_ticks no_tick)) = GAME_OVER /\
  gameState (t_pre (nth 1 slip_ticks no_tick)) = USER_INPUT /\
  exists i x,
    accepted slip_env (t_pre (nth 1 slip_ticks no_tick)) = Some i /\
    sequence (t_pre (nth 1 slip_ticks no_tick))
      !! Z.to_nat (userInputIndex (t_pre (nth 1 slip_ticks no_tick))) = Some x /\
    i <> x.
Proof.
  assert (Hwf : wf (t_pre (nth 1 slip_ticks no_tick)))
    by (vm_compute; reflexivity).
  assert (Hl : loop slip_env (t_pre (nth 1 slip_ticks no_tick)) =
               Done (tt, t_post (nth 1 slip_ticks no_tick)))
    by (vm_compute; reflexivity).
  assert (Hover : gameState (t_post (nth 1 slip_ticks no_tick)) = GAME_OVER)
    by (vm_compute; reflexivity).
  exact (conj Hover
           (game_over_only_on_mismatch slip_env
              (t_pre (nth 1 slip_ticks no_tick))
              (t_post (nth 1 slip_ticks no_tick)) Hwf Hl Hover)).
Defined.
